(** * Orchard: chord generation, voicing, quantisation, patterns and note
    lifecycle of [orchard.js], embedded in Rocq.

    Notes, intervals, channels and velocities are JavaScript numbers that
    only ever hold integers here; they are modelled as [Z].  Timings
    ([delayMs]) are genuine IEEE doubles and are modelled with the kernel's
    binary64 floats.  Object literals used as lookup tables are finite
    maps from property names to values, looked up through the prototype
    chain as JavaScript does. *)

From Stdlib Require Import ZArith Floats Uint63.
From stdpp Require Import base option list sorting strings pretty gmap.

Local Open Scope Z_scope.

(** ** JavaScript preliminaries *)

Module Js.

(** The only exception the modelled functions can raise. *)
Inductive error := TypeError.

(** Completion of a call: a value, or a thrown exception.  A throw
    abandons the call; what the call had already changed is not kept. *)
Inductive result (A : Type) :=
  | Ok (a : A)
  | Throw (e : error).
Global Arguments Ok {A} a.
Global Arguments Throw {A} e.

Global Instance result_ret : MRet result := λ A a, Ok a.
Global Instance result_bind : MBind result := λ A B f m,
  match m with
  | Ok a => f a
  | Throw e => Throw e
  end.

(** What reading [table[key]] on one of the array-valued object literals
    can produce.  [VInherited] stands for a member of [Object.prototype]
    (a function, or the prototype object itself for [__proto__]): it is
    truthy, it is not iterable and it has no [includes] method. *)
Inductive value :=
  | VUndefined
  | VArray (items : list Z)
  | VInherited.

(** Property names every object literal inherits from [Object.prototype]. *)
Definition object_prototype_props : list string :=
  ["constructor"; "hasOwnProperty"; "isPrototypeOf"; "propertyIsEnumerable";
   "toLocaleString"; "toString"; "valueOf"; "__proto__";
   "__defineGetter__"; "__defineSetter__"; "__lookupGetter__";
   "__lookupSetter__"]%string.

(** [table[key]]: own property first, then the prototype, else undefined. *)
Definition get (table : gmap string (list Z)) (key : string) : value :=
  match table !! key with
  | Some items => VArray items
  | None =>
      if decide (key ∈ object_prototype_props) then VInherited
      else VUndefined
  end.

(** [[...v]]: only an array can be spread. *)
Definition spread (v : value) : result (list Z) :=
  match v with
  | VArray items => Ok items
  | VUndefined | VInherited => Throw TypeError
  end.

(** [a % b]: the remainder takes the sign of the dividend. *)
Definition rem (a b : Z) : Z := Z.rem a b.

(** [arr.sort((a, b) => a - b)] on integers. *)
Definition sortAsc (l : list Z) : list Z := merge_sort Z.le l.

(** [new Set()] with [add] and [delete]: a duplicate-free list in
    insertion order, which is also the iteration order. *)
Definition setAdd (s : list Z) (x : Z) : list Z :=
  if decide (x ∈ s) then s else s ++ [x].

Definition setDelete (s : list Z) (x : Z) : list Z :=
  filter (λ y, y ≠ x) s.

(** [new Set(arr)] *)
Definition newSet (l : list Z) : list Z := foldl setAdd [] l.

(** [arr.slice(1, -1)]: from index 1 up to, not including, the last. *)
Definition slice_1_m1 {A} (l : list A) : list A :=
  take (length l - 1 - 1)%nat (drop 1 l).

End Js.

Import Js.

(** A note is kept when [note >= 0 && note <= 127]. *)
Definition inMidiRange (note : Z) : Prop := 0 ≤ note ∧ note ≤ 127.

Global Instance inMidiRange_dec note : Decision (inMidiRange note).
Proof. unfold inMidiRange. apply _. Defined.

(** ** Data structures *)

Definition CHORD_INTERVALS : gmap string (list Z) :=
  list_to_map
    [("Maj", [0; 4; 7]);
     ("Min", [0; 3; 7]);
     ("Sus", [0; 5; 7]);
     ("Dim", [0; 3; 6])]%string.

Definition EXTENSION_INTERVALS : gmap string Z :=
  list_to_map [("6", 9); ("m7", 10); ("M7", 11); ("9", 14)]%string.

Definition SCALE_DEGREES : gmap string (list Z) :=
  list_to_map
    [("major", [0; 2; 4; 5; 7; 9; 11]);
     ("natural_minor", [0; 2; 3; 5; 7; 8; 10]);
     ("harmonic_minor", [0; 2; 3; 5; 7; 8; 11]);
     ("dorian", [0; 2; 3; 5; 7; 9; 10]);
     ("mixolydian", [0; 2; 4; 5; 7; 9; 10]);
     ("pentatonic_major", [0; 2; 4; 7; 9]);
     ("pentatonic_minor", [0; 3; 5; 7; 10]);
     ("blues", [0; 3; 5; 6; 7; 10])]%string.

Module MIDI_CHANNELS.
Definition CHORD : Z := 0.
Definition PERFORMANCE : Z := 1.
Definition BASS : Z := 2.
End MIDI_CHANNELS.

(** ** Chord generation *)

(** The [extensions.forEach] loop: push the interval of every extension
    that is an own property of [EXTENSION_INTERVALS]. *)
Definition pushExtensions (allIntervals : list Z) (extensions : list string)
  : list Z :=
  foldl (λ acc ext,
           match EXTENSION_INTERVALS !! ext with
           | Some interval => acc ++ [interval]
           | None => acc
           end) allIntervals extensions.

Definition generateChord (rootNote : Z) (chordType : string)
    (extensions : list string) : result (list Z) :=
  baseIntervals ← spread (get CHORD_INTERVALS chordType);
  let allIntervals := pushExtensions baseIntervals extensions in
  let uniqueIntervals := sortAsc (newSet allIntervals) in
  let midiNotes := map (λ interval, rootNote + interval) uniqueIntervals in
  mret (filter inMidiRange midiNotes).


(** ** Voicing *)

(** One pass of the [for] loop body of [applyVoicing].  The array is never
    empty when the loop runs (the function returns before the loop on an
    empty input and every pass keeps the length), so the [[]] arms are
    never taken. *)
Definition voicingStep (position : Z) (result : list Z) : list Z :=
  if decide (position > 0) then
    match result with
    | lowest :: rest => sortAsc (rest ++ [lowest + 12])
    | [] => []
    end
  else if decide (position < 0) then
    match last result with
    | Some highest =>
        sortAsc ((highest - 12) :: take (length result - 1) result)
    | None => []
    end
  else result.

(** The array after [i] passes of the loop. *)
Definition voicingLoop (i : nat) (position : Z) (result : list Z) : list Z :=
  Nat.iter i (voicingStep position) result.

Definition applyVoicing (notes : list Z) (position : Z) : list Z :=
  if decide (length notes = 0%nat) then notes
  else
    let result := sortAsc notes in
    let steps := Z.abs position in
    filter inMidiRange (voicingLoop (Z.to_nat steps) position result).

Definition applyBassVoicing (rootNote bassOctave : Z) : Z :=
  let bassNote := rootNote + bassOctave * 12 in
  Z.max 24 (Z.min 60 bassNote).

(** ** Key mode *)

(** [Math.min] of the three candidate distances. *)
Definition wrapDistance (interval degree : Z) : Z :=
  Z.min (Z.min (Z.abs (interval - degree))
               (Z.abs (interval - degree + 12)))
        (Z.abs (interval - degree - 12)).

(** The [for (const degree of scaleDegrees)] loop, started from
    [scaleDegrees[0]] and distance 12; a degree replaces the current one
    only when strictly closer.  Every array of [SCALE_DEGREES] is
    non-empty, so [scaleDegrees[0]] is a number. *)
Definition quantizeToScale (interval : Z) (scaleDegrees : list Z) : Z :=
  (foldl (λ '(nearestDegree, minDistance) degree,
            let distance := wrapDistance interval degree in
            if decide (distance < minDistance) then (degree, distance)
            else (nearestDegree, minDistance))
         (default 0 (head scaleDegrees), 12) scaleDegrees).1.

(** The body of [quantizeNoteToKey] once [scaleDegrees] is known to be an
    array.  Its search loop is the same text as [quantizeToScale]. *)
Definition quantizeInScale (midiNote keyRoot : Z) (scaleDegrees : list Z) : Z :=
  let octave := midiNote / 12 in
  let noteInOctave := rem midiNote 12 in
  let interval := rem ((noteInOctave - keyRoot) + 12) 12 in
  if decide (interval ∈ scaleDegrees) then midiNote
  else
    let nearestInterval := quantizeToScale interval scaleDegrees in
    let quantizedNoteInOctave := rem (keyRoot + nearestInterval) 12 in
    let quantizedNote := octave * 12 + quantizedNoteInOctave in
    let quantizedNote :=
      if decide (quantizedNoteInOctave < noteInOctave
                 ∧ noteInOctave - quantizedNoteInOctave > 6)
      then quantizedNote + 12
      else if decide (quantizedNoteInOctave > noteInOctave
                      ∧ quantizedNoteInOctave - noteInOctave > 6)
      then quantizedNote - 12
      else quantizedNote in
    Z.max 0 (Z.min 127 quantizedNote).

(** [SCALE_DEGREES[scaleType]] is falsy only when undefined; an inherited
    member passes the [!scaleDegrees] guard and the call of its missing
    [includes] method throws. *)
Definition quantizeNoteToKey (midiNote keyRoot : Z) (scaleType : string)
  : result Z :=
  match get SCALE_DEGREES scaleType with
  | VUndefined => Ok midiNote
  | VInherited => Throw TypeError
  | VArray scaleDegrees => Ok (quantizeInScale midiNote keyRoot scaleDegrees)
  end.

(** ** Performance engine *)

Module Num.
(** An array index as a JavaScript number. *)
Definition of_nat (i : nat) : float :=
  PrimFloat.of_uint63 (Uint63.of_Z (Z.of_nat i)).

(** A dial value (a small non-negative integer) as a JavaScript number. *)
Definition of_Z (z : Z) : float :=
  if decide (z < 0) then (- PrimFloat.of_uint63 (Uint63.of_Z (- z)))%float
  else PrimFloat.of_uint63 (Uint63.of_Z z).

(** [Math.max(0, x)] *)
Definition max0 (x : float) : float :=
  if PrimFloat.is_nan x then x
  else if PrimFloat.ltb 0 x then x else 0%float.
End Num.

(** An element of the sequences the pattern generators return;
    [durationMs] is absent from strum events. *)
Record PatternEvent := {
  note : Z;
  velocity : Z;
  delayMs : float;
  durationMs : option float;
  channel : Z
}.

Record StrumOptions := {
  twoOctaves : bool;
  slop : float
}.

(** [options = {}] *)
Definition defaultStrumOptions : StrumOptions :=
  {| twoOctaves := false; slop := 0%float |}.

Definition MIN_DELAY : float := 10%float.
Definition MAX_DELAY : float := 100%float.

(** [MIN_DELAY + ((127 - dialPosition) / 127) * (MAX_DELAY - MIN_DELAY)] *)
Definition delayPerNote (dialPosition : float) : float :=
  (MIN_DELAY + ((127 - dialPosition) / 127) * (MAX_DELAY - MIN_DELAY))%float.

Section Random.

(** [mathRandom k] is what the [k]-th call of [Math.random()] made by one
    invocation returns; [randomIndex i] is the value of
    [Math.floor(Math.random() * (i + 1))] drawn at loop index [i]. *)
Variable mathRandom : nat → float.
Variable randomIndex : nat → nat.

Definition generateStrum (notes : list Z) (dialPosition : float)
    (velocity : Z) (options : StrumOptions) : list PatternEvent :=
  let sequence := sortAsc notes in
  let sequence :=
    if twoOctaves options then
      let octaveUp := filter (λ n, n ≤ 127) (map (λ n, n + 12) sequence) in
      sortAsc (sequence ++ octaveUp)
    else sequence in
  let delayPerNote := delayPerNote dialPosition in
  let maxSlopMs := (slop options / 127 * 50)%float in
  imap (λ index note,
          let timing := (Num.of_nat index * delayPerNote)%float in
          let timing :=
            if PrimFloat.ltb 0 (slop options) then
              let randomOffset :=
                ((mathRandom index - 0.5) * 2 * maxSlopMs)%float in
              Num.max0 (timing + randomOffset)%float
            else timing in
          {| note := note; velocity := velocity; delayMs := timing;
             durationMs := None; channel := MIDI_CHANNELS.PERFORMANCE |})
       sequence.

(** [[array[i], array[j]] = [array[j], array[i]]] *)
Definition swap (array : list Z) (i j : nat) : list Z :=
  match array !! i, array !! j with
  | Some x, Some y => <[j := x]> (<[i := y]> array)
  | _, _ => array
  end.

(** The loop of [shuffleArray], from [i] down to 1. *)
Fixpoint shuffleFrom (i : nat) (array : list Z) : list Z :=
  match i with
  | O => array
  | S i' => shuffleFrom i' (swap array i (randomIndex i))
  end.

Definition shuffleArray (array : list Z) : list Z :=
  shuffleFrom (length array - 1) array.

Definition applyArpPattern (notes : list Z) (pattern : string) : list Z :=
  let sorted := sortAsc notes in
  if decide (pattern = "up") then sorted
  else if decide (pattern = "down") then reverse sorted
  else if decide (pattern = "upDown") then
    if decide (length sorted ≤ 1)%nat then sorted
    else sorted ++ reverse (slice_1_m1 sorted)
  else if decide (pattern = "downUp") then
    if decide (length sorted ≤ 1)%nat then sorted
    else
      let reversed := reverse sorted in
      reversed ++ reverse (slice_1_m1 reversed)
  else if decide (pattern = "random") then shuffleArray sorted
  else sorted.

End Random.

(** ** MIDI output *)

Module OrchardMIDI.

(** The fields of the class that note bookkeeping touches.  [output] is
    the selected port ([None] for [null]); [activeNotes] is the [Map] from
    channel to the [Set] of sounding notes; [sent] logs, oldest first,
    every byte triple handed to [output.send] together with the port that
    received it. *)
Record t := {
  output : option nat;
  activeNotes : gmap Z (list Z);
  sent : list (nat * list Z)
}.

(** [constructor]: no output, an empty set for each channel 0, 1, 2. *)
Definition constructor : t :=
  {| output := None;
     activeNotes :=
       foldl (λ acc ch, <[ch := []]> acc) ∅ [0; 1; 2];
     sent := [] |}.

Definition selectOutput (this : t) (port : option nat) : t :=
  {| output := port; activeNotes := activeNotes this; sent := sent this |}.

(** [this.output.send(bytes)] *)
Definition send (this : t) (port : nat) (bytes : list Z) : t :=
  {| output := output this; activeNotes := activeNotes this;
     sent := sent this ++ [(port, bytes)] |}.

Definition setActive (this : t) (channel : Z) (set : list Z) : t :=
  {| output := output this;
     activeNotes := <[channel := set]> (activeNotes this);
     sent := sent this |}.

(** [this.activeNotes.get(channel)] is undefined for a channel the
    constructor did not register, and calling [add] or [delete] on it
    throws. *)
Definition noteOn (this : t) (channel note velocity : Z) : result t :=
  match output this with
  | None => Ok this
  | Some port =>
      let status := Z.lor 0x90 (Z.land channel 0x0F) in
      let this := send this port [status; Z.land note 0x7F; Z.land velocity 0x7F] in
      match activeNotes this !! channel with
      | Some active => Ok (setActive this channel (setAdd active note))
      | None => Throw TypeError
      end
  end.

Definition noteOff (this : t) (channel note : Z) : result t :=
  match output this with
  | None => Ok this
  | Some port =>
      let status := Z.lor 0x80 (Z.land channel 0x0F) in
      let this := send this port [status; Z.land note 0x7F; 0] in
      match activeNotes this !! channel with
      | Some active => Ok (setActive this channel (setDelete active note))
      | None => Throw TypeError
      end
  end.

(** [active.forEach(note => this.noteOff(channel, note))].  Each callback
    deletes from the set only the note being visited, so the notes
    visited are those the set held when the loop started, in insertion
    order. *)
Definition forEachNoteOff (this : t) (channel : Z) (active : list Z)
  : result t :=
  foldl (λ acc note, this' ← acc; noteOff this' channel note)
        (Ok this) active.

Definition allNotesOff (this : t) (channel : Z) : result t :=
  match activeNotes this !! channel with
  | Some active => forEachNoteOff this channel active
  | None => Ok this
  end.

End OrchardMIDI.

(** ** Main engine *)

Module KeySettings.
(** [{ enabled, root, scale }] *)
Record t := { enabled : bool; root : Z; scale : string }.
End KeySettings.

Module Zone.
Record t := {
  mode : string;
  chordType : string;
  playstyle : string;
  performanceMode : string;
  keyMode : KeySettings.t;
  quantize : KeySettings.t
}.
End Zone.

Module Split.
Record t := {
  enabled : bool;
  point : Z;
  lower : Zone.t;
  upper : Zone.t
}.
End Split.

(** What [getEffectiveSettings] returns. *)
Module Settings.
Record t := {
  playstyle : string;
  performanceMode : string;
  keyMode : KeySettings.t;
  quantize : KeySettings.t
}.
End Settings.

Module State.
(** [this.state], without the dial and voicing settings that only the
    chord-generation path reads.  [quantizedNoteMap] is created on the
    first quantised note-on and is undefined ([None]) before. *)
Record t := {
  keyMode : KeySettings.t;
  quantize : KeySettings.t;
  playstyle : string;
  performanceMode : string;
  activeKey : option Z;
  activeMidiNote : option Z;
  velocity : Z;
  globalMode : string;
  split : Split.t;
  passThroughNotes : list Z;
  quantizedNoteMap : option (gmap Z Z)
}.

Definition set_passThroughNotes (s : t) (v : list Z) : t :=
  {| keyMode := keyMode s; quantize := quantize s; playstyle := playstyle s;
     performanceMode := performanceMode s; activeKey := activeKey s;
     activeMidiNote := activeMidiNote s; velocity := velocity s;
     globalMode := globalMode s; split := split s;
     passThroughNotes := v; quantizedNoteMap := quantizedNoteMap s |}.

Definition set_quantizedNoteMap (s : t) (v : option (gmap Z Z)) : t :=
  {| keyMode := keyMode s; quantize := quantize s; playstyle := playstyle s;
     performanceMode := performanceMode s; activeKey := activeKey s;
     activeMidiNote := activeMidiNote s; velocity := velocity s;
     globalMode := globalMode s; split := split s;
     passThroughNotes := passThroughNotes s; quantizedNoteMap := v |}.

(** The three assignments that open or close chord generation. *)
Definition set_active (s : t) (key midiNote : option Z) (vel : Z) : t :=
  {| keyMode := keyMode s; quantize := quantize s; playstyle := playstyle s;
     performanceMode := performanceMode s; activeKey := key;
     activeMidiNote := midiNote; velocity := vel;
     globalMode := globalMode s; split := split s;
     passThroughNotes := passThroughNotes s;
     quantizedNoteMap := quantizedNoteMap s |}.
End State.

Module OrchardEngine.

(** The engine owns one MIDI object and its state.  The Web Audio preview
    and the document ([audioContext], [oscillators], [generatedNotes],
    highlights, display) are outside the model: the calls that reach them
    neither read nor write [midi] or [state]. *)
Record t := {
  midi : OrchardMIDI.t;
  state : State.t
}.

Definition getDefaultState : State.t :=
  let key := {| KeySettings.enabled := false; KeySettings.root := 0;
                KeySettings.scale := "major" |} in
  {| State.keyMode := key;
     State.quantize := key;
     State.playstyle := "advanced";
     State.performanceMode := "off";
     State.activeKey := None;
     State.activeMidiNote := None;
     State.velocity := 100;
     State.globalMode := "chord";
     State.split :=
       {| Split.enabled := false;
          Split.point := 60;
          Split.lower :=
            {| Zone.mode := "chord"; Zone.chordType := "";
               Zone.playstyle := "advanced"; Zone.performanceMode := "off";
               Zone.keyMode := key; Zone.quantize := key |};
          Split.upper :=
            {| Zone.mode := "off"; Zone.chordType := "";
               Zone.playstyle := "advanced"; Zone.performanceMode := "off";
               Zone.keyMode := key; Zone.quantize := key |} |};
     State.passThroughNotes := [];
     State.quantizedNoteMap := None |}.

Definition constructor : t :=
  {| midi := OrchardMIDI.constructor; state := getDefaultState |}.

Definition with_state (this : t) (s : State.t) : t :=
  {| midi := midi this; state := s |}.

Definition with_midi (this : t) (m : OrchardMIDI.t) : t :=
  {| midi := m; state := state this |}.

Definition getModeForNote (this : t) (midiNote : Z) : string :=
  let split := State.split (state this) in
  if negb (Split.enabled split) then State.globalMode (state this)
  else if decide (midiNote < Split.point split)
       then Zone.mode (Split.lower split)
       else Zone.mode (Split.upper split).

Definition getZoneForNote (this : t) (midiNote : Z) : Zone.t :=
  let split := State.split (state this) in
  if decide (midiNote < Split.point split) then Split.lower split
  else Split.upper split.

(** [zone.chordType || null]: the empty string is falsy. *)
Definition getZoneChordType (this : t) (midiNote : Z) : option string :=
  if negb (Split.enabled (State.split (state this))) then None
  else
    let zone := getZoneForNote this midiNote in
    if decide (Zone.chordType zone = "") then None
    else Some (Zone.chordType zone).

Definition getEffectiveSettings (this : t) (midiNote : Z) : Settings.t :=
  if negb (Split.enabled (State.split (state this))) then
    {| Settings.playstyle := State.playstyle (state this);
       Settings.performanceMode := State.performanceMode (state this);
       Settings.keyMode := State.keyMode (state this);
       Settings.quantize := State.quantize (state this) |}
  else
    let zone := getZoneForNote this midiNote in
    {| Settings.playstyle := Zone.playstyle zone;
       Settings.performanceMode := Zone.performanceMode zone;
       Settings.keyMode := Zone.keyMode zone;
       Settings.quantize := Zone.quantize zone |}.

Section ChordPath.

(** The chord-generation path ([updateOutputWithOptions], reached with the
    velocity, the pressed note and the zone's chord type, and
    [stopOutput]) is kept abstract: the results below hold whatever it
    does. *)
Variable updateOutputWithOptions : t → Z → option Z → option string → result t.
Variable stopOutput : t → result t.

Definition onMIDINoteOn (this : t) (midiNote velocity : Z) : result t :=
  let keyNote := rem midiNote 12 in
  let mode := getModeForNote this midiNote in
  if decide (mode = "off") then
    let st := state this in
    let this :=
      with_state this
        (State.set_passThroughNotes st
           (setAdd (State.passThroughNotes st) midiNote)) in
    m ← OrchardMIDI.noteOn (midi this) MIDI_CHANNELS.CHORD midiNote velocity;
    mret (with_midi this m)
  else if decide (mode = "quantize") then
    let settings := getEffectiveSettings this midiNote in
    outputNote ←
      quantizeNoteToKey midiNote
        (KeySettings.root (Settings.quantize settings))
        (KeySettings.scale (Settings.quantize settings));
    let st := state this in
    let st :=
      State.set_passThroughNotes st
        (setAdd (State.passThroughNotes st) midiNote) in
    let st :=
      State.set_quantizedNoteMap st
        (Some (<[midiNote := outputNote]>
                 (default ∅ (State.quantizedNoteMap st)))) in
    let this := with_state this st in
    m ← OrchardMIDI.noteOn (midi this) MIDI_CHANNELS.CHORD outputNote velocity;
    mret (with_midi this m)
  else
    let this :=
      with_state this
        (State.set_active (state this) (Some keyNote) (Some midiNote)
           velocity) in
    let zoneChordType := getZoneChordType this midiNote in
    updateOutputWithOptions this velocity (Some midiNote) zoneChordType.

Definition onMIDINoteOff (this : t) (midiNote : Z) : result t :=
  let st := state this in
  if decide (midiNote ∈ State.passThroughNotes st) then
    let st :=
      State.set_passThroughNotes st
        (setDelete (State.passThroughNotes st) midiNote) in
    match State.quantizedNoteMap st ≫= (.!! midiNote) with
    | Some quantizedNote =>
        let st :=
          State.set_quantizedNoteMap st
            (delete midiNote <$> State.quantizedNoteMap st) in
        let this := with_state this st in
        m ← OrchardMIDI.noteOff (midi this) MIDI_CHANNELS.CHORD quantizedNote;
        mret (with_midi this m)
    | None =>
        let this := with_state this st in
        m ← OrchardMIDI.noteOff (midi this) MIDI_CHANNELS.CHORD midiNote;
        mret (with_midi this m)
    end
  else if decide (State.activeMidiNote st = Some midiNote) then
    this ← stopOutput this;
    mret (with_state this
            (State.set_active (state this) None None
               (State.velocity (state this))))
  else mret this.

End ChordPath.

End OrchardEngine.

(** ** Key mode chord types *)

Definition KEY_MODE_MAPPINGS : gmap string (gmap Z string) :=
  list_to_map
    [("major",
      list_to_map [(0, "Maj"); (2, "Min"); (4, "Min"); (5, "Maj");
                   (7, "Maj"); (9, "Min"); (11, "Dim")]);
     ("natural_minor",
      list_to_map [(0, "Min"); (2, "Dim"); (3, "Maj"); (5, "Min");
                   (7, "Min"); (8, "Maj"); (10, "Maj")]);
     ("harmonic_minor",
      list_to_map [(0, "Min"); (2, "Dim"); (3, "Maj"); (5, "Min");
                   (7, "Maj"); (8, "Maj"); (11, "Dim")])]%string.

Definition ADDITIONAL_KEY_MODE_MAPPINGS : gmap string (gmap Z string) :=
  list_to_map
    [("dorian",
      list_to_map [(0, "Min"); (2, "Min"); (3, "Maj"); (5, "Maj");
                   (7, "Min"); (9, "Dim"); (10, "Maj")]);
     ("mixolydian",
      list_to_map [(0, "Maj"); (2, "Min"); (4, "Dim"); (5, "Maj");
                   (7, "Min"); (9, "Min"); (10, "Maj")]);
     ("pentatonic_major",
      list_to_map [(0, "Maj"); (2, "Min"); (4, "Min"); (7, "Maj");
                   (9, "Min")]);
     ("pentatonic_minor",
      list_to_map [(0, "Min"); (3, "Maj"); (5, "Min"); (7, "Min");
                   (10, "Maj")]);
     ("blues",
      list_to_map [(0, "Min"); (3, "Maj"); (5, "Min"); (6, "Dim");
                   (7, "Min"); (10, "Maj")])]%string.

(** What reading [table[scaleType]] on one of the two mapping tables can
    produce; an inherited member is truthy, owns no numeric property and
    is not iterable. *)
Inductive mappingValue :=
  | MUndefined
  | MObject (mapping : gmap Z string)
  | MInherited.

Definition getMapping (table : gmap string (gmap Z string)) (key : string)
  : mappingValue :=
  match table !! key with
  | Some mapping => MObject mapping
  | None =>
      if decide (key ∈ object_prototype_props) then MInherited
      else MUndefined
  end.

(** [quantizeToScale(interval, scaleDegrees)] on whatever
    [SCALE_DEGREES[scaleType]] holds: reading [[0]] of undefined throws,
    and so does iterating an inherited member. *)
Definition quantizeToScaleOf (interval : Z) (scaleDegrees : value)
  : result Z :=
  match scaleDegrees with
  | VArray degrees => Ok (quantizeToScale interval degrees)
  | VUndefined | VInherited => Throw TypeError
  end.

(** The body of [getKeyModeChordType] once [interval] is computed.  The
    mapped chord types are non-empty strings, so
    [mapping[quantized] || 'Maj'] falls back only on a missing key. *)
Definition chordTypeForInterval (interval : Z) (scaleType : string)
  : result string :=
  let scaleDegrees := get SCALE_DEGREES scaleType in
  let mapping :=
    match getMapping KEY_MODE_MAPPINGS scaleType with
    | MUndefined => getMapping ADDITIONAL_KEY_MODE_MAPPINGS scaleType
    | found => found
    end in
  match mapping with
  | MUndefined => Ok "Maj"
  | MObject mapping =>
      match mapping !! interval with
      | Some chordType => Ok chordType
      | None =>
          quantized ← quantizeToScaleOf interval scaleDegrees;
          mret (default "Maj" (mapping !! quantized))
      end
  | MInherited =>
      quantized ← quantizeToScaleOf interval scaleDegrees;
      mret "Maj"
  end.

Definition getKeyModeChordType (pressedNote keyRoot : Z) (scaleType : string)
  : result string :=
  let interval := rem (rem pressedNote 12 - keyRoot + 12) 12 in
  chordTypeForInterval interval scaleType.

(** ** Arpeggio and harp sequences *)

Definition NOTE_DIVISIONS : gmap string Z :=
  list_to_map
    [("1/4", 1); ("1/8", 2); ("1/12", 3); ("1/16", 4); ("1/24", 6);
     ("1/32", 8)]%string.

(** [quarterNoteMs / NOTE_DIVISIONS[division]]: a division that is not an
    own key yields undefined or an inherited member, and dividing by
    either gives NaN. *)
Definition divideByDivision (quarterNoteMs : float) (division : string)
  : float :=
  match NOTE_DIVISIONS !! division with
  | Some divisor => (quarterNoteMs / Num.of_Z divisor)%float
  | None => PrimFloat.nan
  end.

Record Arpeggio := {
  sequence : list PatternEvent;
  stepMs : float;
  gateMs : float;
  totalDurationMs : float
}.

(** [options.twoOctaves] is the last argument. *)
Definition generateArpeggio (randomIndex : nat → nat) (notes : list Z)
    (bpm : float) (pattern division : string) (velocity : Z)
    (twoOctaves : bool) : Arpeggio :=
  let sequence := applyArpPattern randomIndex notes pattern in
  let sequence :=
    if twoOctaves then
      let octaveUp := filter (λ n, n ≤ 127) (map (λ n, n + 12) sequence) in
      sequence ++ octaveUp
    else sequence in
  let quarterNoteMs := (60000 / bpm)%float in
  let stepMs := divideByDivision quarterNoteMs division in
  let gateMs := (stepMs * 0.85)%float in
  let events :=
    imap (λ index note,
            {| note := note; velocity := velocity;
               delayMs := (Num.of_nat index * stepMs)%float;
               durationMs := Some gateMs;
               channel := MIDI_CHANNELS.PERFORMANCE |}) sequence in
  {| sequence := events;
     stepMs := stepMs;
     gateMs := gateMs;
     totalDurationMs := (Num.of_nat (length sequence) * stepMs)%float |}.

(** The [for (octave ...)] loop of [generateHarp]: for each of the four
    octaves in turn, every base note shifted by that octave and kept when
    at most 127. *)
Definition harpExpand (baseNotes : list Z) : list Z :=
  concat ((λ octave,
             filter (λ expandedNote, expandedNote ≤ 127)
                    (map (λ note, note + octave * 12) baseNotes))
          <$> [0; 1; 2; 3]).

Definition generateHarp (notes : list Z) (bpm : float) (velocity : Z)
  : list PatternEvent :=
  let baseNotes := sortAsc notes in
  let expanded := sortAsc (harpExpand baseNotes) in
  let quarterNoteMs := (60000 / bpm)%float in
  let intervalMs := (quarterNoteMs / 16)%float in
  imap (λ index note,
          {| note := note; velocity := velocity;
             delayMs := (Num.of_nat index * intervalMs)%float;
             durationMs := None;
             channel := MIDI_CHANNELS.PERFORMANCE |}) expanded.

(** [setBpm]: the value it stores in [state.bpm]. *)
Definition setBpm (bpm : Z) : Z := Z.max 40 (Z.min 240 bpm).

(** ** Display *)

Definition NOTE_NAMES : list string :=
  ["C"; "C#"; "D"; "D#"; "E"; "F"; "F#"; "G"; "G#"; "A"; "A#"; "B"].

(** [NOTE_NAMES[i]]: undefined ([None]) outside the array. *)
Definition noteNameAt (i : Z) : option string :=
  if decide (0 ≤ i) then NOTE_NAMES !! Z.to_nat i else None.

(** A string or undefined inside a template literal or a [+] with a
    string. *)
Definition toStr (v : option string) : string := default "undefined" v.

(** [parts.join('')] *)
Definition join (parts : list string) : string := foldr String.append "" parts.

Definition getChordDisplayName (rootNote : Z) (chordType : string)
    (extensions : list string) : option string :=
  let root := noteNameAt (rem rootNote 12) in
  if decide (chordType = "Maj" ∧ "m7" ∈ extensions) then
    let otherExts := filter (λ e, e ≠ "m7") extensions in
    let extString := join otherExts in
    Some (toStr root +:+ "7" +:+ extString)
  else
    let name :=
      if decide (chordType = "Min") then Some (toStr root +:+ "m")
      else if decide (chordType = "Sus") then Some (toStr root +:+ "sus4")
      else if decide (chordType = "Dim") then Some (toStr root +:+ "dim")
      else root in
    match extensions with
    | [] => name
    | [ext] => Some (toStr name +:+ ext)
    | [_; _] => Some (toStr name +:+ join extensions)
    | [_; _; _] => Some (toStr name +:+ " JAZZ")
    | [_; _; _; _] => Some (toStr name +:+ " ???")
    | _ => Some (toStr name +:+ " WTF?")
    end.

Definition midiNoteToName (midiNote : Z) : string :=
  let octave := midiNote / 12 - 1 in
  let noteName := noteNameAt (rem midiNote 12) in
  toStr noteName +:+ pretty octave.

(** ** MIDI input *)

(** The callback [handleMIDIMessage] invokes, with its arguments. *)
Inductive InputEvent :=
  | InNoteOn (note velocity channel : Z)
  | InNoteOff (note : option Z) (channel : Z)
  | InIgnored.

(** [event.data] is a byte array; the bytes it lacks are undefined, and
    [undefined & mask] is 0. *)
Definition handleMIDIMessage (data : list Z) : InputEvent :=
  let status := data !! 0%nat in
  let note := data !! 1%nat in
  let velocity := data !! 2%nat in
  let command := Z.land (default 0 status) 0xF0 in
  let channel := Z.land (default 0 status) 0x0F in
  match note, velocity with
  | Some n, Some v =>
      if decide (command = 0x90 ∧ v > 0) then InNoteOn n v channel
      else if decide (command = 0x80 ∨ (command = 0x90 ∧ v = 0))
      then InNoteOff note channel
      else InIgnored
  | _, _ =>
      if decide (command = 0x80) then InNoteOff note channel
      else InIgnored
  end.

(** ** Scheduled batches *)

Global Instance error_eq_dec : EqDecision Js.error.
Proof. solve_decision. Defined.

Global Instance result_eq_dec {A} `{EqDecision A} : EqDecision (result A).
Proof. solve_decision. Defined.

Module Scheduler.

(** An element of the array [scheduleBatch] receives. *)
Record MidiEvent := {
  type : string;
  channel : Z;
  note : Z;
  velocity : Z;
  timestamp : option float;
  durationMs : option float
}.

(** The two arrow functions [scheduleBatch] hands to [setTimeout]: the
    one that plays an event, and the one it creates for the paired
    note-off. *)
Inductive Callback :=
  | PlayEvent (event : MidiEvent)
  | PairedOff (channel note : Z).

(** A timer the browser holds for this object: its id, the delay it was
    set with and what it runs. *)
Record Timer := {
  timerId : nat;
  delay : float;
  callback : Callback
}.

(** The MIDI object with its [pendingTimeouts] array, the browser's
    pending timers that this object created, and the next id
    [setTimeout] hands out.  When a pending timer fires is left open: any
    of them may be the next. *)
Record t := {
  midi : OrchardMIDI.t;
  pendingTimeouts : list nat;
  timers : list Timer;
  nextId : nat
}.

Definition constructor : t :=
  {| midi := OrchardMIDI.constructor; pendingTimeouts := [];
     timers := []; nextId := 1 |}.

Definition with_midi (this : t) (m : OrchardMIDI.t) : t :=
  {| midi := m; pendingTimeouts := pendingTimeouts this;
     timers := timers this; nextId := nextId this |}.

(** A number used as a condition: 0 and NaN are falsy. *)
Definition truthy (x : option float) : bool :=
  match x with
  | Some d => negb (PrimFloat.is_zero d || PrimFloat.is_nan d)
  | None => false
  end.

(** [x || 0] *)
Definition orZero (x : option float) : float :=
  match x with
  | Some d => if truthy x then d else 0%float
  | None => 0%float
  end.

(** [const id = setTimeout(callback, delay); this.pendingTimeouts.push(id)] *)
Definition setTimeoutAndPush (this : t) (cb : Callback) (d : float) : t :=
  let id := nextId this in
  {| midi := midi this;
     pendingTimeouts := pendingTimeouts this ++ [id];
     timers := timers this ++ [{| timerId := id; delay := d; callback := cb |}];
     nextId := S id |}.

(** [clearTimeout(id)]: a timer that is no longer pending is left alone. *)
Definition clearTimeout (timers : list Timer) (id : nat) : list Timer :=
  filter (λ timer, timerId timer ≠ id) timers.

Definition cancelPending (this : t) : t :=
  {| midi := midi this;
     pendingTimeouts := [];
     timers := foldl clearTimeout (timers this) (pendingTimeouts this);
     nextId := nextId this |}.

Definition scheduleBatch (this : t) (events : list MidiEvent)
    (cancelPrevious : bool) : t :=
  let this := if cancelPrevious then cancelPending this else this in
  foldl (λ this event,
           setTimeoutAndPush this (PlayEvent event) (orZero (timestamp event)))
        this events.

(** What a callback does when its timer fires. *)
Definition run (this : t) (cb : Callback) : result t :=
  match cb with
  | PlayEvent event =>
      if decide (type event = "noteOn") then
        m ← OrchardMIDI.noteOn (midi this) (channel event) (note event)
               (velocity event);
        let this := with_midi this m in
        if truthy (durationMs event) then
          mret (setTimeoutAndPush this
                  (PairedOff (channel event) (note event))
                  (default 0%float (durationMs event)))
        else mret this
      else
        m ← OrchardMIDI.noteOff (midi this) (channel event) (note event);
        mret (with_midi this m)
  | PairedOff channel note =>
      m ← OrchardMIDI.noteOff (midi this) channel note;
      mret (with_midi this m)
  end.

(** The timer [id] fires: it leaves the pending timers and its callback
    runs.  An id that is not pending fires nothing. *)
Definition fire (this : t) (id : nat) : result t :=
  match list_find (λ timer, timerId timer = id) (timers this) with
  | Some (_, timer) =>
      run {| midi := midi this; pendingTimeouts := pendingTimeouts this;
             timers := clearTimeout (timers this) id;
             nextId := nextId this |}
          (callback timer)
  | None => Ok this
  end.

(** The direct calls of the note methods on the scheduled object. *)
Definition allNotesOff (this : t) (channel : Z) : result t :=
  m ← OrchardMIDI.allNotesOff (midi this) channel;
  mret (with_midi this m).

End Scheduler.

(** The events [sendOutput] and [startArpLoop] build from a pattern
    sequence. *)
Definition midiEventOf (e : PatternEvent) : Scheduler.MidiEvent :=
  {| Scheduler.type := "noteOn";
     Scheduler.channel := channel e;
     Scheduler.note := note e;
     Scheduler.velocity := velocity e;
     Scheduler.timestamp := Some (delayMs e);
     Scheduler.durationMs := durationMs e |}.

(** ** Chord output *)

Module Controls.
(** The fields of [this.state] that the chord-generation path reads and
    that [State.t] leaves out.  [activeChordType] is null ([None]) or the
    name on the pressed chord button. *)
Record t := {
  voicingPosition : Z;
  bassOctave : Z;
  performanceDial : Z;
  bpm : Z;
  arpPattern : string;
  arpDivision : string;
  activeChordType : option string;
  activeExtensions : list string;
  currentChord : list Z;
  suppressRoot : bool;
  muteAudio : bool
}.

Definition set_activeChordType (c : t) (v : option string) : t :=
  {| voicingPosition := voicingPosition c; bassOctave := bassOctave c;
     performanceDial := performanceDial c; bpm := bpm c;
     arpPattern := arpPattern c; arpDivision := arpDivision c;
     activeChordType := v; activeExtensions := activeExtensions c;
     currentChord := currentChord c; suppressRoot := suppressRoot c;
     muteAudio := muteAudio c |}.

Definition set_activeExtensions (c : t) (v : list string) : t :=
  {| voicingPosition := voicingPosition c; bassOctave := bassOctave c;
     performanceDial := performanceDial c; bpm := bpm c;
     arpPattern := arpPattern c; arpDivision := arpDivision c;
     activeChordType := activeChordType c; activeExtensions := v;
     currentChord := currentChord c; suppressRoot := suppressRoot c;
     muteAudio := muteAudio c |}.

Definition set_currentChord (c : t) (v : list Z) : t :=
  {| voicingPosition := voicingPosition c; bassOctave := bassOctave c;
     performanceDial := performanceDial c; bpm := bpm c;
     arpPattern := arpPattern c; arpDivision := arpDivision c;
     activeChordType := activeChordType c;
     activeExtensions := activeExtensions c;
     currentChord := v; suppressRoot := suppressRoot c;
     muteAudio := muteAudio c |}.

(** The values [getDefaultState] gives these fields. *)
Definition default : t :=
  {| voicingPosition := 0; bassOctave := 0; performanceDial := 64;
     bpm := 120; arpPattern := "up"; arpDivision := "1/8";
     activeChordType := None; activeExtensions := [];
     currentChord := []; suppressRoot := false; muteAudio := false |}.
End Controls.

Module ChordEngine.

(** The engine for the chord-generation path: the MIDI object with its
    timers, and the whole of [this.state] in two records.  The document,
    the Web Audio preview and the arpeggio loop's own timer are outside
    the model. *)
Record t := {
  sched : Scheduler.t;
  state : State.t;
  controls : Controls.t
}.

Definition asEngine (this : t) : OrchardEngine.t :=
  {| OrchardEngine.midi := Scheduler.midi (sched this);
     OrchardEngine.state := state this |}.

Definition with_sched (this : t) (s : Scheduler.t) : t :=
  {| sched := s; state := state this; controls := controls this |}.

Definition with_state (this : t) (s : State.t) : t :=
  {| sched := sched this; state := s; controls := controls this |}.

Definition with_controls (this : t) (c : Controls.t) : t :=
  {| sched := sched this; state := state this; controls := c |}.

(** A chord type (a string or null) used as a condition: null and the
    empty string are falsy. *)
Definition truthyType (chordType : option string) : bool :=
  match chordType with
  | Some name => bool_decide (name ≠ "")
  | None => false
  end.

(** The root and key note after the [if (settings.quantize.enabled)]
    block that [updateOutputWithOptions] and [generateCurrentArpNotes]
    share. *)
Definition quantizeRoot (settings : Settings.t) (rootNote keyNote : Z)
  : result (Z * Z) :=
  if KeySettings.enabled (Settings.quantize settings) then
    rootNote ←
      quantizeNoteToKey rootNote
        (KeySettings.root (Settings.quantize settings))
        (KeySettings.scale (Settings.quantize settings));
    mret (rootNote, rem rootNote 12)
  else mret (rootNote, keyNote).

(** [getKeyModeChordType(keyNote, settings.keyMode.root,
    settings.keyMode.scale)] *)
Definition keyModeType (settings : Settings.t) (keyNote : Z)
  : result (option string) :=
  chordType ←
    getKeyModeChordType keyNote
      (KeySettings.root (Settings.keyMode settings))
      (KeySettings.scale (Settings.keyMode settings));
  mret (Some chordType).

Definition generateCurrentArpNotes (this : t) : result (option (list Z)) :=
  match State.activeKey (state this) with
  | None => mret None
  | Some keyNote =>
      let rootNote :=
        default (keyNote + 48) (State.activeMidiNote (state this)) in
      let settings :=
        OrchardEngine.getEffectiveSettings (asEngine this) rootNote in
      '(rootNote, keyNote) ← quantizeRoot settings rootNote keyNote;
      let chordType := Controls.activeChordType (controls this) in
      chordType ←
        (if negb (truthyType chordType)
            && KeySettings.enabled (Settings.keyMode settings)
         then keyModeType settings keyNote
         else mret chordType);
      if negb (truthyType chordType) then mret (Some [rootNote])
      else
        baseChord ←
          generateChord rootNote (default "" chordType)
            (Controls.activeExtensions (controls this));
        let voicedChord :=
          applyVoicing baseChord (Controls.voicingPosition (controls this)) in
        if Controls.suppressRoot (controls this) then
          let rootPitchClass := rem rootNote 12 in
          mret (Some (filter (λ n, rem n 12 ≠ rootPitchClass) voicedChord))
        else mret (Some voicedChord)
  end.

Section Output.

(** [sendOutput(notes, velocity, rootNote, settings)] is kept abstract.
    It reads the state and acts on the MIDI object and its timers only,
    so it is given the engine and returns the MIDI object it leaves. *)
Variable sendOutput : t → list Z → Z → Z → Settings.t → result Scheduler.t.

(** The display name is computed for the document only and is left
    out. *)
Definition updateOutputWithOptions (this : t) (velocity : Z)
    (midiNote : option Z) (zoneChordType : option string) : result t :=
  match State.activeKey (state this) with
  | None => mret this
  | Some keyNote =>
      let rootNote := default (keyNote + 48) midiNote in
      let effectiveNote := default (keyNote + 48) midiNote in
      let settings :=
        OrchardEngine.getEffectiveSettings (asEngine this) effectiveNote in
      '(rootNote, keyNote) ← quantizeRoot settings rootNote keyNote;
      chordType ←
        (if decide (zoneChordType = Some "auto") then
           keyModeType settings keyNote
         else if truthyType zoneChordType then mret zoneChordType
         else
           let chordType := Controls.activeChordType (controls this) in
           if negb (truthyType chordType)
              && KeySettings.enabled (Settings.keyMode settings)
           then keyModeType settings keyNote
           else mret chordType);
      output ←
        (if truthyType chordType then
           baseChord ←
             generateChord rootNote (default "" chordType)
               (Controls.activeExtensions (controls this));
           mret (applyVoicing baseChord
                   (Controls.voicingPosition (controls this)))
         else mret [rootNote]);
      let this :=
        with_controls this (Controls.set_currentChord (controls this) output) in
      s ← sendOutput this output velocity rootNote settings;
      mret (with_sched this s)
  end.

Definition updateOutput (this : t) (velocity : Z) : result t :=
  updateOutputWithOptions this velocity None None.

Definition onChordType (this : t) (chordType : string) (isPressed : bool)
  : result t :=
  let this :=
    if isPressed then
      with_controls this
        (Controls.set_activeChordType (controls this) (Some chordType))
    else
      let effectiveNote := default 60 (State.activeMidiNote (state this)) in
      let settings :=
        OrchardEngine.getEffectiveSettings (asEngine this) effectiveNote in
      if decide (Settings.playstyle settings = "free") then
        with_controls this
          (Controls.set_activeChordType (controls this) None)
      else this in
  if decide (State.activeKey (state this) ≠ None) then
    updateOutput this (State.velocity (state this))
  else mret this.

Definition onExtension (this : t) (extension : string) (isPressed : bool)
  : result t :=
  let extensions := Controls.activeExtensions (controls this) in
  let extensions :=
    if isPressed then
      if decide (extension ∈ extensions) then extensions
      else extensions ++ [extension]
    else filter (λ e, e ≠ extension) extensions in
  let this :=
    with_controls this
      (Controls.set_activeExtensions (controls this) extensions) in
  let effectiveNote := default 60 (State.activeMidiNote (state this)) in
  let settings :=
    OrchardEngine.getEffectiveSettings (asEngine this) effectiveNote in
  let isArpMode :=
    bool_decide (Settings.performanceMode settings = "arp"
                 ∨ Settings.performanceMode settings = "arp2oct") in
  if bool_decide (State.activeKey (state this) ≠ None) && negb isArpMode then
    updateOutput this (State.velocity (state this))
  else mret this.

End Output.

(** [stopOutput]: cancel the timers, stop the notes of the three
    channels, forget the chord. *)
Definition stopOutput (this : t) : result t :=
  let s := Scheduler.cancelPending (sched this) in
  s ← Scheduler.allNotesOff s MIDI_CHANNELS.CHORD;
  s ← Scheduler.allNotesOff s MIDI_CHANNELS.PERFORMANCE;
  s ← Scheduler.allNotesOff s MIDI_CHANNELS.BASS;
  mret {| sched := s; state := state this;
          controls := Controls.set_currentChord (controls this) [] |}.

End ChordEngine.

(** ** Zone settings *)

(** [updateLowerKeySettings], the handler of the lower zone's key
    controls: it replaces the zone's [keyMode] and [quantize] objects
    with the root, scale and checkboxes read from the document, given
    here as arguments. *)
Definition updateLowerKeySettings (engine : OrchardEngine.t) (root : Z)
    (scale : string) (keyModeEnabled quantizeEnabled : bool)
  : OrchardEngine.t :=
  let st := OrchardEngine.state engine in
  let split := State.split st in
  let lower := Split.lower split in
  OrchardEngine.with_state engine
    {| State.keyMode := State.keyMode st;
       State.quantize := State.quantize st;
       State.playstyle := State.playstyle st;
       State.performanceMode := State.performanceMode st;
       State.activeKey := State.activeKey st;
       State.activeMidiNote := State.activeMidiNote st;
       State.velocity := State.velocity st;
       State.globalMode := State.globalMode st;
       State.split :=
         {| Split.enabled := Split.enabled split;
            Split.point := Split.point split;
            Split.lower :=
              {| Zone.mode := Zone.mode lower;
                 Zone.chordType := Zone.chordType lower;
                 Zone.playstyle := Zone.playstyle lower;
                 Zone.performanceMode := Zone.performanceMode lower;
                 Zone.keyMode :=
                   {| KeySettings.enabled := keyModeEnabled;
                      KeySettings.root := root;
                      KeySettings.scale := scale |};
                 Zone.quantize :=
                   {| KeySettings.enabled := quantizeEnabled;
                      KeySettings.root := root;
                      KeySettings.scale := scale |} |};
            Split.upper := Split.upper split |};
       State.passThroughNotes := State.passThroughNotes st;
       State.quantizedNoteMap := State.quantizedNoteMap st |}.

(** ** Vocabulary of the statements *)

(** The pitch class of a note. *)
Definition pitchClass (note : Z) : Z := note mod 12.

(** Every array the loop of [applyVoicing notes position] goes through,
    from the sorted input to the array after the last pass, holds only
    notes of [0,127]. *)
Definition staysInRange (notes : list Z) (position : Z) : Prop :=
  Forall (λ i, Forall inMidiRange (voicingLoop i position (sortAsc notes)))
         (seq 0 (S (Z.to_nat (Z.abs position)))).

Global Instance staysInRange_dec notes position :
  Decision (staysInRange notes position).
Proof. unfold staysInRange. apply _. Defined.

(** The names the tables declare. *)
Definition chordTypeNames : list string := ["Maj"; "Min"; "Sus"; "Dim"].
Definition extensionNames : list string := ["6"; "m7"; "M7"; "9"].
Definition scaleNames : list string :=
  ["major"; "natural_minor"; "harmonic_minor"; "dorian"; "mixolydian";
   "pentatonic_major"; "pentatonic_minor"; "blues"].

(** The eight degree arrays of [SCALE_DEGREES]. *)
Definition scaleDegreeArrays : list (list Z) :=
  (map_to_list SCALE_DEGREES).*2.

(** A call returned normally with a value satisfying [P]. *)
Definition returned {A} (r : result A) (P : A → Prop) : Prop :=
  match r with
  | Ok a => P a
  | Throw _ => False
  end.

Global Instance returned_dec {A} (r : result A) (P : A → Prop)
  `{∀ a, Decision (P a)} : Decision (returned r P).
Proof. destruct r; simpl; apply _. Defined.

(** A lookup found a value satisfying [P]. *)
Definition found {A} (o : option A) (P : A → Prop) : Prop :=
  match o with
  | Some a => P a
  | None => False
  end.

Global Instance found_dec {A} (o : option A) (P : A → Prop)
  `{∀ a, Decision (P a)} : Decision (found o P).
Proof. destruct o; simpl; apply _. Defined.

(** The sum of the notes of a chord. *)
Definition sumNotes (notes : list Z) : Z := foldr Z.add 0 notes.

(** A call of one of the note methods of the MIDI object, and a sequence
    of such calls made one after the other from a given state. *)
Inductive MidiCall :=
  | SelectOutput (port : option nat)
  | NoteOn (channel note velocity : Z)
  | NoteOff (channel note : Z)
  | AllNotesOff (channel : Z).

Definition callChannel (c : MidiCall) : option Z :=
  match c with
  | SelectOutput _ => None
  | NoteOn channel _ _ | NoteOff channel _ | AllNotesOff channel =>
      Some channel
  end.

Definition call (this : OrchardMIDI.t) (c : MidiCall) : result OrchardMIDI.t :=
  match c with
  | SelectOutput port => Ok (OrchardMIDI.selectOutput this port)
  | NoteOn channel note velocity =>
      OrchardMIDI.noteOn this channel note velocity
  | NoteOff channel note => OrchardMIDI.noteOff this channel note
  | AllNotesOff channel => OrchardMIDI.allNotesOff this channel
  end.

Definition callAll (this : OrchardMIDI.t) (calls : list MidiCall)
  : result OrchardMIDI.t :=
  foldl (λ acc c, this' ← acc; call this' c) (Ok this) calls.

(** The channels the constructor registers. *)
Definition registeredChannels : list Z := [0; 1; 2].

(** Exactly the channels 0, 1 and 2 have a registry, and each registry is
    free of duplicates. *)
Definition registryWellFormed (this : OrchardMIDI.t) : Prop :=
  ∀ channel,
    if decide (channel ∈ registeredChannels)
    then ∃ active,
           OrchardMIDI.activeNotes this !! channel = Some active ∧
           NoDup active
    else OrchardMIDI.activeNotes this !! channel = None.

(** The body of the loop of [quantizeToScale], on the pair of the
    nearest degree and the least distance so far. *)
Definition nearestStep (interval : Z) : Z * Z → Z → Z * Z :=
  λ '(nearestDegree, minDistance) degree,
    let distance := wrapDistance interval degree in
    if decide (distance < minDistance) then (degree, distance)
    else (nearestDegree, minDistance).

(** The offset of a note from the key root as the code computes it. *)
Definition scaleInterval (note keyRoot : Z) : Z :=
  rem (rem note 12 - keyRoot + 12) 12.

(** The note-off message [noteOff] sends for a note of a channel. *)
Definition noteOffMessage (channel note : Z) : list Z :=
  [Z.lor 0x80 (Z.land channel 0x0F); Z.land note 0x7F; 0].

(** The note-on message [noteOn] sends. *)
Definition noteOnMessage (channel note velocity : Z) : list Z :=
  [Z.lor 0x90 (Z.land channel 0x0F); Z.land note 0x7F; Z.land velocity 0x7F].

(** The note recorded in [quantizedNoteMap] for a pressed note, if the map
    exists and has the entry. *)
Definition sentFor (this : OrchardEngine.t) (midiNote : Z) : option Z :=
  State.quantizedNoteMap (OrchardEngine.state this) ≫= (.!! midiNote).

(** A sample engine: output port 0 selected, the keyboard split at
    middle C with the lower zone in quantize mode on C major and the upper
    zone passing notes through. *)
Definition quantizingEngine : OrchardEngine.t :=
  let key := {| KeySettings.enabled := false; KeySettings.root := 0;
                KeySettings.scale := "major" |} in
  let zone mode :=
    {| Zone.mode := mode; Zone.chordType := "";
       Zone.playstyle := "advanced"; Zone.performanceMode := "off";
       Zone.keyMode := key; Zone.quantize := key |} in
  let st := OrchardEngine.getDefaultState in
  {| OrchardEngine.midi :=
       OrchardMIDI.selectOutput OrchardMIDI.constructor (Some 0%nat);
     OrchardEngine.state :=
       {| State.keyMode := State.keyMode st;
          State.quantize := State.quantize st;
          State.playstyle := State.playstyle st;
          State.performanceMode := State.performanceMode st;
          State.activeKey := State.activeKey st;
          State.activeMidiNote := State.activeMidiNote st;
          State.velocity := State.velocity st;
          State.globalMode := State.globalMode st;
          State.split :=
            {| Split.enabled := true; Split.point := 60;
               Split.lower := zone "quantize"; Split.upper := zone "off" |};
          State.passThroughNotes := State.passThroughNotes st;
          State.quantizedNoteMap := State.quantizedNoteMap st |} |}.

(** Every timer still pending for the scheduled object is recorded in
    [pendingTimeouts], carries an id handed out earlier, and no two share
    an id. *)
Definition timersTracked (this : Scheduler.t) : Prop :=
  Forall (λ timer, Scheduler.timerId timer ∈ Scheduler.pendingTimeouts this
                   ∧ (Scheduler.timerId timer < Scheduler.nextId this)%nat)
         (Scheduler.timers this)
  ∧ NoDup (Scheduler.timerId <$> Scheduler.timers this).

(** The channel a callback plays on. *)
Definition callbackChannel (cb : Scheduler.Callback) : Z :=
  match cb with
  | Scheduler.PlayEvent event => Scheduler.channel event
  | Scheduler.PairedOff channel _ => channel
  end.

(** The pending callbacks only play on registered channels. *)
Definition timersRegistered (this : Scheduler.t) : Prop :=
  Forall (λ timer, callbackChannel (Scheduler.callback timer)
                   ∈ registeredChannels)
         (Scheduler.timers this).

(** What can happen to the scheduled object: one of its methods is
    called, or one of its pending timers fires. *)
Inductive SchedulerStep :=
  | ScheduleBatch (events : list Scheduler.MidiEvent) (cancelPrevious : bool)
  | CancelPending
  | Fire (id : nat)
  | Direct (c : MidiCall).

Definition step (this : Scheduler.t) (s : SchedulerStep)
  : result Scheduler.t :=
  match s with
  | ScheduleBatch events cancelPrevious =>
      Ok (Scheduler.scheduleBatch this events cancelPrevious)
  | CancelPending => Ok (Scheduler.cancelPending this)
  | Fire id => Scheduler.fire this id
  | Direct c =>
      m ← call (Scheduler.midi this) c;
      mret (Scheduler.with_midi this m)
  end.

Definition steps (this : Scheduler.t) (l : list SchedulerStep)
  : result Scheduler.t :=
  foldl (λ acc s, this' ← acc; step this' s) (Ok this) l.

(** A step that only names registered channels. *)
Definition stepRegistered (s : SchedulerStep) : Prop :=
  match s with
  | ScheduleBatch events _ =>
      Forall (λ event, Scheduler.channel event ∈ registeredChannels) events
  | CancelPending | Fire _ => True
  | Direct c =>
      from_option (λ channel, channel ∈ registeredChannels) True
                  (callChannel c)
  end.

(** The timers a batch creates when [first] is the next free id: one per
    event, in order, set with the event's [timestamp || 0]. *)
Definition batchTimers (first : nat) (events : list Scheduler.MidiEvent)
  : list Scheduler.Timer :=
  imap (λ i event,
          {| Scheduler.timerId := (first + i)%nat;
             Scheduler.delay := Scheduler.orZero (Scheduler.timestamp event);
             Scheduler.callback := Scheduler.PlayEvent event |}) events.

(** A sample arpeggio step: note 60 on the performance channel, to be
    played at once and held for 212.5 ms. *)
Definition sampleEvent : Scheduler.MidiEvent :=
  {| Scheduler.type := "noteOn"; Scheduler.channel := 1;
     Scheduler.note := 60; Scheduler.velocity := 100;
     Scheduler.timestamp := Some 0%float;
     Scheduler.durationMs := Some 212.5%float |}.

(** A sample scheduled object: output port 0 selected and the sample
    event scheduled, its timer (id 1) still pending. *)
Definition sampleScheduled : Scheduler.t :=
  Scheduler.scheduleBatch
    (Scheduler.with_midi Scheduler.constructor
       (OrchardMIDI.selectOutput OrchardMIDI.constructor (Some 0%nat)))
    [sampleEvent] true.

(** The timer of the sample event. *)
Definition sampleTimer : Scheduler.Timer :=
  {| Scheduler.timerId := 1; Scheduler.delay := 0%float;
     Scheduler.callback := Scheduler.PlayEvent sampleEvent |}.

(** The sample engine after the lower zone was switched to pass-through
    while key 49, pressed in quantize mode and sent as 48, is still held. *)
Definition switchedZoneEngine : OrchardEngine.t :=
  let st := OrchardEngine.state quantizingEngine in
  let split := State.split st in
  let lower := Split.lower split in
  {| OrchardEngine.midi :=
       OrchardMIDI.setActive (OrchardEngine.midi quantizingEngine) 0 [48];
     OrchardEngine.state :=
       {| State.keyMode := State.keyMode st;
          State.quantize := State.quantize st;
          State.playstyle := State.playstyle st;
          State.performanceMode := State.performanceMode st;
          State.activeKey := State.activeKey st;
          State.activeMidiNote := State.activeMidiNote st;
          State.velocity := State.velocity st;
          State.globalMode := State.globalMode st;
          State.split :=
            {| Split.enabled := Split.enabled split;
               Split.point := Split.point split;
               Split.lower :=
                 {| Zone.mode := "off";
                    Zone.chordType := Zone.chordType lower;
                    Zone.playstyle := Zone.playstyle lower;
                    Zone.performanceMode := Zone.performanceMode lower;
                    Zone.keyMode := Zone.keyMode lower;
                    Zone.quantize := Zone.quantize lower |};
               Split.upper := Split.upper split |};
          State.passThroughNotes := [49];
          State.quantizedNoteMap := Some {[ 49 := 48 ]} |} |}.

(** The note-off messages [allNotesOff] sends to [port] for a channel:
    one per note of the channel's registry, in registry order. *)
Definition noteOffsFor (this : OrchardMIDI.t) (port : nat) (channel : Z)
  : list (nat * list Z) :=
  (λ note, (port, noteOffMessage channel note))
    <$> default [] (OrchardMIDI.activeNotes this !! channel).

(** The note the chord is rooted on before quantisation, for the active
    key [keyNote]: the MIDI note given, or the key in the octave of
    note 48. *)
Definition rootFor (keyNote : Z) (midiNote : option Z) : Z :=
  default (keyNote + 48) midiNote.

(** The settings in force for the note [rootFor] gives. *)
Definition settingsFor (this : ChordEngine.t) (keyNote : Z)
    (midiNote : option Z) : Settings.t :=
  OrchardEngine.getEffectiveSettings (ChordEngine.asEngine this)
    (rootFor keyNote midiNote).

(** Whether the chord path has a chord type to use: one selected on the
    buttons, or key mode to derive one. *)
Definition hasChordType (this : ChordEngine.t) (settings : Settings.t)
  : bool :=
  ChordEngine.truthyType
    (Controls.activeChordType (ChordEngine.controls this))
  || KeySettings.enabled (Settings.keyMode settings).

(** A stand-in for [sendOutput] in the examples: it cancels the pending
    timers and sends nothing, which is what [sendOutput] does to the MIDI
    object in performance mode "off" while no output is selected. *)
Definition sendNothing (this : ChordEngine.t) (notes : list Z)
    (velocity rootNote : Z) (settings : Settings.t) : result Scheduler.t :=
  Ok (Scheduler.cancelPending (ChordEngine.sched this)).

(** A sample engine: output port 0 selected, MIDI key 72 held with the
    chord type Min, its chord sounding on the chord channel and its bass
    note on the bass channel, and the sample event scheduled. *)
Definition heldEngine : ChordEngine.t :=
  {| ChordEngine.sched :=
       Scheduler.with_midi sampleScheduled
         (OrchardMIDI.setActive
            (OrchardMIDI.setActive (Scheduler.midi sampleScheduled)
               0 [72; 75; 79])
            2 [60]);
     ChordEngine.state :=
       State.set_active OrchardEngine.getDefaultState
         (Some 0) (Some 72) 100;
     ChordEngine.controls :=
       Controls.set_currentChord
         (Controls.set_activeChordType Controls.default (Some "Min"))
         [72; 75; 79] |}.

(** The note lies on a degree of the scale of [keyRoot]. *)
Definition onScale (note keyRoot : Z) (scaleType : string) : Prop :=
  found (SCALE_DEGREES !! scaleType)
        (λ degrees, scaleInterval note keyRoot ∈ degrees).

Global Instance onScale_dec note keyRoot scaleType :
  Decision (onScale note keyRoot scaleType).
Proof. unfold onScale. apply _. Defined.

(** The scales whose key-mode chords stay on the scale. *)
Definition diatonicScales : list string :=
  ["major"; "natural_minor"; "dorian"; "mixolydian"].

(** * Results *)

(** A decidable closed statement, settled by evaluating its decision
    procedure. *)
Ltac by_computation := apply (bool_decide_unpack _); vm_compute; exact I.

(** ** Sorting and sets *)

Section Basics.

Implicit Types l s : list Z.

Lemma sortAsc_perm l : sortAsc l ≡ₚ l.
Proof. apply merge_sort_Permutation. Qed.

Lemma sortAsc_sorted l : StronglySorted Z.le (sortAsc l).
Proof. apply (StronglySorted_merge_sort Z.le). Qed.

Lemma sortAsc_length l : length (sortAsc l) = length l.
Proof. by rewrite sortAsc_perm. Qed.

Lemma elem_of_sortAsc l x : x ∈ sortAsc l ↔ x ∈ l.
Proof. by rewrite sortAsc_perm. Qed.

Lemma setAdd_NoDup s x : NoDup s → NoDup (setAdd s x).
Proof.
  intros Hs. unfold setAdd. case_decide; [done|].
  apply NoDup_app. repeat split; [done| |apply NoDup_singleton].
  intros y Hy ->%list_elem_of_singleton. done.
Qed.

Lemma elem_of_setAdd s x y : y ∈ setAdd s x ↔ y ∈ s ∨ y = x.
Proof.
  unfold setAdd. case_decide.
  - split; [auto|]. intros [?| ->]; done.
  - rewrite elem_of_app, list_elem_of_singleton. done.
Qed.

Lemma newSet_from_NoDup s l : NoDup s → NoDup (foldl setAdd s l).
Proof.
  revert s. induction l as [|x l IH]; intros s Hs; simpl; [done|].
  apply IH, setAdd_NoDup, Hs.
Qed.

Lemma elem_of_newSet_from s l y : y ∈ foldl setAdd s l ↔ y ∈ s ∨ y ∈ l.
Proof.
  revert s. induction l as [|x l IH]; intros s; simpl.
  - rewrite elem_of_nil. tauto.
  - rewrite IH, elem_of_setAdd, elem_of_cons. tauto.
Qed.

Lemma newSet_NoDup l : NoDup (newSet l).
Proof. apply newSet_from_NoDup, NoDup_nil_2. Qed.

Lemma elem_of_newSet l y : y ∈ newSet l ↔ y ∈ l.
Proof.
  unfold newSet. rewrite elem_of_newSet_from, elem_of_nil. tauto.
Qed.

(** A duplicate-free list in ascending order is strictly ascending. *)
Lemma sorted_NoDup_strict l :
  StronglySorted Z.le l → NoDup l → StronglySorted Z.lt l.
Proof.
  induction 1 as [|x l Hl IH Hx]; intros Hnd; constructor.
  - apply IH. by apply NoDup_cons in Hnd as [_ ?].
  - apply NoDup_cons in Hnd as [Hin _].
    apply Forall_forall. intros y Hy.
    rewrite Forall_forall in Hx. specialize (Hx y Hy).
    assert (x ≠ y) by (intros ->; done). lia.
Qed.

Lemma strict_NoDup l : StronglySorted Z.lt l → NoDup l.
Proof.
  induction 1 as [|x l Hl IH Hx]; constructor; [|done].
  intros Hin. rewrite Forall_forall in Hx. specialize (Hx x Hin). lia.
Qed.

Lemma strict_shift l (k : Z) :
  StronglySorted Z.lt l → StronglySorted Z.lt (map (λ i, k + i) l).
Proof.
  induction 1 as [|x l Hl IH Hx]; simpl; constructor; [done|].
  apply Forall_fmap. eapply Forall_impl; [exact Hx|]. simpl. lia.
Qed.

Lemma strict_filter (P : Z → Prop) `{∀ x, Decision (P x)} l :
  StronglySorted Z.lt l → StronglySorted Z.lt (filter P l).
Proof.
  induction 1 as [|x l Hl IH Hx]; [constructor|].
  rewrite filter_cons. case_decide; [|done].
  constructor; [done|].
  apply Forall_forall. intros y [_ Hy]%list_elem_of_filter.
  rewrite Forall_forall in Hx. auto.
Qed.

Lemma filter_all (P : Z → Prop) `{∀ x, Decision (P x)} l :
  Forall P l → filter P l = l.
Proof.
  induction 1 as [|x l Hx Hl IH]; [done|].
  rewrite filter_cons. case_decide; [by rewrite IH|done].
Qed.

End Basics.

(** ** Chord generation *)

Lemma elem_of_pushExtensions (acc : list Z) (extensions : list string) i :
  i ∈ pushExtensions acc extensions ↔
  i ∈ acc ∨ ∃ ext, ext ∈ extensions ∧ EXTENSION_INTERVALS !! ext = Some i.
Proof.
  unfold pushExtensions. revert acc.
  induction extensions as [|e exts IH]; intros acc; simpl.
  - split; [auto|]. intros [?|(ext & []%elem_of_nil & _)]. done.
  - rewrite IH. destruct (EXTENSION_INTERVALS !! e) as [k|] eqn:He.
    + rewrite elem_of_app, list_elem_of_singleton. split.
      * intros [[?| ->]|(ext & ? & ?)]; [auto| |].
        -- right. exists e. split; [left|done].
        -- right. exists ext. split; [by right|done].
      * intros [?|(ext & [->|?]%elem_of_cons & Hext)]; [auto| |].
        -- left. right. congruence.
        -- right. eauto.
    + split.
      * intros [?|(ext & ? & ?)]; [auto|].
        right. exists ext. split; [by right|done].
      * intros [?|(ext & [->|?]%elem_of_cons & Hext)]; [auto|congruence|].
        right. eauto.
Qed.

Lemma chordType_known chordType :
  chordType ∈ chordTypeNames →
  ∃ base, CHORD_INTERVALS !! chordType = Some base ∧ length base = 3%nat.
Proof.
  unfold chordTypeNames. rewrite !elem_of_cons, elem_of_nil.
  intros [->|[->|[->|[->|[]]]]]; eexists; split; vm_compute; reflexivity.
Qed.

Lemma chordType_unknown chordType :
  chordType ∉ chordTypeNames → CHORD_INTERVALS !! chordType = None.
Proof.
  intros Hn. apply not_elem_of_list_to_map_1. exact Hn.
Qed.

Lemma extension_known ext :
  ext ∈ extensionNames → is_Some (EXTENSION_INTERVALS !! ext).
Proof.
  unfold extensionNames. rewrite !elem_of_cons, elem_of_nil.
  intros [->|[->|[->|[->|[]]]]]; eexists; vm_compute; reflexivity.
Qed.

(** C1.  For a chord type among Maj, Min, Sus, Dim and extensions taken
    from 6, m7, M7, 9, [generateChord] returns normally.  The intervals it
    uses form the strictly ascending list whose elements are exactly the
    three base intervals of the type together with the single interval of
    each selected extension; the notes returned are those intervals added
    to the root, with the sums outside [0,127] dropped, and they are
    strictly ascending, hence free of duplicates. *)
Theorem generateChord_sorted_union (rootNote : Z) (chordType : string)
    (extensions : list string) :
  chordType ∈ chordTypeNames →
  Forall (λ ext, ext ∈ extensionNames) extensions →
  ∃ base intervals notes,
    CHORD_INTERVALS !! chordType = Some base ∧ length base = 3%nat ∧
    (∀ ext, ext ∈ extensions → is_Some (EXTENSION_INTERVALS !! ext)) ∧
    StronglySorted Z.lt intervals ∧
    (∀ i, i ∈ intervals ↔
          i ∈ base ∨
          ∃ ext, ext ∈ extensions ∧ EXTENSION_INTERVALS !! ext = Some i) ∧
    generateChord rootNote chordType extensions = Ok notes ∧
    notes = filter inMidiRange (map (λ i, rootNote + i) intervals) ∧
    StronglySorted Z.lt notes ∧ NoDup notes.
Proof.
  intros Hty Hexts.
  destruct (chordType_known _ Hty) as (base & Hbase & Hlen).
  set (intervals := sortAsc (newSet (pushExtensions base extensions))).
  assert (Hstrict : StronglySorted Z.lt intervals).
  { apply sorted_NoDup_strict; [apply sortAsc_sorted|].
    unfold intervals. rewrite sortAsc_perm. apply newSet_NoDup. }
  assert (Hnotes : StronglySorted Z.lt
            (filter inMidiRange (map (λ i, rootNote + i) intervals))).
  { apply strict_filter. by apply strict_shift. }
  exists base, intervals, (filter inMidiRange (map (λ i, rootNote + i) intervals)).
  repeat split; try done.
  - intros ext Hext. rewrite Forall_forall in Hexts.
    apply extension_known, Hexts, Hext.
  - unfold intervals.
    rewrite elem_of_sortAsc, elem_of_newSet, elem_of_pushExtensions. done.
  - unfold intervals.
    rewrite elem_of_sortAsc, elem_of_newSet, elem_of_pushExtensions. done.
  - unfold generateChord, get. rewrite Hbase. reflexivity.
  - by apply strict_NoDup.
Qed.

Lemma generateChord_sorted_union_witness :
  ∃ base intervals notes,
    CHORD_INTERVALS !! "Min" = Some base ∧ length base = 3%nat ∧
    (∀ ext, ext ∈ ["m7"; "9"] → is_Some (EXTENSION_INTERVALS !! ext)) ∧
    StronglySorted Z.lt intervals ∧
    (∀ i, i ∈ intervals ↔
          i ∈ base ∨
          ∃ ext, ext ∈ ["m7"; "9"] ∧ EXTENSION_INTERVALS !! ext = Some i) ∧
    generateChord 60 "Min" ["m7"; "9"] = Ok notes ∧
    notes = filter inMidiRange (map (λ i, 60 + i) intervals) ∧
    StronglySorted Z.lt notes ∧ NoDup notes.
Proof.
  apply (generateChord_sorted_union 60 "Min" ["m7"; "9"]).
  - unfold chordTypeNames. by_computation.
  - unfold extensionNames. by_computation.
Defined.

(** C3, counterexample.  With the chord type "Aug" the call throws, while
    the Major chord on the same root is 60, 64, 67. *)
Lemma generateChord_unknown_type_throws_at_Aug :
  generateChord 60 "Aug" [] = Throw TypeError ∧
  generateChord 60 "Maj" [] = Ok [60; 64; 67].
Proof. split; vm_compute; reflexivity. Qed.

(** C3, as amended.  For every root note and extension list,
    [generateChord] with a chord type that is not one of Maj, Min, Sus,
    Dim fails: spreading the missing table entry throws a [TypeError] and
    no chord is returned. *)
Theorem generateChord_unknown_type_throws (rootNote : Z) (chordType : string)
    (extensions : list string) :
  chordType ∉ chordTypeNames →
  generateChord rootNote chordType extensions = Throw TypeError.
Proof.
  intros Hn. unfold generateChord, get.
  rewrite (chordType_unknown _ Hn).
  by case_decide.
Qed.

Lemma generateChord_unknown_type_throws_witness :
  generateChord 60 "Aug" ["m7"] = Throw TypeError.
Proof.
  apply (generateChord_unknown_type_throws 60 "Aug" ["m7"]).
  unfold chordTypeNames. by_computation.
Defined.

(** ** Scale quantisation *)

Lemma scale_unknown scaleType :
  scaleType ∉ scaleNames → SCALE_DEGREES !! scaleType = None.
Proof. intros Hn. apply not_elem_of_list_to_map_1. exact Hn. Qed.

Lemma scale_known scaleType scaleDegrees :
  SCALE_DEGREES !! scaleType = Some scaleDegrees →
  scaleType ∈ scaleNames ∧ scaleDegrees ∈ scaleDegreeArrays.
Proof.
  intros Hs. split.
  - destruct (decide (scaleType ∈ scaleNames)) as [|Hn]; [done|].
    apply scale_unknown in Hn. congruence.
  - unfold scaleDegreeArrays. apply list_elem_of_fmap.
    exists (scaleType, scaleDegrees). split; [done|].
    by apply elem_of_map_to_list.
Qed.

Lemma scale_listed scaleType :
  scaleType ∈ scaleNames → is_Some (SCALE_DEGREES !! scaleType).
Proof.
  unfold scaleNames. rewrite !elem_of_cons, elem_of_nil.
  intros [->|[->|[->|[->|[->|[->|[->|[->|[]]]]]]]]];
    eexists; vm_compute; reflexivity.
Qed.

(** Quantising twice is quantising once, checked on every note, key root
    and degree array. *)
Lemma quantizeInScale_idempotent_all :
  Forall (λ scaleDegrees,
    Forall (λ keyRoot,
      Forall (λ midiNote,
        quantizeInScale (quantizeInScale midiNote keyRoot scaleDegrees)
                        keyRoot scaleDegrees
        = quantizeInScale midiNote keyRoot scaleDegrees)
      (seqZ 0 128))
    (seqZ 0 12))
  scaleDegreeArrays.
Proof. by_computation. Qed.

Lemma quantizeInScale_idempotent midiNote keyRoot scaleDegrees :
  scaleDegrees ∈ scaleDegreeArrays →
  0 ≤ midiNote ≤ 127 → 0 ≤ keyRoot ≤ 11 →
  quantizeInScale (quantizeInScale midiNote keyRoot scaleDegrees)
                  keyRoot scaleDegrees
  = quantizeInScale midiNote keyRoot scaleDegrees.
Proof.
  intros Hd Hn Hr.
  pose proof quantizeInScale_idempotent_all as H.
  rewrite Forall_forall in H. specialize (H _ Hd).
  rewrite Forall_forall in H. specialize (H keyRoot).
  rewrite Forall_forall in H. apply H; apply elem_of_seqZ; lia.
Qed.

(** C4.  [quantizeNoteToKey] is idempotent: for every note of [0,127],
    every scale root of [0,11] and every scale type, feeding the outcome
    of a call back into the function with the same key gives the outcome
    of the first call; for each of the eight scales that outcome is a
    note. *)
Theorem quantizeNoteToKey_idempotent (midiNote keyRoot : Z)
    (scaleType : string) :
  0 ≤ midiNote ≤ 127 → 0 ≤ keyRoot ≤ 11 →
  (quantized ← quantizeNoteToKey midiNote keyRoot scaleType;
   quantizeNoteToKey quantized keyRoot scaleType)
  = quantizeNoteToKey midiNote keyRoot scaleType
  ∧ (scaleType ∈ scaleNames →
     ∃ quantized,
       quantizeNoteToKey midiNote keyRoot scaleType = Ok quantized ∧
       quantizeNoteToKey quantized keyRoot scaleType = Ok quantized).
Proof.
  intros Hn Hr. unfold quantizeNoteToKey, get.
  destruct (SCALE_DEGREES !! scaleType) as [scaleDegrees|] eqn:Hs.
  - apply scale_known in Hs as [_ Hd].
    pose proof (quantizeInScale_idempotent _ _ _ Hd Hn Hr) as Hq.
    simpl. rewrite Hq. split; [done|]. intros _.
    eexists. split; [reflexivity|]. by rewrite Hq.
  - split; [by case_decide|].
    intros Hin. apply scale_listed in Hin as [? ?]. congruence.
Qed.

Lemma quantizeNoteToKey_idempotent_witness :
  (quantized ← quantizeNoteToKey 61 0 "major";
   quantizeNoteToKey quantized 0 "major")
  = quantizeNoteToKey 61 0 "major"
  ∧ ("major" ∈ scaleNames →
     ∃ quantized,
       quantizeNoteToKey 61 0 "major" = Ok quantized ∧
       quantizeNoteToKey quantized 0 "major" = Ok quantized).
Proof. apply (quantizeNoteToKey_idempotent 61 0 "major"); lia. Defined.

(** A scale type that names no property of [SCALE_DEGREES], own or
    inherited, leaves the note unchanged. *)
Lemma quantizeNoteToKey_no_property (midiNote keyRoot : Z)
    (scaleType : string) :
  scaleType ∉ scaleNames →
  scaleType ∉ object_prototype_props →
  quantizeNoteToKey midiNote keyRoot scaleType = Ok midiNote.
Proof.
  intros Hn Hp. unfold quantizeNoteToKey, get.
  rewrite (scale_unknown _ Hn). by case_decide.
Qed.

(** C10, at the failing input.  "constructor" is not one of the eight
    scale names, yet [SCALE_DEGREES["constructor"]] is the inherited
    [Object] function: it passes the [!scaleDegrees] guard and the call
    throws instead of returning the note 60. *)
Theorem quantizeNoteToKey_inherited_name_throws :
  ("constructor" ∉ scaleNames) ∧
  quantizeNoteToKey 60 0 "constructor" = Throw TypeError.
Proof. split; [by_computation|vm_compute; reflexivity]. Qed.

(** ** Bass voicing *)

(** C9.  For every root note and every octave shift (those of [-2,2]
    included), [applyBassVoicing] returns [root + 12 * shift] clamped into
    [24,60]: the result lies in that band, equals the unclamped value when
    that value is in the band, and is the nearer bound otherwise. *)
Theorem applyBassVoicing_clamped (rootNote bassOctave : Z) :
  let unclamped := rootNote + 12 * bassOctave in
  24 ≤ applyBassVoicing rootNote bassOctave ≤ 60 ∧
  (unclamped < 24 → applyBassVoicing rootNote bassOctave = 24) ∧
  (24 ≤ unclamped ≤ 60 → applyBassVoicing rootNote bassOctave = unclamped) ∧
  (60 < unclamped → applyBassVoicing rootNote bassOctave = 60).
Proof. unfold applyBassVoicing. cbv zeta. lia. Qed.

(** ** Voicing *)

Section Voicing.

Implicit Types notes result : list Z.

Lemma pitchClass_octave_up note : pitchClass (note + 12) = pitchClass note.
Proof.
  unfold pitchClass. replace (note + 12) with (note + 1 * 12) by lia.
  apply Z_mod_plus_full.
Qed.

Lemma pitchClass_octave_down note : pitchClass (note - 12) = pitchClass note.
Proof.
  unfold pitchClass. replace (note - 12) with (note + (-1) * 12) by lia.
  apply Z_mod_plus_full.
Qed.

Lemma last_split result highest :
  last result = Some highest →
  result = take (length result - 1) result ++ [highest].
Proof.
  intros Hl. destruct result as [|x l _] using rev_ind; [done|].
  rewrite last_snoc in Hl. injection Hl as ->.
  rewrite length_app. simpl.
  replace (length l + 1 - 1)%nat with (length l) by lia.
  by rewrite take_app_length.
Qed.

(** One pass moves one note by an octave and reorders: the pitch classes
    are the same, as a multiset. *)
Lemma voicingStep_pitchClasses position result :
  pitchClass <$> voicingStep position result ≡ₚ pitchClass <$> result.
Proof.
  unfold voicingStep. repeat case_decide; [| |done].
  - destruct result as [|lowest rest]; [done|].
    rewrite sortAsc_perm, fmap_app. simpl.
    rewrite pitchClass_octave_up.
    by rewrite <- Permutation_cons_append.
  - destruct (last result) as [highest|] eqn:Hl.
    + rewrite sortAsc_perm. simpl. rewrite pitchClass_octave_down.
      pose proof (last_split _ _ Hl) as Hsplit.
      set (init := take (length result - 1) result) in *.
      rewrite Hsplit, fmap_app. simpl.
      by rewrite <- Permutation_cons_append.
    + apply last_None in Hl. by subst.
Qed.

Lemma voicingStep_length position result :
  length (voicingStep position result) = length result.
Proof.
  unfold voicingStep. repeat case_decide; [| |done].
  - destruct result as [|lowest rest]; [done|].
    rewrite sortAsc_length, length_app. simpl. lia.
  - destruct (last result) as [highest|] eqn:Hl.
    + rewrite sortAsc_length. simpl. rewrite length_take.
      apply last_split in Hl. rewrite Hl, length_app. simpl. lia.
    + apply last_None in Hl. by subst.
Qed.

Lemma voicingLoop_pitchClasses i position result :
  pitchClass <$> voicingLoop i position result ≡ₚ pitchClass <$> result.
Proof.
  unfold voicingLoop. induction i as [|i IH]; simpl; [done|].
  by rewrite voicingStep_pitchClasses.
Qed.

(** The loop never empties the array, so [shift] and [pop] always find a
    note. *)
Lemma voicingLoop_length i position result :
  length (voicingLoop i position result) = length result.
Proof.
  unfold voicingLoop. induction i as [|i IH]; simpl; [done|].
  by rewrite voicingStep_length.
Qed.

Lemma staysInRange_last notes position :
  staysInRange notes position →
  Forall inMidiRange
    (voicingLoop (Z.to_nat (Z.abs position)) position (sortAsc notes)).
Proof.
  unfold staysInRange. rewrite Forall_forall. intros H. apply H.
  apply elem_of_seq. lia.
Qed.

(** When nothing leaves the range, [applyVoicing] keeps the pitch-class
    multiset. *)
Lemma applyVoicing_pitchClasses notes position :
  staysInRange notes position →
  pitchClass <$> applyVoicing notes position ≡ₚ pitchClass <$> notes.
Proof.
  intros Hin. unfold applyVoicing. case_decide; [done|].
  rewrite filter_all by (by apply staysInRange_last).
  by rewrite voicingLoop_pitchClasses, sortAsc_perm.
Qed.

(** C5.  For every position [n] of [-4,4] and every note list whose
    arrays stay within [0,127] through every pass of both applications,
    [applyVoicing (applyVoicing notes n) (-n)] has the same multiset of
    pitch classes (and so the same number of notes) as [notes]. *)
Theorem applyVoicing_round_trip_pitchClasses notes (n : Z) :
  -4 ≤ n ≤ 4 →
  staysInRange notes n →
  staysInRange (applyVoicing notes n) (- n) →
  pitchClass <$> applyVoicing (applyVoicing notes n) (- n)
    ≡ₚ pitchClass <$> notes
  ∧ length (applyVoicing (applyVoicing notes n) (- n)) = length notes.
Proof.
  intros _ H1 H2.
  assert (pitchClass <$> applyVoicing (applyVoicing notes n) (- n)
            ≡ₚ pitchClass <$> notes) as Hp.
  { rewrite (applyVoicing_pitchClasses _ _ H2).
    apply (applyVoicing_pitchClasses _ _ H1). }
  split; [done|].
  apply Permutation_length in Hp. by rewrite !length_fmap in Hp.
Qed.

Lemma applyVoicing_round_trip_pitchClasses_witness :
  pitchClass <$> applyVoicing (applyVoicing [60; 64; 80] 1) (- 1)
    ≡ₚ pitchClass <$> [60; 64; 80]
  ∧ length (applyVoicing (applyVoicing [60; 64; 80] 1) (- 1))
    = length [60; 64; 80].
Proof.
  apply (applyVoicing_round_trip_pitchClasses [60; 64; 80] 1).
  - lia.
  - by_computation.
  - by_computation.
Defined.

End Voicing.

(** ** Strum *)

Section Strum.

Variable mathRandom : nat → float.

(** With slop 0 and no octave doubling, the events are the sorted notes,
    the [index]-th delayed by [index * delayPerNote]. *)
Lemma generateStrum_default notes dialPosition velocity :
  generateStrum mathRandom notes dialPosition velocity defaultStrumOptions
  = imap (λ index note,
            {| note := note; velocity := velocity;
               delayMs := (Num.of_nat index * delayPerNote dialPosition)%float;
               durationMs := None;
               channel := MIDI_CHANNELS.PERFORMANCE |})
         (sortAsc notes).
Proof. reflexivity. Qed.

(** The gap stays between 10 ms and 100 ms on every integer dial
    position. *)
Lemma delayPerNote_bounds_all :
  Forall (λ dial,
            PrimFloat.leb 10 (delayPerNote (Num.of_Z dial)) = true ∧
            PrimFloat.leb (delayPerNote (Num.of_Z dial)) 100 = true)
         (seqZ 0 128).
Proof. by_computation. Qed.

(** C7.  For every non-empty note list, velocity and integer dial
    position of [0,127], [generateStrum] with slop 0 and without
    two-octave mode returns one event per note; the notes of the events
    are the given notes in ascending order, and the [i]-th event has a
    delay of exactly [i] times the gap [10 + ((127 - dial) / 127) * 90]
    milliseconds.  The gap lies between 10 and 100; it is the minimum 10
    at dial 127 and the maximum 100 at dial 0. *)
Theorem generateStrum_linear_delays (notes : list Z) (vel dial : Z) :
  notes ≠ [] →
  0 ≤ dial ≤ 127 →
  let gap := (10 + ((127 - Num.of_Z dial) / 127) * 90)%float in
  let events :=
    generateStrum mathRandom notes (Num.of_Z dial) vel defaultStrumOptions in
  length events = length notes ∧
  note <$> events ≡ₚ notes ∧
  StronglySorted Z.le (note <$> events) ∧
  (∀ (i : nat) event,
     events !! i = Some event →
     delayMs event = (Num.of_nat i * gap)%float ∧
     velocity event = vel ∧
     durationMs event = None ∧
     channel event = MIDI_CHANNELS.PERFORMANCE) ∧
  PrimFloat.leb 10 gap = true ∧ PrimFloat.leb gap 100 = true ∧
  delayPerNote (Num.of_Z 127) = 10%float ∧
  delayPerNote (Num.of_Z 0) = 100%float.
Proof.
  intros _ Hdial gap events.
  assert (Hgap : gap = delayPerNote (Num.of_Z dial)) by reflexivity.
  assert (Hnotes : note <$> events = sortAsc notes).
  { unfold events. rewrite generateStrum_default, fmap_imap.
    unfold compose. simpl.
    by rewrite (imap_const (λ x : Z, x)), list_fmap_id. }
  split; [by rewrite <- (length_fmap note), Hnotes, sortAsc_length|].
  rewrite Hnotes.
  split; [apply sortAsc_perm|].
  split; [apply sortAsc_sorted|].
  split.
  { intros i event. unfold events.
    rewrite generateStrum_default, list_lookup_imap.
    destruct (sortAsc notes !! i) as [n|]; simpl; [|done].
    intros [= <-]. simpl. by rewrite Hgap. }
  pose proof delayPerNote_bounds_all as Hb.
  rewrite Forall_forall in Hb.
  destruct (Hb dial) as [Hlo Hhi]; [apply elem_of_seqZ; lia|].
  rewrite Hgap.
  repeat split; try done; vm_compute; reflexivity.
Qed.

End Strum.

Lemma generateStrum_linear_delays_witness :
  let gap := (10 + ((127 - Num.of_Z 64) / 127) * 90)%float in
  let events :=
    generateStrum (λ _, 0.5%float) [67; 60; 64] (Num.of_Z 64) 100
      defaultStrumOptions in
  length events = length [67; 60; 64] ∧
  note <$> events ≡ₚ [67; 60; 64] ∧
  StronglySorted Z.le (note <$> events) ∧
  (∀ (i : nat) event,
     events !! i = Some event →
     delayMs event = (Num.of_nat i * gap)%float ∧
     velocity event = 100 ∧
     durationMs event = None ∧
     channel event = MIDI_CHANNELS.PERFORMANCE) ∧
  PrimFloat.leb 10 gap = true ∧ PrimFloat.leb gap 100 = true ∧
  delayPerNote (Num.of_Z 127) = 10%float ∧
  delayPerNote (Num.of_Z 0) = 100%float.
Proof.
  apply (generateStrum_linear_delays (λ _, 0.5%float) [67; 60; 64] 100 64);
    [done|lia].
Defined.

(** ** Arpeggio order *)

Section Arp.

Variable randomIndex : nat → nat.

Lemma slice_1_m1_interior {A} (lowest highest : A) (interior : list A) :
  slice_1_m1 (lowest :: interior ++ [highest]) = interior.
Proof.
  unfold slice_1_m1. simpl. rewrite length_app. simpl.
  replace (length interior + 1 - 0 - 1)%nat with (length interior) by lia.
  rewrite drop_0. by rewrite take_app_length.
Qed.

(** A list of two or more elements has a first, a last and what lies
    between. *)
Lemma two_or_more_split {A} (l : list A) :
  (2 ≤ length l)%nat →
  ∃ lowest interior highest, l = lowest :: interior ++ [highest].
Proof.
  intros Hlen. destruct l as [|lowest rest]; [simpl in Hlen; lia|].
  destruct rest as [|x rest _] using rev_ind; [simpl in Hlen; lia|].
  by exists lowest, rest, x.
Qed.

(** C8.  [applyArpPattern] with pattern "upDown" orders [60,64,67] as
    [60,64,67,64]; for every note list of length at least 2 its result is
    the notes in ascending order, from the lowest through the interior to
    the highest, followed by the interior reversed, so that neither the
    lowest nor the highest endpoint is repeated. *)
Theorem applyArpPattern_upDown (notes : list Z) :
  (2 ≤ length notes)%nat →
  applyArpPattern randomIndex [60; 64; 67] "upDown" = [60; 64; 67; 64] ∧
  ∃ lowest interior highest,
    lowest :: interior ++ [highest] ≡ₚ notes ∧
    StronglySorted Z.le (lowest :: interior ++ [highest]) ∧
    applyArpPattern randomIndex notes "upDown"
    = (lowest :: interior ++ [highest]) ++ reverse interior ∧
    length (applyArpPattern randomIndex notes "upDown")
    = (2 * length notes - 2)%nat.
Proof.
  intros Hlen. split; [vm_compute; reflexivity|].
  destruct (two_or_more_split (sortAsc notes)) as (lo & mid & hi & Hs);
    [by rewrite sortAsc_length|].
  exists lo, mid, hi.
  split; [rewrite <- Hs; apply sortAsc_perm|].
  split; [rewrite <- Hs; apply sortAsc_sorted|].
  assert (applyArpPattern randomIndex notes "upDown"
          = (lo :: mid ++ [hi]) ++ reverse mid) as ->.
  { unfold applyArpPattern. simpl. rewrite Hs.
    rewrite decide_False by (rewrite length_cons, length_app; simpl; lia).
    by rewrite slice_1_m1_interior. }
  split; [done|].
  rewrite <- (sortAsc_length notes), Hs.
  rewrite !length_app, length_reverse. simpl. rewrite length_app. simpl. lia.
Qed.

End Arp.

Lemma applyArpPattern_upDown_witness :
  applyArpPattern (λ _, 0%nat) [60; 64; 67] "upDown" = [60; 64; 67; 64] ∧
  ∃ lowest interior highest,
    lowest :: interior ++ [highest] ≡ₚ [72; 60; 67; 64] ∧
    StronglySorted Z.le (lowest :: interior ++ [highest]) ∧
    applyArpPattern (λ _, 0%nat) [72; 60; 67; 64] "upDown"
    = (lowest :: interior ++ [highest]) ++ reverse interior ∧
    length (applyArpPattern (λ _, 0%nat) [72; 60; 67; 64] "upDown")
    = (2 * length [72; 60; 67; 64] - 2)%nat.
Proof.
  apply (applyArpPattern_upDown (λ _, 0%nat) [72; 60; 67; 64]). simpl. lia.
Defined.

(** ** The active-note registry *)

Section Registry.

Import OrchardMIDI.

Implicit Types this : OrchardMIDI.t.

Lemma elem_of_setDelete (s : list Z) x y : y ∈ setDelete s x ↔ y ∈ s ∧ y ≠ x.
Proof. unfold setDelete. rewrite list_elem_of_filter. tauto. Qed.

Lemma elem_of_setDelete_all (s l : list Z) y :
  y ∈ foldl setDelete s l ↔ y ∈ s ∧ y ∉ l.
Proof.
  revert s. induction l as [|x l IH]; intros s; simpl.
  - rewrite elem_of_nil. tauto.
  - rewrite IH, elem_of_setDelete, not_elem_of_cons. tauto.
Qed.

(** Deleting from a set every note it holds leaves it empty. *)
Lemma setDelete_all_self (s : list Z) : foldl setDelete s s = [].
Proof.
  destruct (foldl setDelete s s) as [|y l] eqn:E; [done|].
  assert (y ∈ foldl setDelete s s) as Hy by (rewrite E; left).
  apply elem_of_setDelete_all in Hy as [? ?]. done.
Qed.

(** With no output selected [noteOff] does nothing, and so does the whole
    loop. *)
Lemma forEachNoteOff_no_output this channel active :
  output this = None → forEachNoteOff this channel active = Ok this.
Proof.
  intros Hout. unfold forEachNoteOff.
  induction active as [|note active IH]; simpl; [done|].
  unfold noteOff at 2. by rewrite Hout.
Qed.

(** With an output selected the loop sends one note-off per visited note,
    in order, and deletes each from the channel's set. *)
Lemma forEachNoteOff_output channel port active :
  ∀ this set,
    output this = Some port →
    activeNotes this !! channel = Some set →
    forEachNoteOff this channel active
    = Ok {| output := Some port;
            activeNotes :=
              <[channel := foldl setDelete set active]> (activeNotes this);
            sent := sent this
                    ++ ((λ note, (port, noteOffMessage channel note)) <$> active) |}.
Proof.
  unfold forEachNoteOff.
  induction active as [|note active IH]; intros this set Hout Hset; simpl.
  - destruct this as [o a s]. simpl in *. subst o.
    by rewrite app_nil_r, insert_id.
  - unfold noteOff at 2. rewrite Hout. simpl. rewrite Hset.
    rewrite (IH _ (setDelete set note)); simpl.
    + f_equal. f_equal; [by rewrite insert_insert_eq|].
      by rewrite <- app_assoc.
    + done.
    + by rewrite lookup_insert_eq.
Qed.

(** C2, counterexample.  An output is selected, note 60 is started on
    channel 0, the output is deselected: [allNotesOff(0)] then sends
    nothing and the registry of channel 0 still holds 60. *)
Lemma allNotesOff_without_output_keeps_registry :
  ∃ started deselected after,
    noteOn (selectOutput constructor (Some 0%nat)) 0 60 100 = Ok started ∧
    selectOutput started None = deselected ∧
    allNotesOff deselected 0 = Ok after ∧
    activeNotes deselected !! 0 = Some [60] ∧
    activeNotes after !! 0 = Some [60] ∧
    sent after = sent deselected.
Proof. do 3 eexists. repeat split; vm_compute; reflexivity. Qed.

(** C2, as amended.  For every channel, when an output is selected and the
    channel has a registry, [allNotesOff] returns after sending one
    note-off message for every note of that registry, in registry order
    and whatever started the note, and the registry is empty immediately
    afterwards while the other channels keep theirs.  In every other case
    (no output selected, or a channel without registry) it sends nothing
    and leaves every registry as it was. *)
Theorem allNotesOff_empties_when_output_selected this (channel : Z) :
  match output this, activeNotes this !! channel with
  | Some port, Some active =>
      ∃ after,
        allNotesOff this channel = Ok after ∧
        sent after
        = sent this ++ ((λ note, (port, noteOffMessage channel note)) <$> active) ∧
        activeNotes after !! channel = Some [] ∧
        (∀ other, other ≠ channel →
                  activeNotes after !! other = activeNotes this !! other) ∧
        output after = Some port
  | _, _ => allNotesOff this channel = Ok this
  end.
Proof.
  unfold allNotesOff.
  destruct (output this) as [port|] eqn:Hout;
    destruct (activeNotes this !! channel) as [active|] eqn:Hact; try done.
  - rewrite (forEachNoteOff_output _ port _ _ active Hout Hact).
    eexists. split; [done|]. simpl.
    rewrite setDelete_all_self, lookup_insert_eq.
    repeat split; try done.
    intros other Hne. by rewrite lookup_insert_ne.
  - by apply forEachNoteOff_no_output.
Qed.

End Registry.

(** ** Quantised notes from press to release *)

Section Lifecycle.

Import OrchardEngine.

Variable updateOutputWithOptions : t → Z → option Z → option string → result t.
Variable stopOutput : t → result t.

Implicit Types this later : OrchardEngine.t.

Import MIDI_CHANNELS.

(** What [noteOn] does on a registered channel. *)
Lemma noteOn_registered (m : OrchardMIDI.t) channel note velocity :
  is_Some (OrchardMIDI.activeNotes m !! channel) →
  ∃ m',
    OrchardMIDI.noteOn m channel note velocity = Ok m' ∧
    is_Some (OrchardMIDI.activeNotes m' !! channel) ∧
    OrchardMIDI.output m' = OrchardMIDI.output m ∧
    OrchardMIDI.sent m'
    = OrchardMIDI.sent m
      ++ match OrchardMIDI.output m with
         | Some port => [(port, noteOnMessage channel note velocity)]
         | None => []
         end.
Proof.
  intros [active Hact]. unfold OrchardMIDI.noteOn.
  destruct (OrchardMIDI.output m) as [port|] eqn:Hout; simpl.
  - rewrite Hact. eexists. split; [done|]. simpl.
    rewrite lookup_insert_eq. eauto.
  - exists m. rewrite app_nil_r, Hact. eauto.
Qed.

Lemma noteOff_registered (m : OrchardMIDI.t) channel note :
  is_Some (OrchardMIDI.activeNotes m !! channel) →
  ∃ m',
    OrchardMIDI.noteOff m channel note = Ok m' ∧
    is_Some (OrchardMIDI.activeNotes m' !! channel) ∧
    OrchardMIDI.output m' = OrchardMIDI.output m ∧
    OrchardMIDI.sent m'
    = OrchardMIDI.sent m
      ++ match OrchardMIDI.output m with
         | Some port => [(port, noteOffMessage channel note)]
         | None => []
         end.
Proof.
  intros [active Hact]. unfold OrchardMIDI.noteOff.
  destruct (OrchardMIDI.output m) as [port|] eqn:Hout; simpl.
  - rewrite Hact. eexists. split; [done|]. simpl.
    rewrite lookup_insert_eq. eauto.
  - exists m. rewrite app_nil_r, Hact. eauto.
Qed.

(** Note-on in quantize mode. *)
Lemma onMIDINoteOn_quantize this midiNote velocity quantized :
  getModeForNote this midiNote = "quantize" →
  quantizeNoteToKey midiNote
    (KeySettings.root (Settings.quantize (getEffectiveSettings this midiNote)))
    (KeySettings.scale (Settings.quantize (getEffectiveSettings this midiNote)))
  = Ok quantized →
  is_Some (OrchardMIDI.activeNotes (midi this) !! CHORD) →
  ∃ pressed,
    onMIDINoteOn updateOutputWithOptions this midiNote velocity = Ok pressed ∧
    OrchardMIDI.noteOn (midi this) CHORD quantized velocity
    = Ok (midi pressed) ∧
    State.passThroughNotes (state pressed)
    = setAdd (State.passThroughNotes (state this)) midiNote ∧
    State.quantizedNoteMap (state pressed)
    = Some (<[midiNote := quantized]>
              (default ∅ (State.quantizedNoteMap (state this)))).
Proof.
  intros Hmode Hq Hreg. unfold onMIDINoteOn. rewrite Hmode.
  rewrite decide_False by done. rewrite decide_True by done.
  rewrite Hq. simpl.
  destruct (noteOn_registered (midi this) CHORD quantized velocity Hreg)
    as (m' & Hon & _).
  rewrite Hon. simpl. eexists. split; [done|]. simpl. done.
Qed.

(** Note-off of a pressed note whose entry is recorded. *)
Lemma onMIDINoteOff_quantized later midiNote quantized :
  midiNote ∈ State.passThroughNotes (state later) →
  sentFor later midiNote = Some quantized →
  is_Some (OrchardMIDI.activeNotes (midi later) !! CHORD) →
  ∃ released,
    onMIDINoteOff stopOutput later midiNote = Ok released ∧
    OrchardMIDI.noteOff (midi later) CHORD quantized = Ok (midi released) ∧
    State.passThroughNotes (state released)
    = setDelete (State.passThroughNotes (state later)) midiNote ∧
    State.quantizedNoteMap (state released)
    = delete midiNote <$> State.quantizedNoteMap (state later).
Proof.
  intros Hin Hsent Hreg. unfold onMIDINoteOff.
  rewrite decide_True by done. simpl.
  unfold sentFor in Hsent. rewrite Hsent.
  destruct (noteOff_registered (midi later) CHORD quantized Hreg)
    as (m' & Hoff & _).
  rewrite Hoff. simpl. eexists. split; [done|]. simpl. done.
Qed.

(** The press and the release of a quantised note, as long as the entry
    of the press is still recorded.  When a note is pressed while its
    effective mode is Quantize and quantisation yields a note, the engine
    passes that quantised note (not the pressed one) to the MIDI note-on,
    which sends it on the chord channel to the selected output, and
    records the pressed note together with the entry from the pressed
    note to the quantised note.  On the note-off of the pressed note, in
    every later state that still holds the entry (the state right after
    the press is one), the engine passes exactly that quantised note to
    the MIDI note-off, which sends its single note-off message, and the
    entry and the pressed note are removed.  A second press of the same
    key replaces the entry; what happens then is shown below. *)
Lemma quantized_note_released_as_sent this (midiNote velocity quantized : Z) :
  getModeForNote this midiNote = "quantize" →
  quantizeNoteToKey midiNote
    (KeySettings.root (Settings.quantize (getEffectiveSettings this midiNote)))
    (KeySettings.scale (Settings.quantize (getEffectiveSettings this midiNote)))
  = Ok quantized →
  is_Some (OrchardMIDI.activeNotes (midi this) !! CHORD) →
  ∃ pressed,
    onMIDINoteOn updateOutputWithOptions this midiNote velocity = Ok pressed ∧
    OrchardMIDI.noteOn (midi this) CHORD quantized velocity
    = Ok (midi pressed) ∧
    OrchardMIDI.sent (midi pressed)
    = OrchardMIDI.sent (midi this)
      ++ match OrchardMIDI.output (midi this) with
         | Some port => [(port, noteOnMessage CHORD quantized velocity)]
         | None => []
         end ∧
    midiNote ∈ State.passThroughNotes (state pressed) ∧
    sentFor pressed midiNote = Some quantized ∧
    is_Some (OrchardMIDI.activeNotes (midi pressed) !! CHORD) ∧
    ∀ later,
      midiNote ∈ State.passThroughNotes (state later) →
      sentFor later midiNote = Some quantized →
      is_Some (OrchardMIDI.activeNotes (midi later) !! CHORD) →
      ∃ released,
        onMIDINoteOff stopOutput later midiNote = Ok released ∧
        OrchardMIDI.noteOff (midi later) CHORD quantized
        = Ok (midi released) ∧
        OrchardMIDI.sent (midi released)
        = OrchardMIDI.sent (midi later)
          ++ match OrchardMIDI.output (midi later) with
             | Some port => [(port, noteOffMessage CHORD quantized)]
             | None => []
             end ∧
        sentFor released midiNote = None ∧
        midiNote ∉ State.passThroughNotes (state released).
Proof.
  intros Hmode Hq Hreg.
  destruct (onMIDINoteOn_quantize this midiNote velocity quantized Hmode Hq Hreg)
    as (pressed & Hon & Hmidi & Hpass & Hmap).
  destruct (noteOn_registered (midi this) CHORD quantized velocity Hreg)
    as (m' & Hon' & Hreg' & _ & Hsent').
  assert (m' = midi pressed) as -> by congruence.
  exists pressed. repeat split; try done.
  - rewrite Hpass. apply elem_of_setAdd. by right.
  - unfold sentFor. rewrite Hmap. simpl. by rewrite lookup_insert_eq.
  - intros later Hin Hsent Hlreg.
    destruct (onMIDINoteOff_quantized later midiNote quantized Hin Hsent Hlreg)
      as (released & Hoff & Hmidi2 & Hpass2 & Hmap2).
    destruct (noteOff_registered (midi later) CHORD quantized Hlreg)
      as (m2 & Hoff' & _ & _ & Hsent2).
    assert (m2 = midi released) as -> by congruence.
    exists released. repeat split; try done.
    + unfold sentFor. rewrite Hmap2.
      destruct (State.quantizedNoteMap (state later)); simpl; [|done].
      by rewrite lookup_delete_eq.
    + rewrite Hpass2. rewrite elem_of_setDelete. tauto.
Qed.

(** Presses of other keys that take the pass-through or the quantize
    branch, and releases of other pass-through keys, leave the entry of
    [midiNote] as it is: it is still there when the matching note-off
    arrives. *)
Lemma other_key_press_keeps_entry this other velocity pressed midiNote :
  other ≠ midiNote →
  getModeForNote this other = "off" ∨ getModeForNote this other = "quantize" →
  onMIDINoteOn updateOutputWithOptions this other velocity = Ok pressed →
  (midiNote ∈ State.passThroughNotes (state pressed)
   ↔ midiNote ∈ State.passThroughNotes (state this)) ∧
  sentFor pressed midiNote = sentFor this midiNote.
Proof.
  intros Hne Hmode. unfold onMIDINoteOn, sentFor.
  destruct Hmode as [-> | ->].
  - rewrite decide_True by done. simpl.
    destruct (OrchardMIDI.noteOn _ _ _ _) as [m|]; simpl; [|done].
    intros [= <-]. simpl. rewrite elem_of_setAdd. split; [|done].
    split; [|tauto]. intros [?|?]; [done|congruence].
  - rewrite decide_False by done. rewrite decide_True by done.
    destruct (quantizeNoteToKey _ _ _) as [q|]; simpl; [|done].
    destruct (OrchardMIDI.noteOn _ _ _ _) as [m|]; simpl; [|done].
    intros [= <-]. simpl. rewrite elem_of_setAdd. split.
    + split; [|tauto]. intros [?|?]; [done|congruence].
    + rewrite lookup_insert_ne by done.
      by destruct (State.quantizedNoteMap (state this)).
Qed.

Lemma other_key_release_keeps_entry this other released midiNote :
  other ≠ midiNote →
  other ∈ State.passThroughNotes (state this) →
  onMIDINoteOff stopOutput this other = Ok released →
  (midiNote ∈ State.passThroughNotes (state released)
   ↔ midiNote ∈ State.passThroughNotes (state this)) ∧
  sentFor released midiNote = sentFor this midiNote.
Proof.
  intros Hne Hin. unfold onMIDINoteOff, sentFor.
  rewrite decide_True by done. simpl.
  destruct (State.quantizedNoteMap (state this) ≫= _) as [q|] eqn:Hq.
  - destruct (OrchardMIDI.noteOff _ _ _) as [m|]; simpl; [|done].
    intros [= <-]. simpl. rewrite elem_of_setDelete. split.
    + split; [tauto|]. intros ?. split; [done|congruence].
    + destruct (State.quantizedNoteMap (state this)); simpl; [|done].
      by rewrite lookup_delete_ne.
  - destruct (OrchardMIDI.noteOff _ _ _) as [m|]; simpl; [|done].
    intros [= <-]. simpl. rewrite elem_of_setDelete. split; [|done].
    split; [tauto|]. intros ?. split; [done|congruence].
Qed.

End Lifecycle.

Lemma quantized_note_released_as_sent_witness :
  let upd := λ this (_ : Z) (_ : option Z) (_ : option string), Ok this in
  let stop := λ this : OrchardEngine.t, Ok this in
  let this := quantizingEngine in
  ∃ pressed,
    OrchardEngine.onMIDINoteOn upd this 49 100 = Ok pressed ∧
    OrchardMIDI.noteOn (OrchardEngine.midi this) MIDI_CHANNELS.CHORD 48 100
    = Ok (OrchardEngine.midi pressed) ∧
    OrchardMIDI.sent (OrchardEngine.midi pressed)
    = OrchardMIDI.sent (OrchardEngine.midi this)
      ++ match OrchardMIDI.output (OrchardEngine.midi this) with
         | Some port => [(port, noteOnMessage MIDI_CHANNELS.CHORD 48 100)]
         | None => []
         end ∧
    49 ∈ State.passThroughNotes (OrchardEngine.state pressed) ∧
    sentFor pressed 49 = Some 48 ∧
    is_Some (OrchardMIDI.activeNotes (OrchardEngine.midi pressed)
               !! MIDI_CHANNELS.CHORD) ∧
    ∀ later,
      49 ∈ State.passThroughNotes (OrchardEngine.state later) →
      sentFor later 49 = Some 48 →
      is_Some (OrchardMIDI.activeNotes (OrchardEngine.midi later)
                 !! MIDI_CHANNELS.CHORD) →
      ∃ released,
        OrchardEngine.onMIDINoteOff stop later 49 = Ok released ∧
        OrchardMIDI.noteOff (OrchardEngine.midi later) MIDI_CHANNELS.CHORD 48
        = Ok (OrchardEngine.midi released) ∧
        OrchardMIDI.sent (OrchardEngine.midi released)
        = OrchardMIDI.sent (OrchardEngine.midi later)
          ++ match OrchardMIDI.output (OrchardEngine.midi later) with
             | Some port => [(port, noteOffMessage MIDI_CHANNELS.CHORD 48)]
             | None => []
             end ∧
        sentFor released 49 = None ∧
        49 ∉ State.passThroughNotes (OrchardEngine.state released).
Proof.
  apply (quantized_note_released_as_sent
           (λ this (_ : Z) (_ : option Z) (_ : option string), Ok this)
           (λ this : OrchardEngine.t, Ok this)
           quantizingEngine 49 100 48).
  - vm_compute. reflexivity.
  - vm_compute. reflexivity.
  - exists []. vm_compute. reflexivity.
Defined.

(** C6.  The note-off of a quantised press does not always release the
    note that was sent.  [quantizedNoteMap] holds one entry per pressed
    key, and a second press of a key that is still held replaces the
    entry without releasing the note of the first press.  Key 49 is
    pressed in the lower zone, quantising to C major: note 48 is sent.
    The zone's root is changed to D, and key 49 is pressed again (from
    the computer keyboard, say): note 49 is sent and the entry now
    names 49.  The first note-off of key 49 releases 49 and removes the
    entry and the key; the second finds the key gone and sends nothing.
    Note 48 never gets a note-off and stays in the registry of the chord
    channel.  This holds whatever the chord-generation path does. *)
Theorem quantized_repress_strands_sent_note
    (updateOutputWithOptions :
       OrchardEngine.t → Z → option Z → option string
       → result OrchardEngine.t)
    (stopOutput : OrchardEngine.t → result OrchardEngine.t) :
  ∃ first second released again,
    OrchardEngine.onMIDINoteOn updateOutputWithOptions quantizingEngine
      49 100 = Ok first ∧
    sentFor first 49 = Some 48 ∧
    OrchardMIDI.sent (OrchardEngine.midi first)
    = [(0%nat, noteOnMessage MIDI_CHANNELS.CHORD 48 100)] ∧
    OrchardEngine.onMIDINoteOn updateOutputWithOptions
      (updateLowerKeySettings first 2 "major" false false) 49 100
    = Ok second ∧
    sentFor second 49 = Some 49 ∧
    OrchardMIDI.activeNotes (OrchardEngine.midi second)
      !! MIDI_CHANNELS.CHORD = Some [48; 49] ∧
    OrchardEngine.onMIDINoteOff stopOutput second 49 = Ok released ∧
    sentFor released 49 = None ∧
    State.passThroughNotes (OrchardEngine.state released) = [] ∧
    OrchardEngine.onMIDINoteOff stopOutput released 49 = Ok again ∧
    again = released ∧
    OrchardMIDI.sent (OrchardEngine.midi again)
    = [(0%nat, noteOnMessage MIDI_CHANNELS.CHORD 48 100);
       (0%nat, noteOnMessage MIDI_CHANNELS.CHORD 49 100);
       (0%nat, noteOffMessage MIDI_CHANNELS.CHORD 49)] ∧
    OrchardMIDI.activeNotes (OrchardEngine.midi again)
      !! MIDI_CHANNELS.CHORD = Some [48].
Proof.
  eexists _, _, _, _.
  split; [vm_compute; reflexivity|].
  split; [vm_compute; reflexivity|].
  split; [vm_compute; reflexivity|].
  split; [vm_compute; reflexivity|].
  split; [vm_compute; reflexivity|].
  split; [vm_compute; reflexivity|].
  split; [vm_compute; reflexivity|].
  split; [vm_compute; reflexivity|].
  split; [vm_compute; reflexivity|].
  split; [vm_compute; reflexivity|].
  split; [reflexivity|].
  split; vm_compute; reflexivity.
Qed.

(** * Further results *)

(** ** Nearest scale degree *)

Section Nearest.

Implicit Types degrees : list Z.

Lemma quantizeToScale_fold interval degrees :
  quantizeToScale interval degrees
  = (foldl (nearestStep interval) (default 0 (head degrees), 12) degrees).1.
Proof. reflexivity. Qed.

(** The fold keeps the first degree among those at the least distance
    seen, as long as that distance is below the starting bound. *)
Lemma nearest_fold_spec interval degrees :
  ∀ seen nearestDegree minDistance,
    (minDistance = 12 ∧ Forall (λ d, 12 ≤ wrapDistance interval d) seen
     ∨ (∃ before after,
          seen = before ++ nearestDegree :: after ∧
          minDistance = wrapDistance interval nearestDegree ∧
          Forall (λ d, minDistance < wrapDistance interval d) before ∧
          Forall (λ d, minDistance ≤ wrapDistance interval d) after)) →
    let '(n, m) := foldl (nearestStep interval) (nearestDegree, minDistance)
                         degrees in
    (m = 12 ∧ Forall (λ d, 12 ≤ wrapDistance interval d) (seen ++ degrees))
    ∨ (∃ before after,
         seen ++ degrees = before ++ n :: after ∧
         m = wrapDistance interval n ∧
         Forall (λ d, m < wrapDistance interval d) before ∧
         Forall (λ d, m ≤ wrapDistance interval d) after).
Proof.
  induction degrees as [|d degrees IH]; intros seen n m Hinv.
  - simpl. rewrite app_nil_r. destruct Hinv as [[-> Hall]|Hex]; [left|right]; auto.
  - simpl. unfold nearestStep at 1.
    replace (seen ++ d :: degrees) with ((seen ++ [d]) ++ degrees)
      by (by rewrite <- app_assoc).
    case_decide as Hlt.
    + apply IH. right. exists seen, []. split; [done|]. split; [done|].
      split; [|constructor].
      destruct Hinv as [[-> Hall]|(before & after & -> & -> & Hb & Ha)].
      * eapply Forall_impl; [exact Hall|]. simpl. lia.
      * apply Forall_app. split.
        -- eapply Forall_impl; [exact Hb|]. simpl. lia.
        -- constructor; [lia|]. eapply Forall_impl; [exact Ha|]. simpl. lia.
    + apply IH.
      destruct Hinv as [[-> Hall]|(before & after & -> & -> & Hb & Ha)].
      * left. split; [done|]. apply Forall_app. split; [done|].
        constructor; [lia|constructor].
      * right. exists before, (after ++ [d]). split; [by rewrite <- app_assoc|].
        split; [done|]. split; [done|].
        apply Forall_app. split; [done|]. constructor; [lia|constructor].
Qed.

Lemma wrapDistance_small interval degree :
  0 ≤ interval ≤ 11 → 0 ≤ degree ≤ 11 → 0 ≤ wrapDistance interval degree ≤ 6.
Proof. unfold wrapDistance. lia. Qed.

(** X1.  For an interval of [0,11] and a non-empty array of degrees of
    [0,11], [quantizeToScale] returns a degree of the array at the least
    wrap-around distance from the interval, that distance is at most 6,
    and among the degrees at that distance it returns the one listed
    first. *)
Theorem quantizeToScale_first_nearest interval degrees :
  0 ≤ interval ≤ 11 →
  degrees ≠ [] →
  Forall (λ d, 0 ≤ d ≤ 11) degrees →
  ∃ before after,
    degrees = before ++ quantizeToScale interval degrees :: after ∧
    wrapDistance interval (quantizeToScale interval degrees) ≤ 6 ∧
    Forall (λ d, wrapDistance interval (quantizeToScale interval degrees)
                 < wrapDistance interval d) before ∧
    Forall (λ d, wrapDistance interval (quantizeToScale interval degrees)
                 ≤ wrapDistance interval d) after.
Proof.
  intros Hi Hne Hdeg. rewrite quantizeToScale_fold.
  pose proof (nearest_fold_spec interval degrees []
                (default 0 (head degrees)) 12) as H.
  destruct (foldl _ _ degrees) as [n m]. simpl in *.
  destruct H as [(_ & Hall)|(before & after & -> & -> & Hb & Ha)].
  - left. split; [done|constructor].
  - destruct degrees as [|d degrees]; [done|].
    apply Forall_cons in Hall as [Hd _]. apply Forall_cons in Hdeg as [Hd' _].
    pose proof (wrapDistance_small interval d Hi Hd'). lia.
  - exists before, after. split; [done|]. split; [|done].
    apply Forall_app in Hdeg as [_ Hn]. apply Forall_cons in Hn as [Hn _].
    pose proof (wrapDistance_small interval n Hi Hn). lia.
Qed.

End Nearest.

Lemma quantizeToScale_first_nearest_witness :
  ∃ before after,
    [0; 3; 5; 6; 7; 10] = before ++ quantizeToScale 4 [0; 3; 5; 6; 7; 10] :: after ∧
    wrapDistance 4 (quantizeToScale 4 [0; 3; 5; 6; 7; 10]) ≤ 6 ∧
    Forall (λ d, wrapDistance 4 (quantizeToScale 4 [0; 3; 5; 6; 7; 10])
                 < wrapDistance 4 d) before ∧
    Forall (λ d, wrapDistance 4 (quantizeToScale 4 [0; 3; 5; 6; 7; 10])
                 ≤ wrapDistance 4 d) after.
Proof.
  apply (quantizeToScale_first_nearest 4 [0; 3; 5; 6; 7; 10]).
  - lia.
  - done.
  - by_computation.
Defined.

(** ** Quantised notes and key-mode chord types *)

Lemma rem_12_bound (a : Z) : -11 ≤ rem a 12 ≤ 11.
Proof.
  unfold rem. pose proof (Z.rem_bound_abs a 12). lia.
Qed.

(** What the quantiser does on every note, key root and scale, checked
    case by case. *)
Lemma quantizeNoteToKey_near_all :
  Forall (λ scaleType,
    Forall (λ keyRoot,
      Forall (λ midiNote,
        found (SCALE_DEGREES !! scaleType) (λ degrees,
          returned (quantizeNoteToKey midiNote keyRoot scaleType) (λ quantized,
            0 ≤ quantized ≤ 127 ∧
            Z.abs (quantized - midiNote) ≤ 1 ∧
            (scaleInterval midiNote keyRoot ∈ degrees → quantized = midiNote) ∧
            (scaleInterval quantized keyRoot ∈ degrees
             ∨ quantized = midiNote ∧ (midiNote = 0 ∨ midiNote = 127)))))
      (seqZ 0 128))
    (seqZ 0 12))
  scaleNames.
Proof. by_computation. Qed.

(** X2.  For each of the eight scales, every note of [0,127] and every
    key root of [0,11], [quantizeNoteToKey] returns a note of [0,127] at
    most one semitone away from the input; a note already on a scale
    degree is returned unchanged; and the returned note lies on a scale
    degree, except that the notes 0 and 127 are returned as they are when
    the nearest degree would fall outside [0,127]. *)
Theorem quantizeNoteToKey_near_and_in_scale (midiNote keyRoot : Z)
    (scaleType : string) :
  scaleType ∈ scaleNames →
  0 ≤ midiNote ≤ 127 →
  0 ≤ keyRoot ≤ 11 →
  ∃ degrees quantized,
    SCALE_DEGREES !! scaleType = Some degrees ∧
    quantizeNoteToKey midiNote keyRoot scaleType = Ok quantized ∧
    0 ≤ quantized ≤ 127 ∧
    Z.abs (quantized - midiNote) ≤ 1 ∧
    (scaleInterval midiNote keyRoot ∈ degrees → quantized = midiNote) ∧
    (scaleInterval quantized keyRoot ∈ degrees
     ∨ quantized = midiNote ∧ (midiNote = 0 ∨ midiNote = 127)).
Proof.
  intros Hs Hn Hr.
  assert (Hr' : keyRoot ∈ seqZ 0 12) by (apply elem_of_seqZ; lia).
  assert (Hn' : midiNote ∈ seqZ 0 128) by (apply elem_of_seqZ; lia).
  pose proof quantizeNoteToKey_near_all as H.
  rewrite Forall_forall in H. specialize (H _ Hs).
  rewrite Forall_forall in H. specialize (H _ Hr').
  rewrite Forall_forall in H. specialize (H _ Hn').
  destruct (SCALE_DEGREES !! scaleType) as [degrees|]; [|done].
  destruct (quantizeNoteToKey midiNote keyRoot scaleType) as [quantized|];
    [|done].
  by exists degrees, quantized.
Qed.

Lemma quantizeNoteToKey_near_and_in_scale_witness :
  ∃ degrees quantized,
    SCALE_DEGREES !! "blues" = Some degrees ∧
    quantizeNoteToKey 71 0 "blues" = Ok quantized ∧
    0 ≤ quantized ≤ 127 ∧
    Z.abs (quantized - 71) ≤ 1 ∧
    (scaleInterval 71 0 ∈ degrees → quantized = 71) ∧
    (scaleInterval quantized 0 ∈ degrees
     ∨ quantized = 71 ∧ (71 = 0 ∨ 71 = 127)).
Proof.
  apply (quantizeNoteToKey_near_and_in_scale 71 0 "blues"); [|lia|lia].
  unfold scaleNames. by_computation.
Defined.

(** The chord types the mappings give on every interval the code can
    compute. *)
Lemma chordTypeForInterval_all :
  Forall (λ scaleType,
    Forall (λ interval,
      returned (chordTypeForInterval interval scaleType)
               (λ chordType, chordType ∈ ["Maj"; "Min"; "Dim"]))
    (seqZ (-11) 23))
  scaleNames.
Proof. by_computation. Qed.

Lemma mapping_unknown scaleType :
  scaleType ∉ scaleNames →
  KEY_MODE_MAPPINGS !! scaleType = None ∧
  ADDITIONAL_KEY_MODE_MAPPINGS !! scaleType = None.
Proof.
  intros Hn. split; apply not_elem_of_list_to_map_1; simpl;
    intros Hin; apply Hn; unfold scaleNames;
    repeat (apply elem_of_cons in Hin as [->|Hin]; [by_computation|]);
    by apply elem_of_nil in Hin.
Qed.

Lemma generateChord_returns rootNote chordType extensions :
  chordType ∈ chordTypeNames →
  ∃ notes, generateChord rootNote chordType extensions = Ok notes.
Proof.
  intros Hty. destruct (chordType_known _ Hty) as (base & Hbase & _).
  unfold generateChord, get. rewrite Hbase. simpl. eauto.
Qed.

(** X3.  For every pressed note and key root (any integers) and every
    scale type that is not a member name of [Object.prototype],
    [getKeyModeChordType] returns normally, and what it returns is Maj,
    Min or Dim (never Sus); it is Maj when the scale type is none of the
    eight scales.  [generateChord] therefore accepts the returned type:
    it returns a chord for every root and extension list. *)
Theorem getKeyModeChordType_total_and_valid (pressedNote keyRoot : Z)
    (scaleType : string) :
  scaleType ∉ object_prototype_props →
  ∃ chordType,
    getKeyModeChordType pressedNote keyRoot scaleType = Ok chordType ∧
    chordType ∈ ["Maj"; "Min"; "Dim"] ∧
    (scaleType ∉ scaleNames → chordType = "Maj") ∧
    ∀ rootNote extensions,
      ∃ notes, generateChord rootNote chordType extensions = Ok notes.
Proof.
  intros Hproto.
  assert (∃ chordType,
            getKeyModeChordType pressedNote keyRoot scaleType = Ok chordType ∧
            chordType ∈ ["Maj"; "Min"; "Dim"] ∧
            (scaleType ∉ scaleNames → chordType = "Maj"))
    as (chordType & Hget & Hin & Hmaj).
  { unfold getKeyModeChordType.
    set (interval := rem (rem pressedNote 12 - keyRoot + 12) 12).
    pose proof (rem_12_bound (rem pressedNote 12 - keyRoot + 12)) as Hb.
    fold interval in Hb.
    destruct (decide (scaleType ∈ scaleNames)) as [Hs|Hs].
    - assert (Hi : interval ∈ seqZ (-11) 23) by (apply elem_of_seqZ; lia).
      pose proof chordTypeForInterval_all as H.
      rewrite Forall_forall in H. specialize (H _ Hs).
      rewrite Forall_forall in H. specialize (H _ Hi).
      destruct (chordTypeForInterval interval scaleType) as [chordType|];
        [|done].
      by exists chordType.
    - exists "Maj". destruct (mapping_unknown _ Hs) as [Hk Ha].
      unfold chordTypeForInterval, getMapping. rewrite Hk, Ha.
      rewrite decide_False by done. split; [done|]. split; [|done].
      by_computation. }
  exists chordType. repeat split; try done.
  intros rootNote extensions. apply generateChord_returns.
  unfold chordTypeNames.
  repeat (apply elem_of_cons in Hin as [->|Hin]; [by_computation|]).
  by apply elem_of_nil in Hin.
Qed.

Lemma getKeyModeChordType_total_and_valid_witness :
  ∃ chordType,
    getKeyModeChordType 61 0 "harmonic_minor" = Ok chordType ∧
    chordType ∈ ["Maj"; "Min"; "Dim"] ∧
    ("harmonic_minor" ∉ scaleNames → chordType = "Maj") ∧
    ∀ rootNote extensions,
      ∃ notes, generateChord rootNote chordType extensions = Ok notes.
Proof.
  apply (getKeyModeChordType_total_and_valid 61 0 "harmonic_minor").
  unfold object_prototype_props. by_computation.
Defined.

(** The chord type of a note against that of its quantised note, on every
    note, key root and scale. *)
Lemma getKeyModeChordType_quantized_all :
  Forall (λ scaleType,
    Forall (λ keyRoot,
      Forall (λ midiNote,
        (quantized ← quantizeNoteToKey midiNote keyRoot scaleType;
         getKeyModeChordType quantized keyRoot scaleType)
        = getKeyModeChordType midiNote keyRoot scaleType)
      (seqZ 0 128))
    (seqZ 0 12))
  scaleNames.
Proof. by_computation. Qed.

Lemma quantizeNoteToKey_returns_all :
  Forall (λ scaleType,
    Forall (λ keyRoot,
      Forall (λ midiNote,
        returned (quantizeNoteToKey midiNote keyRoot scaleType) (λ _, True))
      (seqZ 0 128))
    (seqZ 0 12))
  scaleNames.
Proof. by_computation. Qed.

(** X4.  For each of the eight scales, every note of [0,127] and every key
    root of [0,11], the chord type [getKeyModeChordType] derives for the
    note is the one it derives for the note quantised to the same key by
    [quantizeNoteToKey]: deriving the type before or after quantising
    gives the same chord quality. *)
Theorem getKeyModeChordType_agrees_with_quantized (midiNote keyRoot : Z)
    (scaleType : string) :
  scaleType ∈ scaleNames →
  0 ≤ midiNote ≤ 127 →
  0 ≤ keyRoot ≤ 11 →
  ∃ quantized,
    quantizeNoteToKey midiNote keyRoot scaleType = Ok quantized ∧
    getKeyModeChordType quantized keyRoot scaleType
    = getKeyModeChordType midiNote keyRoot scaleType.
Proof.
  intros Hs Hn Hr.
  assert (Hr' : keyRoot ∈ seqZ 0 12) by (apply elem_of_seqZ; lia).
  assert (Hn' : midiNote ∈ seqZ 0 128) by (apply elem_of_seqZ; lia).
  pose proof getKeyModeChordType_quantized_all as H.
  rewrite Forall_forall in H. specialize (H _ Hs).
  rewrite Forall_forall in H. specialize (H _ Hr').
  rewrite Forall_forall in H. specialize (H _ Hn').
  pose proof quantizeNoteToKey_returns_all as Hq.
  rewrite Forall_forall in Hq. specialize (Hq _ Hs).
  rewrite Forall_forall in Hq. specialize (Hq _ Hr').
  rewrite Forall_forall in Hq. specialize (Hq _ Hn').
  destruct (quantizeNoteToKey midiNote keyRoot scaleType) as [quantized|];
    [|done].
  by exists quantized.
Qed.

Lemma getKeyModeChordType_agrees_with_quantized_witness :
  ∃ quantized,
    quantizeNoteToKey 66 2 "dorian" = Ok quantized ∧
    getKeyModeChordType quantized 2 "dorian"
    = getKeyModeChordType 66 2 "dorian".
Proof.
  apply (getKeyModeChordType_agrees_with_quantized 66 2 "dorian"); [|lia|lia].
  unfold scaleNames. by_computation.
Defined.

(** ** Voicing: order, range and total pitch *)

Section VoicingMore.

Implicit Types notes result : list Z.

Lemma le_sorted_filter (P : Z → Prop) `{∀ x, Decision (P x)} result :
  StronglySorted Z.le result → StronglySorted Z.le (filter P result).
Proof.
  induction 1 as [|x l Hl IH Hx]; [constructor|].
  rewrite filter_cons. case_decide; [|done].
  constructor; [done|].
  apply Forall_forall. intros y [_ Hy]%list_elem_of_filter.
  rewrite Forall_forall in Hx. auto.
Qed.

Lemma voicingStep_sorted position result :
  StronglySorted Z.le result →
  StronglySorted Z.le (voicingStep position result).
Proof.
  intros Hs. unfold voicingStep. repeat case_decide; [| |done].
  - destruct result; [constructor|apply sortAsc_sorted].
  - destruct (last result); [apply sortAsc_sorted|constructor].
Qed.

Lemma voicingLoop_sorted i position result :
  StronglySorted Z.le result →
  StronglySorted Z.le (voicingLoop i position result).
Proof.
  intros Hs. unfold voicingLoop. induction i as [|i IH]; simpl; [done|].
  by apply voicingStep_sorted.
Qed.

(** X5.  Whatever the notes and the position, [applyVoicing] returns an
    ascending list of notes of [0,127] that is no longer than the input;
    an empty input is returned as it is. *)
Theorem applyVoicing_ascending_in_range notes (position : Z) :
  StronglySorted Z.le (applyVoicing notes position) ∧
  Forall inMidiRange (applyVoicing notes position) ∧
  (length (applyVoicing notes position) ≤ length notes)%nat ∧
  applyVoicing [] position = [].
Proof.
  unfold applyVoicing. split; [|split; [|split; [|done]]].
  - case_decide as Hlen.
    + destruct notes; [constructor|done].
    + apply le_sorted_filter, voicingLoop_sorted, sortAsc_sorted.
  - case_decide as Hlen.
    + destruct notes; [constructor|done].
    + apply Forall_forall. by intros x [? _]%list_elem_of_filter.
  - case_decide; [done|].
    etrans; [apply length_filter|].
    by rewrite voicingLoop_length, sortAsc_length.
Qed.

Lemma sumNotes_app notes1 notes2 :
  sumNotes (notes1 ++ notes2) = sumNotes notes1 + sumNotes notes2.
Proof.
  unfold sumNotes. induction notes1 as [|x l IH]; simpl; [done|].
  rewrite IH. lia.
Qed.

Lemma sumNotes_perm notes1 notes2 :
  notes1 ≡ₚ notes2 → sumNotes notes1 = sumNotes notes2.
Proof.
  unfold sumNotes. induction 1; simpl; lia.
Qed.

(** One pass on a non-empty array moves the total by one octave in the
    direction of the position. *)
Lemma voicingStep_sum position result :
  result ≠ [] →
  sumNotes (voicingStep position result)
  = sumNotes result + 12 * Z.sgn position.
Proof.
  intros Hne. unfold voicingStep. repeat case_decide.
  - destruct result as [|lowest rest]; [done|].
    rewrite (sumNotes_perm _ _ (sortAsc_perm _)), sumNotes_app.
    unfold sumNotes. simpl. lia.
  - destruct (last result) as [highest|] eqn:Hl.
    + rewrite (sumNotes_perm _ _ (sortAsc_perm _)).
      pose proof (last_split _ _ Hl) as Hsplit.
      set (init := take (length result - 1) result) in *.
      rewrite Hsplit, sumNotes_app. unfold sumNotes. simpl. lia.
    + apply last_None in Hl. done.
  - lia.
Qed.

Lemma voicingLoop_sum i position result :
  result ≠ [] →
  sumNotes (voicingLoop i position result)
  = sumNotes result + 12 * Z.sgn position * Z.of_nat i.
Proof.
  intros Hne. unfold voicingLoop. induction i as [|i IH]; simpl; [lia|].
  rewrite voicingStep_sum.
  - rewrite IH. lia.
  - fold (voicingLoop i position result). intros Hnil.
    apply (f_equal length) in Hnil. rewrite voicingLoop_length in Hnil.
    by destruct result.
Qed.

(** X6.  For a non-empty note list whose arrays stay within [0,127]
    through every pass, [applyVoicing notes position] keeps the number of
    notes and changes the sum of the notes by exactly [12 * position]:
    each unit of the position moves one note by one octave, upwards for a
    positive position and downwards for a negative one. *)
Theorem applyVoicing_total_pitch notes (position : Z) :
  notes ≠ [] →
  staysInRange notes position →
  length (applyVoicing notes position) = length notes ∧
  sumNotes (applyVoicing notes position) = sumNotes notes + 12 * position.
Proof.
  intros Hne Hin. unfold applyVoicing.
  rewrite decide_False by (by destruct notes).
  rewrite filter_all by (by apply staysInRange_last).
  split; [by rewrite voicingLoop_length, sortAsc_length|].
  rewrite voicingLoop_sum.
  - rewrite (sumNotes_perm _ _ (sortAsc_perm _)). lia.
  - intros Hnil. apply (f_equal length) in Hnil.
    rewrite sortAsc_length in Hnil. by destruct notes.
Qed.

End VoicingMore.

Lemma applyVoicing_total_pitch_witness :
  length (applyVoicing [60; 64; 67] (-2)) = length [60; 64; 67] ∧
  sumNotes (applyVoicing [60; 64; 67] (-2)) = sumNotes [60; 64; 67] + 12 * -2.
Proof.
  apply (applyVoicing_total_pitch [60; 64; 67] (-2)); [done|by_computation].
Defined.

(** ** Arpeggio orders *)

Section ArpMore.

Variable randomIndex : nat → nat.

Implicit Types notes array : list Z.

(** Exchanging two elements of an array rearranges it. *)
Lemma swap_perm array (i j : nat) : swap array i j ≡ₚ array.
Proof.
  unfold swap.
  destruct (array !! i) as [x|] eqn:Hi; [|done].
  destruct (array !! j) as [y|] eqn:Hj; [|done].
  pose proof (lookup_lt_Some _ _ _ Hi) as Hli.
  pose proof (lookup_lt_Some _ _ _ Hj) as Hlj.
  apply Permutation_inj. split; [by rewrite !length_insert|].
  exists (λ k, if decide (k = i) then j else if decide (k = j) then i else k).
  split.
  - intros a b. repeat case_decide; congruence.
  - intros k. destruct (decide (k = j)) as [->|Hkj].
    + rewrite list_lookup_insert_eq by (by rewrite length_insert).
      repeat case_decide; congruence.
    + rewrite list_lookup_insert_ne by done.
      destruct (decide (k = i)) as [->|Hki].
      * rewrite list_lookup_insert_eq by done.
        repeat case_decide; congruence.
      * rewrite list_lookup_insert_ne by done.
        repeat case_decide; congruence.
Qed.

Lemma shuffleFrom_perm i array : shuffleFrom randomIndex i array ≡ₚ array.
Proof.
  revert array. induction i as [|i IH]; intros array; simpl; [done|].
  by rewrite IH, swap_perm.
Qed.

Lemma shuffled_perm array : shuffleArray randomIndex array ≡ₚ array.
Proof. apply shuffleFrom_perm. Qed.

(** X7.  Whatever [Math.random] returns, [shuffleArray] returns a
    rearrangement of its array: every note is kept, with its
    multiplicity, none is added and the length is the same. *)
Theorem shuffleArray_perm array :
  shuffleArray randomIndex array ≡ₚ array ∧
  length (shuffleArray randomIndex array) = length array.
Proof.
  split; [apply shuffled_perm|].
  apply Permutation_length, shuffled_perm.
Qed.

Lemma elem_of_slice_1_m1 {A} (l : list A) x : x ∈ slice_1_m1 l → x ∈ l.
Proof.
  unfold slice_1_m1. intros Hx.
  by apply subseteq_take, subseteq_drop in Hx.
Qed.

(** X8.  For every pattern name, known or not, the notes
    [applyArpPattern] returns are exactly the given notes: none is lost
    and none invented.  Every pattern other than upDown and downUp returns
    a rearrangement of the notes; "up" and every unknown name return them
    in ascending order and "down" returns the reverse of that order. *)
Theorem applyArpPattern_keeps_notes notes (pattern : string) :
  (∀ x, x ∈ applyArpPattern randomIndex notes pattern ↔ x ∈ notes) ∧
  (pattern ≠ "upDown" → pattern ≠ "downUp" →
   applyArpPattern randomIndex notes pattern ≡ₚ notes) ∧
  (pattern ∉ ["down"; "upDown"; "downUp"; "random"] →
   applyArpPattern randomIndex notes pattern = sortAsc notes) ∧
  applyArpPattern randomIndex notes "down"
  = reverse (applyArpPattern randomIndex notes "up").
Proof.
  split; [|split; [|split]].
  - intros x. unfold applyArpPattern.
    repeat case_decide; rewrite ?elem_of_app, ?elem_of_reverse,
      ?shuffled_perm, ?elem_of_sortAsc; try tauto.
    + split; [|tauto]. intros [?|Hx]; [done|].
      apply elem_of_slice_1_m1 in Hx. by apply elem_of_sortAsc.
    + split; [|tauto]. intros [?|Hx]; [done|].
      apply elem_of_slice_1_m1 in Hx. rewrite elem_of_reverse in Hx.
      by apply elem_of_sortAsc.
  - intros Hud Hdu. unfold applyArpPattern.
    repeat case_decide; try done;
      rewrite ?reverse_Permutation, ?shuffled_perm; apply sortAsc_perm.
  - intros Hnot. unfold applyArpPattern.
    repeat case_decide; subst; try done; exfalso; apply Hnot; by_computation.
  - reflexivity.
Qed.

Lemma reverse_split (lowest highest : Z) (interior : list Z) :
  reverse (lowest :: interior ++ [highest])
  = highest :: reverse interior ++ [lowest].
Proof. by rewrite reverse_cons, reverse_app. Qed.

(** X9.  For every note list of length at least 2, [applyArpPattern] with
    pattern "downUp" returns the notes in descending order, from the
    highest through the interior to the lowest, followed by the interior
    in ascending order, so that neither endpoint is repeated; a list of
    at most one note is returned as it is by upDown and downUp alike. *)
Theorem applyArpPattern_downUp notes :
  ((2 ≤ length notes)%nat →
   ∃ lowest interior highest,
     lowest :: interior ++ [highest] ≡ₚ notes ∧
     StronglySorted Z.le (lowest :: interior ++ [highest]) ∧
     applyArpPattern randomIndex notes "downUp"
     = (highest :: reverse interior ++ [lowest]) ++ interior) ∧
  ((length notes ≤ 1)%nat →
   applyArpPattern randomIndex notes "downUp" = notes ∧
   applyArpPattern randomIndex notes "upDown" = notes).
Proof.
  split.
  - intros Hlen.
    destruct (two_or_more_split (sortAsc notes)) as (lo & mid & hi & Hs);
      [by rewrite sortAsc_length|].
    exists lo, mid, hi.
    split; [rewrite <- Hs; apply sortAsc_perm|].
    split; [rewrite <- Hs; apply sortAsc_sorted|].
    unfold applyArpPattern. simpl. rewrite Hs.
    rewrite decide_False by (rewrite length_cons, length_app; simpl; lia).
    rewrite reverse_split, slice_1_m1_interior.
    by rewrite reverse_involutive.
  - intros Hlen.
    assert (sortAsc notes = notes) as Hsame.
    { destruct notes as [|x [|y l]]; [done|done|simpl in Hlen; lia]. }
    unfold applyArpPattern. simpl.
    rewrite !decide_True by (by rewrite sortAsc_length). done.
Qed.

End ArpMore.

(** ** Strum, harp and arpeggio sequences *)

Section Sequences.

Implicit Types notes : list Z.

(** The notes of a sequence built by [map] or [forEach] with an index are
    the notes it was built from. *)
Lemma note_imap (f : nat → Z → PatternEvent) notes :
  (∀ i n, note (f i n) = n) → note <$> imap f notes = notes.
Proof.
  intros Hf. rewrite fmap_imap.
  rewrite (imap_ext _ (λ _ n, n)) by (intros; apply Hf).
  by rewrite (imap_const (λ x : Z, x)), list_fmap_id.
Qed.

Lemma ltb_leb (x y : float) :
  PrimFloat.ltb x y = true → PrimFloat.leb x y = true.
Proof.
  rewrite FloatAxioms.ltb_spec, FloatAxioms.leb_spec. unfold SpecFloat.SFltb, SpecFloat.SFleb.
  by destruct (SpecFloat.SFcompare _ _) as [[]|].
Qed.

(** [Math.max(0, x)] is NaN or at least 0. *)
Lemma max0_not_negative (x : float) :
  PrimFloat.is_nan (Num.max0 x) = true
  ∨ PrimFloat.leb 0 (Num.max0 x) = true.
Proof.
  unfold Num.max0. destruct (PrimFloat.is_nan x) eqn:Hnan; [by left|].
  destruct (PrimFloat.ltb 0 x) eqn:Hlt; right.
  - by apply ltb_leb.
  - reflexivity.
Qed.

(** A product with NaN is NaN. *)
Lemma mul_nan (x : float) : (x * PrimFloat.nan)%float = PrimFloat.nan.
Proof.
  rewrite <- (SF2Prim_Prim2SF (x * PrimFloat.nan)), FloatAxioms.mul_spec.
  change (Prim2SF PrimFloat.nan) with SpecFloat.S754_nan.
  unfold SF64mul, SpecFloat.SFmul. by destruct (Prim2SF x).
Qed.

Section Strum.

Variable mathRandom : nat → float.

(** X10.  Whatever the dial, the options and the random numbers,
    [generateStrum] returns the notes in ascending order: the given
    notes, followed in two-octave mode by their copies an octave up that
    do not exceed 127, all sorted together; the jitter never reorders or
    drops a note.  With a slop above 0 no event gets a negative delay
    (each delay is at least 0, or NaN when the arithmetic gave NaN); with
    any other slop the [i]-th delay is [i * delayPerNote]. *)
Theorem generateStrum_notes_and_jitter notes (dialPosition : float)
    (vel : Z) (options : StrumOptions) :
  let events := generateStrum mathRandom notes dialPosition vel options in
  StronglySorted Z.le (note <$> events) ∧
  note <$> events
    ≡ₚ notes ++ (if twoOctaves options
                 then filter (λ n, n ≤ 127) ((λ n, n + 12) <$> notes)
                 else []) ∧
  (PrimFloat.ltb 0 (slop options) = true →
   Forall (λ event, PrimFloat.is_nan (delayMs event) = true
                    ∨ PrimFloat.leb 0 (delayMs event) = true) events) ∧
  (PrimFloat.ltb 0 (slop options) = false →
   ∀ (i : nat) event,
     events !! i = Some event →
     delayMs event = (Num.of_nat i * delayPerNote dialPosition)%float).
Proof.
  intros events. unfold events, generateStrum.
  rewrite note_imap by done.
  split; [|split; [|split]].
  - destruct (twoOctaves options); apply sortAsc_sorted.
  - destruct (twoOctaves options).
    + rewrite sortAsc_perm. by rewrite sortAsc_perm.
    + by rewrite sortAsc_perm, app_nil_r.
  - intros Hslop. rewrite Hslop. apply Forall_forall. intros event Hin.
    apply list_elem_of_lookup in Hin as [i Hi].
    rewrite list_lookup_imap in Hi.
    destruct (_ !! i) as [n|]; simpl in Hi; [|done].
    injection Hi as <-. simpl. apply max0_not_negative.
  - intros Hslop i event. rewrite Hslop, list_lookup_imap.
    destruct (_ !! i) as [n|]; simpl; [|done]. by intros [= <-].
Qed.

End Strum.

(** Membership in the four octave passes of the harp. *)
Lemma elem_of_harpExpand baseNotes x :
  x ∈ harpExpand baseNotes ↔
  x ≤ 127 ∧ ∃ n octave, n ∈ baseNotes ∧ 0 ≤ octave ≤ 3 ∧ x = n + octave * 12.
Proof.
  unfold harpExpand. simpl. rewrite app_nil_r, !elem_of_app.
  rewrite !list_elem_of_filter.
  setoid_rewrite (list_elem_of_fmap (A := Z)).
  split.
  - intros [(? & n & -> & ?)|[(? & n & -> & ?)|[(? & n & -> & ?)|(? & n & -> & ?)]]];
      (split; [done|]);
      [exists n, 0|exists n, 1|exists n, 2|exists n, 3]; repeat split; auto; lia.
  - intros (Hx & n & octave & Hn & Ho & ->).
    assert (octave = 0 ∨ octave = 1 ∨ octave = 2 ∨ octave = 3)
      as [-> | [-> | [-> | ->]]] by lia;
      [left|right; left|right; right; left|right; right; right];
      (split; [done|]); by exists n.
Qed.

Lemma harpExpand_length baseNotes :
  (length (harpExpand baseNotes) ≤ 4 * length baseNotes)%nat.
Proof.
  unfold harpExpand. simpl. rewrite app_nil_r, !length_app.
  pose proof (length_filter (λ expandedNote : Z, expandedNote ≤ 127)) as Hf.
  pose proof (Hf (map (λ note, note + 0 * 12) baseNotes)) as H0.
  pose proof (Hf (map (λ note, note + 1 * 12) baseNotes)) as H1.
  pose proof (Hf (map (λ note, note + 2 * 12) baseNotes)) as H2.
  pose proof (Hf (map (λ note, note + 3 * 12) baseNotes)) as H3.
  rewrite !length_map in *. lia.
Qed.

(** X11.  [generateHarp] returns its notes in ascending order.  A note is
    among them exactly when it is at most 127 and is a given note raised
    by 0, 1, 2 or 3 octaves (notes below 0 are not dropped); there are at
    most four per given note.  The [i]-th event is delayed by [i] times a
    sixteenth of the quarter-note duration [60000 / bpm], and no event
    carries a duration. *)
Theorem generateHarp_sweep notes (bpm : float) (vel : Z) :
  let events := generateHarp notes bpm vel in
  StronglySorted Z.le (note <$> events) ∧
  (∀ x, x ∈ note <$> events ↔
        x ≤ 127 ∧
        ∃ n octave, n ∈ notes ∧ 0 ≤ octave ≤ 3 ∧ x = n + octave * 12) ∧
  (length events ≤ 4 * length notes)%nat ∧
  (∀ (i : nat) event,
     events !! i = Some event →
     delayMs event = (Num.of_nat i * (60000 / bpm / 16))%float ∧
     durationMs event = None ∧
     velocity event = vel ∧
     channel event = MIDI_CHANNELS.PERFORMANCE).
Proof.
  intros events.
  assert (Hnotes : note <$> events = sortAsc (harpExpand (sortAsc notes))).
  { unfold events, generateHarp. by rewrite note_imap. }
  split; [rewrite Hnotes; apply sortAsc_sorted|].
  split.
  { intros x. rewrite Hnotes, elem_of_sortAsc, elem_of_harpExpand.
    by setoid_rewrite elem_of_sortAsc. }
  split.
  { rewrite <- (length_fmap note), Hnotes, sortAsc_length.
    etrans; [apply harpExpand_length|]. by rewrite sortAsc_length. }
  intros i event. unfold events, generateHarp.
  rewrite list_lookup_imap.
  destruct (_ !! i) as [n|]; simpl; [|done]. by intros [= <-].
Qed.

Section Arpeggio.

Variable randomIndex : nat → nat.

Local Abbreviation timingOnly bpm division :=
  (generateArpeggio randomIndex [] bpm "up" division 0 false).

(** The step and the gate for the six divisions at every tempo [setBpm]
    can store. *)
Lemma arpeggio_timing_all :
  Forall (λ division,
    Forall (λ bpm,
      PrimFloat.ltb 0 (gateMs (timingOnly (Num.of_Z bpm) division)) = true ∧
      PrimFloat.ltb (gateMs (timingOnly (Num.of_Z bpm) division))
                    (stepMs (timingOnly (Num.of_Z bpm) division)) = true ∧
      PrimFloat.leb 31.25 (stepMs (timingOnly (Num.of_Z bpm) division)) = true ∧
      PrimFloat.leb (stepMs (timingOnly (Num.of_Z bpm) division)) 1500 = true)
    (seqZ 40 201))
  ["1/4"; "1/8"; "1/12"; "1/16"; "1/24"; "1/32"].
Proof. by_computation. Qed.

Lemma arpeggio_timing_independent notes bpm pattern division vel twoOct :
  stepMs (generateArpeggio randomIndex notes bpm pattern division vel twoOct)
  = stepMs (generateArpeggio randomIndex [] bpm "up" division 0 false) ∧
  gateMs (generateArpeggio randomIndex notes bpm pattern division vel twoOct)
  = gateMs (generateArpeggio randomIndex [] bpm "up" division 0 false).
Proof. done. Qed.

(** X12.  For every tempo given to [setBpm] (any integer) and each of the
    six divisions, the arpeggio generated at the stored tempo has a step
    between 31.25 ms and 1500 ms and a gate that is positive and shorter
    than the step, so each note is released before the next one starts.
    The [i]-th event is delayed by [i] steps and lasts one gate; in
    two-octave mode the octave copies follow the base pass without
    re-sorting. *)
Theorem generateArpeggio_gate_within_step notes (bpm : Z)
    (pattern division : string) (vel : Z) (twoOct : bool) :
  division ∈ ["1/4"; "1/8"; "1/12"; "1/16"; "1/24"; "1/32"] →
  let arp :=
    generateArpeggio randomIndex notes (Num.of_Z (setBpm bpm)) pattern
      division vel twoOct in
  let base := applyArpPattern randomIndex notes pattern in
  PrimFloat.ltb 0 (gateMs arp) = true ∧
  PrimFloat.ltb (gateMs arp) (stepMs arp) = true ∧
  PrimFloat.leb 31.25 (stepMs arp) = true ∧
  PrimFloat.leb (stepMs arp) 1500 = true ∧
  note <$> sequence arp
  = base ++ (if twoOct
             then filter (λ n, n ≤ 127) ((λ n, n + 12) <$> base)
             else []) ∧
  (∀ (i : nat) event,
     sequence arp !! i = Some event →
     delayMs event = (Num.of_nat i * stepMs arp)%float ∧
     durationMs event = Some (gateMs arp)).
Proof.
  intros Hdiv arp base.
  assert (Hbpm : setBpm bpm ∈ seqZ 40 201).
  { apply elem_of_seqZ. unfold setBpm. lia. }
  pose proof arpeggio_timing_all as H.
  rewrite Forall_forall in H. specialize (H _ Hdiv).
  rewrite Forall_forall in H. specialize (H _ Hbpm).
  destruct (arpeggio_timing_independent notes (Num.of_Z (setBpm bpm))
              pattern division vel twoOct) as [Hstep Hgate].
  fold arp in Hstep, Hgate. rewrite <- Hstep, <- Hgate in H.
  destruct H as (H1 & H2 & H3 & H4).
  repeat split; try done.
  - unfold arp, generateArpeggio. simpl. rewrite note_imap by done.
    fold base. destruct twoOct; [done|by rewrite app_nil_r].
  - unfold arp, generateArpeggio in *. simpl in *.
    rewrite list_lookup_imap in H.
    destruct (_ !! i) as [n|]; simpl in H; [|done]. by injection H as <-.
  - unfold arp, generateArpeggio in *. simpl in *.
    rewrite list_lookup_imap in H.
    destruct (_ !! i) as [n|]; simpl in H; [|done]. by injection H as <-.
Qed.

(** X13.  For a division that is not one of the six names the step, the
    gate, the total duration and every delay of the arpeggio are NaN,
    whatever the tempo; the notes are still those of the pattern.  Stated
    for the default options, without octave doubling. *)
Theorem generateArpeggio_unknown_division notes (bpm : float)
    (pattern division : string) (vel : Z) :
  division ∉ ["1/4"; "1/8"; "1/12"; "1/16"; "1/24"; "1/32"] →
  let arp :=
    generateArpeggio randomIndex notes bpm pattern division vel false in
  stepMs arp = PrimFloat.nan ∧
  gateMs arp = PrimFloat.nan ∧
  totalDurationMs arp = PrimFloat.nan ∧
  Forall (λ event, delayMs event = PrimFloat.nan) (sequence arp) ∧
  note <$> sequence arp = applyArpPattern randomIndex notes pattern.
Proof.
  intros Hdiv arp.
  assert (Hnone : NOTE_DIVISIONS !! division = None).
  { apply not_elem_of_list_to_map_1. exact Hdiv. }
  assert (Hstep : stepMs arp = PrimFloat.nan).
  { unfold arp, generateArpeggio, divideByDivision. simpl. by rewrite Hnone. }
  split; [done|].
  split; [unfold arp, generateArpeggio in *; simpl in *; by rewrite Hstep|].
  split; [unfold arp, generateArpeggio in *; simpl in *;
          rewrite Hstep; apply mul_nan|].
  split.
  - apply Forall_forall. intros event Hin.
    apply list_elem_of_lookup in Hin as [i Hi].
    unfold arp, generateArpeggio in *. simpl in *.
    rewrite list_lookup_imap in Hi.
    destruct (_ !! i) as [n|]; simpl in Hi; [|done].
    injection Hi as <-. simpl. rewrite Hstep. apply mul_nan.
  - unfold arp, generateArpeggio. simpl. by rewrite note_imap.
Qed.

End Arpeggio.

End Sequences.

Lemma generateArpeggio_gate_within_step_witness :
  let arp :=
    generateArpeggio (λ _, 0%nat) [60; 64; 67] (Num.of_Z (setBpm 300))
      "upDown" "1/16" 100 true in
  let base := applyArpPattern (λ _, 0%nat) [60; 64; 67] "upDown" in
  PrimFloat.ltb 0 (gateMs arp) = true ∧
  PrimFloat.ltb (gateMs arp) (stepMs arp) = true ∧
  PrimFloat.leb 31.25 (stepMs arp) = true ∧
  PrimFloat.leb (stepMs arp) 1500 = true ∧
  note <$> sequence arp
  = base ++ (if true
             then filter (λ n, n ≤ 127) ((λ n, n + 12) <$> base)
             else []) ∧
  (∀ (i : nat) event,
     sequence arp !! i = Some event →
     delayMs event = (Num.of_nat i * stepMs arp)%float ∧
     durationMs event = Some (gateMs arp)).
Proof.
  apply (generateArpeggio_gate_within_step (λ _, 0%nat) [60; 64; 67] 300
           "upDown" "1/16" 100 true).
  by_computation.
Defined.

Lemma generateArpeggio_unknown_division_witness :
  let arp :=
    generateArpeggio (λ _, 0%nat) [60; 64; 67] 120%float "up" "1/7" 100
      false in
  stepMs arp = PrimFloat.nan ∧
  gateMs arp = PrimFloat.nan ∧
  totalDurationMs arp = PrimFloat.nan ∧
  Forall (λ event, delayMs event = PrimFloat.nan) (sequence arp) ∧
  note <$> sequence arp = applyArpPattern (λ _, 0%nat) [60; 64; 67] "up".
Proof.
  apply (generateArpeggio_unknown_division (λ _, 0%nat) [60; 64; 67]
           120%float "up" "1/7" 100).
  by_computation.
Defined.

(** ** Note names *)

Lemma append_assoc (a b c : string) : (a +:+ b) +:+ c = a +:+ (b +:+ c).
Proof.
  induction a as [|ch a IH]; [reflexivity|].
  change (String ch ((a +:+ b) +:+ c) = String ch (a +:+ (b +:+ c))).
  by rewrite IH.
Qed.

Lemma midiNoteToName_distinct_all :
  NoDup (midiNoteToName <$> seqZ 0 128).
Proof. by_computation. Qed.

Lemma midiNoteToName_shape_all :
  Forall (λ midiNote,
            found (NOTE_NAMES !! Z.to_nat (midiNote mod 12)) (λ letter,
              midiNoteToName midiNote = letter +:+ pretty (midiNote / 12 - 1)))
         (seqZ 0 128).
Proof. by_computation. Qed.

Lemma NoDup_fmap_inj {A B} (f : A → B) (l : list A) x y :
  NoDup (f <$> l) → x ∈ l → y ∈ l → f x = f y → x = y.
Proof.
  induction l as [|a l IH]; intros Hnd Hx Hy Hf; [by apply elem_of_nil in Hx|].
  rewrite fmap_cons in Hnd. apply NoDup_cons in Hnd as [Hnotin Hnd].
  apply elem_of_cons in Hx as [->|Hx]; apply elem_of_cons in Hy as [->|Hy].
  - done.
  - exfalso. apply Hnotin. rewrite Hf. apply list_elem_of_fmap. eauto.
  - exfalso. apply Hnotin. rewrite <- Hf. apply list_elem_of_fmap. eauto.
  - by apply IH.
Qed.

(** X14.  On the notes of [0,127] [midiNoteToName] is one-to-one: two
    notes with the same name are the same note.  The name is the note
    letter of the pitch class followed by the octave number
    [midiNote / 12 - 1], which runs from -1 to 9. *)
Theorem midiNoteToName_one_to_one (a b : Z) :
  0 ≤ a ≤ 127 → 0 ≤ b ≤ 127 →
  (midiNoteToName a = midiNoteToName b → a = b) ∧
  ∃ letter,
    NOTE_NAMES !! Z.to_nat (a mod 12) = Some letter ∧
    midiNoteToName a = letter +:+ pretty (a / 12 - 1) ∧
    -1 ≤ a / 12 - 1 ≤ 9.
Proof.
  intros Ha Hb.
  assert (Ha' : a ∈ seqZ 0 128) by (apply elem_of_seqZ; lia).
  assert (Hb' : b ∈ seqZ 0 128) by (apply elem_of_seqZ; lia).
  split.
  - by apply (NoDup_fmap_inj _ _ _ _ midiNoteToName_distinct_all).
  - pose proof midiNoteToName_shape_all as H.
    rewrite Forall_forall in H. specialize (H _ Ha').
    destruct (NOTE_NAMES !! Z.to_nat (a mod 12)) as [letter|]; [|done].
    exists letter. split; [done|]. split; [done|].
    pose proof (Z.div_le_mono 0 a 12). pose proof (Z.div_le_mono a 127 12).
    change (0 / 12) with 0 in *. change (127 / 12) with 10 in *. lia.
Qed.

Lemma midiNoteToName_one_to_one_witness :
  (midiNoteToName 60 = midiNoteToName 72 → 60 = 72) ∧
  ∃ letter,
    NOTE_NAMES !! Z.to_nat (60 mod 12) = Some letter ∧
    midiNoteToName 60 = letter +:+ pretty (60 / 12 - 1) ∧
    -1 ≤ 60 / 12 - 1 ≤ 9.
Proof. apply (midiNoteToName_one_to_one 60 72); lia. Defined.

Lemma noteNameAt_defined (rootNote : Z) :
  0 ≤ rootNote →
  ∃ letter, noteNameAt (rem rootNote 12) = Some letter ∧
            NOTE_NAMES !! Z.to_nat (rootNote mod 12) = Some letter.
Proof.
  intros Hr. unfold rem. rewrite Z.rem_mod_nonneg by lia.
  pose proof (Z.mod_pos_bound rootNote 12) as Hb.
  unfold noteNameAt. rewrite decide_True by lia.
  destruct (NOTE_NAMES !! Z.to_nat (rootNote mod 12)) as [letter|] eqn:E;
    [eauto|].
  apply lookup_ge_None in E. simpl in E. lia.
Qed.

(** X15.  For a root note that is not negative, [getChordDisplayName]
    returns a name that begins with the note letter of the root's pitch
    class, whatever the chord type and the extensions, and the name is the
    same for the root an octave higher. *)
Theorem getChordDisplayName_starts_with_root (rootNote : Z)
    (chordType : string) (extensions : list string) :
  0 ≤ rootNote →
  ∃ letter suffix,
    NOTE_NAMES !! Z.to_nat (rootNote mod 12) = Some letter ∧
    getChordDisplayName rootNote chordType extensions
    = Some (letter +:+ suffix) ∧
    getChordDisplayName (rootNote + 12) chordType extensions
    = Some (letter +:+ suffix).
Proof.
  intros Hr.
  destruct (noteNameAt_defined rootNote Hr) as (letter & Hname & Hletter).
  destruct (noteNameAt_defined (rootNote + 12)) as (letter' & Hname' & Hletter');
    [lia|].
  assert (letter' = letter) as ->.
  { replace ((rootNote + 12) mod 12) with (rootNote mod 12) in Hletter'
      by (replace (rootNote + 12) with (rootNote + 1 * 12) by lia;
          by rewrite Z_mod_plus_full).
    congruence. }
  exists letter. unfold getChordDisplayName. rewrite Hname, Hname'. simpl.
  case_decide.
  { eexists. split; [done|]. split; reflexivity. }
  assert (∀ name suffix more,
            name = Some (letter +:+ suffix) →
            Some (toStr name +:+ more) = Some (letter +:+ (suffix +:+ more)))
    as Hmore.
  { intros name suffix more ->. f_equal. exact (append_assoc _ _ _). }
  assert (∃ suffix,
            (if decide (chordType = "Min") then Some (letter +:+ "m")
             else if decide (chordType = "Sus") then Some (letter +:+ "sus4")
             else if decide (chordType = "Dim") then Some (letter +:+ "dim")
             else Some letter) = Some (letter +:+ suffix))
    as [suffix Hn].
  { repeat case_decide; try (eexists; reflexivity).
    exists "". f_equal. clear. induction letter as [|c l IH]; [done|].
    change (String c l = String c (l +:+ "")). by rewrite <- IH. }
  rewrite Hn.
  destruct extensions as [|e1 [|e2 [|e3 [|e4 [|e5 rest]]]]];
    try (eexists; split; [done|]; split; by apply Hmore).
  by exists suffix.
Qed.

Lemma getChordDisplayName_starts_with_root_witness :
  ∃ letter suffix,
    NOTE_NAMES !! Z.to_nat (61 mod 12) = Some letter ∧
    getChordDisplayName 61 "Min" ["6"; "m7"; "M7"] = Some (letter +:+ suffix) ∧
    getChordDisplayName (61 + 12) "Min" ["6"; "m7"; "M7"]
    = Some (letter +:+ suffix).
Proof.
  apply (getChordDisplayName_starts_with_root 61 "Min" ["6"; "m7"; "M7"]). lia.
Defined.

(** ** MIDI messages *)

Lemma status_command (base channel : Z) :
  Z.land base 0x0F = 0 → Z.land base 0xF0 = base →
  Z.land (Z.lor base (Z.land channel 0x0F)) 0xF0 = base ∧
  Z.land (Z.lor base (Z.land channel 0x0F)) 0x0F = Z.land channel 0x0F.
Proof.
  intros Hlow Hhigh.
  rewrite !Z.land_lor_distr_l, <- !Z.land_assoc, Hlow, Hhigh.
  change (Z.land 0x0F 0xF0) with 0. change (Z.land 0x0F 0x0F) with 0x0F.
  rewrite Z.land_0_r, Z.lor_0_r, Z.lor_0_l. done.
Qed.

(** X16.  What [noteOn] and [noteOff] send reads back through
    [handleMIDIMessage]: for every channel, note and velocity (any
    integers) the note-on message is read as a note-on of the note's low 7
    bits with the velocity's low 7 bits on the channel's low 4 bits, unless
    those velocity bits are 0, in which case it is read as a note-off; the
    note-off message is always read as a note-off of the same note and
    channel. *)
Theorem handleMIDIMessage_reads_sent_messages (channel note velocity : Z) :
  handleMIDIMessage (noteOnMessage channel note velocity)
  = (if decide (Z.land velocity 0x7F = 0)
     then InNoteOff (Some (Z.land note 0x7F)) (Z.land channel 0x0F)
     else InNoteOn (Z.land note 0x7F) (Z.land velocity 0x7F)
                   (Z.land channel 0x0F)) ∧
  handleMIDIMessage (noteOffMessage channel note)
  = InNoteOff (Some (Z.land note 0x7F)) (Z.land channel 0x0F) ∧
  (0 ≤ note ≤ 127 → Z.land note 0x7F = note) ∧
  (0 ≤ channel ≤ 15 → Z.land channel 0x0F = channel).
Proof.
  destruct (status_command 0x90 channel) as [Hc90 Hl90]; [done|done|].
  destruct (status_command 0x80 channel) as [Hc80 Hl80]; [done|done|].
  assert (0 ≤ Z.land velocity 0x7F) as Hv by (apply Z.land_nonneg; lia).
  split; [|split; [|split]].
  - unfold handleMIDIMessage, noteOnMessage. simpl.
    rewrite Hc90, Hl90. repeat case_decide; try done; lia.
  - unfold handleMIDIMessage, noteOffMessage. simpl.
    rewrite Hc80, Hl80. repeat case_decide; try done; lia.
  - intros Hn. change 0x7F with (Z.ones 7).
    rewrite Z.land_ones by lia. apply Z.mod_small. simpl. lia.
  - intros Hch. change 0x0F with (Z.ones 4).
    rewrite Z.land_ones by lia. apply Z.mod_small. simpl. lia.
Qed.

(** ** The registry under sequences of calls *)

Section RegistryMore.

Import OrchardMIDI.

Implicit Types this : OrchardMIDI.t.

Lemma NoDup_setDelete (s : list Z) x : NoDup s → NoDup (setDelete s x).
Proof. apply NoDup_filter. Qed.

Lemma NoDup_setDelete_all (s l : list Z) :
  NoDup s → NoDup (foldl setDelete s l).
Proof.
  revert s. induction l as [|x l IH]; intros s Hs; simpl; [done|].
  by apply IH, NoDup_setDelete.
Qed.

Lemma setActive_wf this channel set :
  registryWellFormed this → channel ∈ registeredChannels → NoDup set →
  registryWellFormed (setActive this channel set).
Proof.
  intros Hwf Hch Hnd other. specialize (Hwf other). simpl.
  destruct (decide (channel = other)) as [->|Hne].
  - rewrite decide_True by done. rewrite lookup_insert_eq. eauto.
  - rewrite lookup_insert_ne by done. done.
Qed.

Lemma send_wf this port bytes :
  registryWellFormed this → registryWellFormed (send this port bytes).
Proof. done. Qed.

Lemma call_wf this c :
  registryWellFormed this →
  from_option (λ channel, channel ∈ registeredChannels) True (callChannel c) →
  ∃ this', call this c = Ok this' ∧ registryWellFormed this'.
Proof.
  intros Hwf Hch. destruct c as [port|channel note vel|channel note|channel];
    simpl in *.
  - eexists. split; [done|]. done.
  - pose proof (Hwf channel) as Hc. rewrite decide_True in Hc by done.
    destruct Hc as (active & Hact & Hnd). unfold noteOn.
    destruct (output this) as [port|]; [|eauto]. simpl. rewrite Hact.
    eexists. split; [done|].
    apply setActive_wf; [by apply send_wf|done|by apply setAdd_NoDup].
  - pose proof (Hwf channel) as Hc. rewrite decide_True in Hc by done.
    destruct Hc as (active & Hact & Hnd). unfold noteOff.
    destruct (output this) as [port|]; [|eauto]. simpl. rewrite Hact.
    eexists. split; [done|].
    apply setActive_wf; [by apply send_wf|done|by apply NoDup_setDelete].
  - pose proof (Hwf channel) as Hc. rewrite decide_True in Hc by done.
    destruct Hc as (active & Hact & Hnd). unfold allNotesOff. rewrite Hact.
    destruct (output this) as [port|] eqn:Hout.
    + rewrite (forEachNoteOff_output _ port _ _ active Hout Hact).
      eexists. split; [done|].
      intros other. specialize (Hwf other). simpl.
      destruct (decide (channel = other)) as [->|Hne].
      * rewrite decide_True by done. rewrite lookup_insert_eq.
        eexists. split; [done|]. by apply NoDup_setDelete_all.
      * by rewrite lookup_insert_ne.
    + rewrite forEachNoteOff_no_output by done. eauto.
Qed.

Lemma constructor_wf : registryWellFormed constructor.
Proof.
  intros channel. case_decide as Hch.
  - unfold registeredChannels in Hch.
    repeat (apply elem_of_cons in Hch as [->|Hch];
            [exists []; split; [done|constructor]|]).
    by apply elem_of_nil in Hch.
  - unfold registeredChannels in Hch.
    rewrite !not_elem_of_cons in Hch. destruct Hch as (? & ? & ? & _).
    unfold constructor. simpl.
    by rewrite !lookup_insert_ne, lookup_empty.
Qed.

Lemma callAll_snoc this calls c :
  callAll this (calls ++ [c]) = (this' ← callAll this calls; call this' c).
Proof. unfold callAll. by rewrite foldl_app. Qed.

(** X17.  Starting from a freshly constructed MIDI object, no sequence of
    [selectOutput], [noteOn], [noteOff] and [allNotesOff] calls on the
    channels 0, 1 and 2 ever throws, and after it exactly those three
    channels have a registry, each free of duplicates.  With an output
    selected, [noteOn] and [noteOff] on any other channel throw a
    [TypeError], while [allNotesOff] on such a channel does nothing. *)
Theorem registry_calls_never_throw (calls : list MidiCall) :
  Forall (λ c, from_option (λ channel, channel ∈ registeredChannels) True
                           (callChannel c)) calls →
  ∃ this,
    callAll constructor calls = Ok this ∧
    registryWellFormed this ∧
    ∀ channel note vel,
      channel ∉ registeredChannels →
      allNotesOff this channel = Ok this ∧
      (is_Some (output this) →
       noteOn this channel note vel = Throw TypeError ∧
       noteOff this channel note = Throw TypeError).
Proof.
  intros Hcalls.
  assert (∃ this, callAll constructor calls = Ok this ∧ registryWellFormed this)
    as (this & Hall & Hwf).
  { induction calls as [|c calls IH] using rev_ind.
    - exists constructor. split; [done|apply constructor_wf].
    - apply Forall_app in Hcalls as [Hcalls Hc].
      apply Forall_cons in Hc as [Hc _].
      destruct (IH Hcalls) as (this & Hall & Hwf).
      destruct (call_wf this c Hwf Hc) as (this' & Hcall & Hwf').
      exists this'. split; [|done].
      rewrite callAll_snoc, Hall. exact Hcall. }
  exists this. split; [done|]. split; [done|].
  intros channel note vel Hch.
  pose proof (Hwf channel) as Hnone. rewrite decide_False in Hnone by done.
  split.
  - unfold allNotesOff. by rewrite Hnone.
  - intros [port Hout]. unfold noteOn, noteOff. rewrite Hout. simpl.
    by rewrite Hnone.
Qed.

Lemma noteOn_output this channel note vel port active :
  output this = Some port →
  activeNotes this !! channel = Some active →
  noteOn this channel note vel
  = Ok {| output := Some port;
          activeNotes := <[channel := setAdd active note]> (activeNotes this);
          sent := sent this ++ [(port, noteOnMessage channel note vel)] |}.
Proof.
  intros Hout Hact. unfold noteOn. rewrite Hout. simpl. rewrite Hact.
  unfold setActive. simpl. by rewrite Hout.
Qed.

Lemma noteOff_output this channel note port active :
  output this = Some port →
  activeNotes this !! channel = Some active →
  noteOff this channel note
  = Ok {| output := Some port;
          activeNotes := <[channel := setDelete active note]> (activeNotes this);
          sent := sent this ++ [(port, noteOffMessage channel note)] |}.
Proof.
  intros Hout Hact. unfold noteOff. rewrite Hout. simpl. rewrite Hact.
  unfold setActive. simpl. by rewrite Hout.
Qed.

Lemma setDelete_setAdd_fresh (s : list Z) x :
  x ∉ s → setDelete (setAdd s x) x = s.
Proof.
  intros Hx. unfold setAdd. rewrite decide_False by done.
  unfold setDelete. rewrite filter_app, filter_cons, decide_False by tauto.
  rewrite filter_nil, app_nil_r. apply filter_all.
  apply Forall_forall. intros y Hy ->. done.
Qed.

(** X18.  The registry keeps notes as a set, without counting.  With an
    output selected and a registered channel, starting a note twice and
    stopping it once sends three messages (two note-ons, one note-off)
    and leaves the note out of the registry, every other note of the
    channel staying registered; when the note was not sounding before, the
    registry is back to what it was. *)
Theorem note_started_twice_stopped_once this (channel note vel : Z)
    (port : nat) (active : list Z) :
  output this = Some port →
  activeNotes this !! channel = Some active →
  ∃ on1 on2 off,
    noteOn this channel note vel = Ok on1 ∧
    noteOn on1 channel note vel = Ok on2 ∧
    activeNotes on2 = activeNotes on1 ∧
    noteOff on2 channel note = Ok off ∧
    sent off
    = sent this ++ [(port, noteOnMessage channel note vel);
                    (port, noteOnMessage channel note vel);
                    (port, noteOffMessage channel note)] ∧
    activeNotes off !! channel = Some (setDelete active note) ∧
    (∀ x, x ∈ setDelete active note ↔ x ∈ active ∧ x ≠ note) ∧
    (note ∉ active → NoDup active → activeNotes off = activeNotes this).
Proof.
  intros Hout Hact.
  assert (setAdd (setAdd active note) note = setAdd active note) as Hsame.
  { unfold setAdd at 1. rewrite decide_True; [done|].
    apply elem_of_setAdd. by right. }
  assert (setDelete (setAdd active note) note = setDelete active note) as Hdel.
  { unfold setAdd. case_decide; [done|].
    unfold setDelete. rewrite filter_app, filter_cons, decide_False by tauto.
    by rewrite filter_nil, app_nil_r. }
  eexists _, _, _.
  split; [by apply noteOn_output|].
  split; [apply noteOn_output; [done|simpl; apply lookup_insert_eq]|].
  simpl. rewrite Hsame, insert_insert_eq. split; [done|].
  split; [apply noteOff_output; [done|simpl; apply lookup_insert_eq]|].
  simpl. rewrite insert_insert_eq, lookup_insert_eq, Hdel.
  split; [by rewrite <- !app_assoc|].
  split; [done|]. split; [apply elem_of_setDelete|].
  intros Hfresh _.
  assert (setDelete active note = active) as ->.
  { apply filter_all. apply Forall_forall. intros y Hy ->. done. }
  by apply insert_id.
Qed.

End RegistryMore.

Lemma registry_calls_never_throw_witness :
  ∃ this,
    callAll OrchardMIDI.constructor
      [SelectOutput (Some 0%nat); NoteOn 0 60 100; NoteOn 2 36 100;
       AllNotesOff 0; NoteOff 2 36]
    = Ok this ∧
    registryWellFormed this ∧
    ∀ channel note vel,
      channel ∉ registeredChannels →
      OrchardMIDI.allNotesOff this channel = Ok this ∧
      (is_Some (OrchardMIDI.output this) →
       OrchardMIDI.noteOn this channel note vel = Throw TypeError ∧
       OrchardMIDI.noteOff this channel note = Throw TypeError).
Proof.
  apply (registry_calls_never_throw
           [SelectOutput (Some 0%nat); NoteOn 0 60 100; NoteOn 2 36 100;
            AllNotesOff 0; NoteOff 2 36]).
  unfold registeredChannels. repeat constructor; simpl; try by_computation.
Defined.

Lemma note_started_twice_stopped_once_witness :
  ∃ on1 on2 off,
    OrchardMIDI.noteOn (OrchardEngine.midi quantizingEngine) 0 60 100 = Ok on1 ∧
    OrchardMIDI.noteOn on1 0 60 100 = Ok on2 ∧
    OrchardMIDI.activeNotes on2 = OrchardMIDI.activeNotes on1 ∧
    OrchardMIDI.noteOff on2 0 60 = Ok off ∧
    OrchardMIDI.sent off
    = OrchardMIDI.sent (OrchardEngine.midi quantizingEngine)
      ++ [(0%nat, noteOnMessage 0 60 100);
          (0%nat, noteOnMessage 0 60 100);
          (0%nat, noteOffMessage 0 60)] ∧
    OrchardMIDI.activeNotes off !! 0 = Some (setDelete [] 60) ∧
    (∀ x, x ∈ setDelete [] 60 ↔ x ∈ ([] : list Z) ∧ x ≠ 60) ∧
    (60 ∉ ([] : list Z) → NoDup ([] : list Z) →
     OrchardMIDI.activeNotes off
     = OrchardMIDI.activeNotes (OrchardEngine.midi quantizingEngine)).
Proof.
  apply (note_started_twice_stopped_once
           (OrchardEngine.midi quantizingEngine) 0 60 100 0%nat []).
  - reflexivity.
  - vm_compute. reflexivity.
Defined.

(** ** Pass-through notes from press to release *)

Section PassThrough.

Import OrchardEngine MIDI_CHANNELS.

Variable updateOutputWithOptions : t → Z → option Z → option string → result t.
Variable stopOutput : t → result t.

Implicit Types this : OrchardEngine.t.

Lemma state_restored (st : State.t) (set : list Z) :
  set = State.passThroughNotes st →
  State.set_passThroughNotes (State.set_passThroughNotes st set) set = st ∧
  ∀ other,
    State.set_passThroughNotes (State.set_passThroughNotes st other) set = st.
Proof. intros ->. by destruct st. Qed.

(** X19.  A key pressed while its effective mode is pass-through ("off"),
    that is not already held and has no quantize entry, is passed
    unchanged to the MIDI note-on on the chord channel; its release passes
    the same note to the MIDI note-off, and the engine state is then
    exactly what it was before the press. *)
Theorem passthrough_press_release_restores_state this (midiNote vel : Z) :
  getModeForNote this midiNote = "off" →
  midiNote ∉ State.passThroughNotes (state this) →
  sentFor this midiNote = None →
  is_Some (OrchardMIDI.activeNotes (midi this) !! CHORD) →
  ∃ pressed released,
    onMIDINoteOn updateOutputWithOptions this midiNote vel = Ok pressed ∧
    OrchardMIDI.noteOn (midi this) CHORD midiNote vel = Ok (midi pressed) ∧
    midiNote ∈ State.passThroughNotes (state pressed) ∧
    onMIDINoteOff stopOutput pressed midiNote = Ok released ∧
    OrchardMIDI.noteOff (midi pressed) CHORD midiNote = Ok (midi released) ∧
    state released = state this.
Proof.
  intros Hmode Hfresh Hnone Hreg.
  destruct (noteOn_registered (midi this) CHORD midiNote vel Hreg)
    as (m1 & Hon & Hreg1 & _).
  destruct (noteOff_registered m1 CHORD midiNote Hreg1) as (m2 & Hoff & _).
  eexists _, _.
  split.
  { unfold onMIDINoteOn. rewrite Hmode, decide_True by done. simpl.
    rewrite Hon. reflexivity. }
  split; [done|]. simpl.
  split; [apply elem_of_setAdd; by right|].
  split.
  { unfold onMIDINoteOff. simpl.
    rewrite decide_True by (apply elem_of_setAdd; by right).
    unfold sentFor in Hnone. rewrite Hnone. rewrite Hoff. reflexivity. }
  split; [done|]. simpl.
  rewrite setDelete_setAdd_fresh by done.
  by apply state_restored.
Qed.

(** X20.  The release of a key looks only at the quantize entries, not at
    how the key was pressed.  A key pressed in pass-through mode while an
    entry from an earlier quantised press of the same key is still
    recorded is sent unchanged on note-on, but its release sends the
    note-off of the recorded quantised note; when the two differ and an
    output is selected, the pressed note gets no note-off and remains in
    the chord channel's registry. *)
Theorem passthrough_release_follows_stale_entry this
    (midiNote vel quantized : Z) (port : nat) :
  getModeForNote this midiNote = "off" →
  sentFor this midiNote = Some quantized →
  OrchardMIDI.output (midi this) = Some port →
  is_Some (OrchardMIDI.activeNotes (midi this) !! CHORD) →
  ∃ pressed released active,
    onMIDINoteOn updateOutputWithOptions this midiNote vel = Ok pressed ∧
    onMIDINoteOff stopOutput pressed midiNote = Ok released ∧
    OrchardMIDI.sent (midi released)
    = OrchardMIDI.sent (midi this)
      ++ [(port, noteOnMessage CHORD midiNote vel);
          (port, noteOffMessage CHORD quantized)] ∧
    sentFor released midiNote = None ∧
    (midiNote ∉ State.passThroughNotes (state released)) ∧
    OrchardMIDI.activeNotes (midi released) !! CHORD = Some active ∧
    (quantized ≠ midiNote → midiNote ∈ active).
Proof.
  intros Hmode Hentry Hout [active Hact].
  pose proof (noteOn_output (midi this) CHORD midiNote vel port active
                Hout Hact) as Hon.
  eexists _, _, _.
  split.
  { unfold onMIDINoteOn. rewrite Hmode, decide_True by done. simpl.
    rewrite Hon. reflexivity. }
  split.
  { unfold onMIDINoteOff. simpl.
    rewrite decide_True by (apply elem_of_setAdd; by right).
    unfold sentFor in Hentry. rewrite Hentry.
    erewrite noteOff_output; [|done|simpl; apply lookup_insert_eq].
    reflexivity. }
  simpl. split; [by rewrite <- app_assoc|].
  split.
  { unfold sentFor in *. simpl.
    destruct (State.quantizedNoteMap (state this)); simpl; [|done].
    apply lookup_delete_eq. }
  split; [rewrite elem_of_setDelete; tauto|].
  split; [rewrite insert_insert_eq; apply lookup_insert_eq|].
  intros Hne. apply elem_of_setDelete. split; [|done].
  apply elem_of_setAdd. by right.
Qed.

End PassThrough.

Lemma passthrough_press_release_restores_state_witness :
  let upd := λ this (_ : Z) (_ : option Z) (_ : option string), Ok this in
  let stop := λ this : OrchardEngine.t, Ok this in
  ∃ pressed released,
    OrchardEngine.onMIDINoteOn upd quantizingEngine 65 100 = Ok pressed ∧
    OrchardMIDI.noteOn (OrchardEngine.midi quantizingEngine)
      MIDI_CHANNELS.CHORD 65 100
    = Ok (OrchardEngine.midi pressed) ∧
    65 ∈ State.passThroughNotes (OrchardEngine.state pressed) ∧
    OrchardEngine.onMIDINoteOff stop pressed 65 = Ok released ∧
    OrchardMIDI.noteOff (OrchardEngine.midi pressed) MIDI_CHANNELS.CHORD 65
    = Ok (OrchardEngine.midi released) ∧
    OrchardEngine.state released = OrchardEngine.state quantizingEngine.
Proof.
  apply (passthrough_press_release_restores_state
           (λ this (_ : Z) (_ : option Z) (_ : option string), Ok this)
           (λ this : OrchardEngine.t, Ok this) quantizingEngine 65 100).
  - vm_compute. reflexivity.
  - by_computation.
  - vm_compute. reflexivity.
  - exists []. vm_compute. reflexivity.
Defined.

Lemma passthrough_release_follows_stale_entry_witness :
  let upd := λ this (_ : Z) (_ : option Z) (_ : option string), Ok this in
  let stop := λ this : OrchardEngine.t, Ok this in
  ∃ pressed released active,
    OrchardEngine.onMIDINoteOn upd switchedZoneEngine 49 100 = Ok pressed ∧
    OrchardEngine.onMIDINoteOff stop pressed 49 = Ok released ∧
    OrchardMIDI.sent (OrchardEngine.midi released)
    = OrchardMIDI.sent (OrchardEngine.midi switchedZoneEngine)
      ++ [(0%nat, noteOnMessage MIDI_CHANNELS.CHORD 49 100);
          (0%nat, noteOffMessage MIDI_CHANNELS.CHORD 48)] ∧
    sentFor released 49 = None ∧
    (49 ∉ State.passThroughNotes (OrchardEngine.state released)) ∧
    OrchardMIDI.activeNotes (OrchardEngine.midi released)
      !! MIDI_CHANNELS.CHORD = Some active ∧
    (48 ≠ 49 → 49 ∈ active).
Proof.
  apply (passthrough_release_follows_stale_entry
           (λ this (_ : Z) (_ : option Z) (_ : option string), Ok this)
           (λ this : OrchardEngine.t, Ok this) switchedZoneEngine 49 100 48
           0%nat).
  - vm_compute. reflexivity.
  - vm_compute. reflexivity.
  - reflexivity.
  - exists [48]. vm_compute. reflexivity.
Defined.

(** ** Scheduled batches and their timers *)

Section SchedulerFacts.

Import Scheduler.

Implicit Types this : Scheduler.t.
Implicit Types ts : list Timer.

(** What the scheduler keeps true through every step. *)
Local Abbreviation schedulerInv this :=
  (timersTracked this ∧ timersRegistered this
   ∧ registryWellFormed (midi this)).

Lemma elem_of_clearTimeout ts id timer :
  timer ∈ clearTimeout ts id ↔ timer ∈ ts ∧ timerId timer ≠ id.
Proof. unfold clearTimeout. rewrite list_elem_of_filter. tauto. Qed.

Lemma elem_of_clearTimeout_all ts ids timer :
  timer ∈ foldl clearTimeout ts ids ↔ timer ∈ ts ∧ timerId timer ∉ ids.
Proof.
  revert ts. induction ids as [|id ids IH]; intros ts; simpl.
  - rewrite elem_of_nil. tauto.
  - rewrite IH, elem_of_clearTimeout, not_elem_of_cons. tauto.
Qed.

(** Cancelling clears every tracked timer. *)
Lemma cancelPending_timers this :
  timersTracked this → timers (cancelPending this) = [].
Proof.
  intros [Htracked _]. simpl.
  destruct (foldl clearTimeout _ _) as [|timer ts] eqn:E; [done|].
  assert (timer ∈ foldl clearTimeout (timers this) (pendingTimeouts this))
    as Hin by (rewrite E; left).
  apply elem_of_clearTimeout_all in Hin as [Hin Hnot].
  rewrite Forall_forall in Htracked. destruct (Htracked _ Hin). done.
Qed.

Lemma constructor_inv : schedulerInv constructor.
Proof.
  split; [|split].
  - split; [constructor|constructor].
  - constructor.
  - apply constructor_wf.
Qed.

Lemma cancelPending_inv this :
  schedulerInv this → schedulerInv (cancelPending this).
Proof.
  intros (Ht & Hr & Hwf). split; [|split; [|done]].
  - unfold timersTracked. rewrite cancelPending_timers by done.
    split; constructor.
  - unfold timersRegistered. rewrite cancelPending_timers by done.
    constructor.
Qed.

Lemma setTimeoutAndPush_inv this cb d :
  schedulerInv this →
  callbackChannel cb ∈ registeredChannels →
  schedulerInv (setTimeoutAndPush this cb d).
Proof.
  intros ([Htracked Hnd] & Hr & Hwf) Hcb. split; [|split; [|done]].
  - split; simpl.
    + apply Forall_app. split.
      * eapply Forall_impl; [exact Htracked|]. simpl.
        intros timer [Hin Hlt]. split; [apply elem_of_app; by left|lia].
      * constructor; [|constructor]. simpl.
        split; [apply elem_of_app; right; by left|lia].
    + rewrite fmap_app. apply NoDup_app. split; [done|]. split.
      * intros id Hid [->|[]%elem_of_nil]%elem_of_cons.
        apply list_elem_of_fmap in Hid as (timer & Heq & Hin).
        rewrite Forall_forall in Htracked. destruct (Htracked _ Hin).
        simpl in Heq. lia.
      * apply NoDup_singleton.
  - unfold timersRegistered. simpl. apply Forall_app. split; [done|].
    by constructor.
Qed.

Lemma clearTimeout_inv this id :
  schedulerInv this →
  schedulerInv {| midi := midi this; pendingTimeouts := pendingTimeouts this;
                  timers := clearTimeout (timers this) id;
                  nextId := nextId this |}.
Proof.
  intros ([Htracked Hnd] & Hr & Hwf). split; [|split; [|done]].
  - split; simpl.
    + apply Forall_forall. intros timer [Hin _]%elem_of_clearTimeout.
      rewrite Forall_forall in Htracked. auto.
    + unfold clearTimeout. eapply sublist_NoDup; [exact Hnd|].
      apply fmap_sublist, sublist_filter.
  - unfold timersRegistered. simpl.
    apply Forall_forall. intros timer [Hin _]%elem_of_clearTimeout.
    unfold timersRegistered in Hr. rewrite Forall_forall in Hr. auto.
Qed.

Lemma with_midi_inv this m :
  schedulerInv this → registryWellFormed m → schedulerInv (with_midi this m).
Proof. intros (Ht & Hr & _) Hwf. done. Qed.

Lemma scheduleBatch_fold_inv events :
  ∀ this,
    schedulerInv this →
    Forall (λ event, channel event ∈ registeredChannels) events →
    schedulerInv
      (foldl (λ this event,
                setTimeoutAndPush this (PlayEvent event)
                                  (orZero (timestamp event)))
             this events).
Proof.
  induction events as [|event events IH]; intros this Hinv Hev; simpl; [done|].
  apply Forall_cons in Hev as [Hch Hev].
  apply IH; [|done]. by apply setTimeoutAndPush_inv.
Qed.

Lemma run_inv this cb :
  schedulerInv this →
  callbackChannel cb ∈ registeredChannels →
  ∃ this', run this cb = Ok this' ∧ schedulerInv this'.
Proof.
  intros Hinv Hcb. pose proof Hinv as (_ & _ & Hwf).
  destruct cb as [event|ch n]; simpl in *.
  - case_decide.
    + destruct (call_wf (midi this) (NoteOn (channel event) (note event)
                                            (velocity event)) Hwf Hcb)
        as (m & Hcall & Hwf').
      simpl in Hcall. rewrite Hcall. simpl.
      destruct (truthy (durationMs event)); eexists; (split; [done|]).
      * apply setTimeoutAndPush_inv; [by apply with_midi_inv|done].
      * by apply with_midi_inv.
    + destruct (call_wf (midi this) (NoteOff (channel event) (note event))
                  Hwf Hcb) as (m & Hcall & Hwf').
      simpl in Hcall. rewrite Hcall. simpl.
      eexists. split; [done|]. by apply with_midi_inv.
  - destruct (call_wf (midi this) (NoteOff ch n) Hwf Hcb)
      as (m & Hcall & Hwf').
    simpl in Hcall. rewrite Hcall. simpl.
    eexists. split; [done|]. by apply with_midi_inv.
Qed.

Lemma fire_inv this id :
  schedulerInv this → ∃ this', fire this id = Ok this' ∧ schedulerInv this'.
Proof.
  intros Hinv. unfold fire.
  destruct (list_find _ _) as [[i timer]|] eqn:Hfind; [|eauto].
  apply list_find_Some in Hfind as (Hi & _ & _).
  apply run_inv; [by apply clearTimeout_inv|].
  destruct Hinv as (_ & Hr & _). unfold timersRegistered in Hr.
  rewrite Forall_forall in Hr. apply Hr.
  apply list_elem_of_lookup. eauto.
Qed.

Lemma step_inv this s :
  schedulerInv this → stepRegistered s →
  ∃ this', step this s = Ok this' ∧ schedulerInv this'.
Proof.
  intros Hinv Hs. destruct s as [events cancel| |id|c]; simpl in *.
  - eexists. split; [done|]. unfold scheduleBatch.
    apply scheduleBatch_fold_inv; [|done].
    destruct cancel; [by apply cancelPending_inv|done].
  - eexists. split; [done|]. by apply cancelPending_inv.
  - by apply fire_inv.
  - destruct Hinv as (Ht & Hr & Hwf).
    destruct (call_wf (midi this) c Hwf Hs) as (m & Hcall & Hwf').
    rewrite Hcall. simpl. eexists. split; [done|]. done.
Qed.

Lemma steps_snoc this l s :
  steps this (l ++ [s]) = (this' ← steps this l; step this' s).
Proof. unfold steps. by rewrite foldl_app. Qed.

(** X21.  From a freshly constructed MIDI object, whatever batches are
    scheduled, whichever pending timers fire and whichever note methods
    are called on the channels 0, 1 and 2, no step throws and every
    timer still pending is recorded in [pendingTimeouts].  A
    [cancelPending] at that point therefore leaves no timer pending:
    nothing scheduled before it can fire afterwards, and firing any id
    changes nothing. *)
Theorem cancelPending_stops_everything_scheduled (l : list SchedulerStep) :
  Forall stepRegistered l →
  ∃ this,
    steps constructor l = Ok this ∧
    timersTracked this ∧
    registryWellFormed (midi this) ∧
    timers (cancelPending this) = [] ∧
    pendingTimeouts (cancelPending this) = [] ∧
    midi (cancelPending this) = midi this ∧
    ∀ id, fire (cancelPending this) id = Ok (cancelPending this).
Proof.
  intros Hl.
  assert (∃ this, steps constructor l = Ok this ∧ schedulerInv this)
    as (this & Hsteps & Ht & Hr & Hwf).
  { induction l as [|s l IH] using rev_ind.
    - exists constructor. split; [done|apply constructor_inv].
    - apply Forall_app in Hl as [Hl Hs]. apply Forall_cons in Hs as [Hs _].
      destruct (IH Hl) as (this & Hsteps & Hinv).
      destruct (step_inv this s Hinv Hs) as (this' & Hstep & Hinv').
      exists this'. split; [|done]. rewrite steps_snoc, Hsteps. exact Hstep. }
  exists this. split; [done|]. split; [done|]. split; [done|].
  split; [by apply cancelPending_timers|]. split; [done|]. split; [done|].
  intros id. unfold fire. by rewrite cancelPending_timers.
Qed.

End SchedulerFacts.

Lemma cancelPending_stops_everything_scheduled_witness :
  ∃ this,
    steps Scheduler.constructor
      [Direct (SelectOutput (Some 0%nat));
       ScheduleBatch
         [{| Scheduler.type := "noteOn"; Scheduler.channel := 1;
             Scheduler.note := 60; Scheduler.velocity := 100;
             Scheduler.timestamp := Some 0%float;
             Scheduler.durationMs := Some 212.5%float |}] true;
       Fire 1]
    = Ok this ∧
    timersTracked this ∧
    registryWellFormed (Scheduler.midi this) ∧
    Scheduler.timers (Scheduler.cancelPending this) = [] ∧
    Scheduler.pendingTimeouts (Scheduler.cancelPending this) = [] ∧
    Scheduler.midi (Scheduler.cancelPending this) = Scheduler.midi this ∧
    ∀ id, Scheduler.fire (Scheduler.cancelPending this) id
          = Ok (Scheduler.cancelPending this).
Proof.
  apply (cancelPending_stops_everything_scheduled
           [Direct (SelectOutput (Some 0%nat));
            ScheduleBatch
              [{| Scheduler.type := "noteOn"; Scheduler.channel := 1;
                  Scheduler.note := 60; Scheduler.velocity := 100;
                  Scheduler.timestamp := Some 0%float;
                  Scheduler.durationMs := Some 212.5%float |}] true;
            Fire 1]).
  unfold registeredChannels.
  repeat constructor; simpl; try by_computation.
Defined.

Section SchedulerBatches.

Import Scheduler.

Implicit Types this : Scheduler.t.

Lemma batchTimers_cons first event events :
  batchTimers first (event :: events)
  = {| timerId := first; delay := orZero (timestamp event);
       callback := PlayEvent event |}
    :: batchTimers (S first) events.
Proof.
  unfold batchTimers. simpl. f_equal; [f_equal; lia|].
  apply imap_ext. intros i e _. simpl. f_equal. lia.
Qed.

Lemma scheduleBatch_fold events :
  ∀ this,
    foldl (λ this event,
             setTimeoutAndPush this (PlayEvent event)
                               (orZero (timestamp event)))
          this events
    = {| midi := midi this;
         pendingTimeouts :=
           pendingTimeouts this
           ++ (timerId <$> batchTimers (nextId this) events);
         timers := timers this ++ batchTimers (nextId this) events;
         nextId := (nextId this + length events)%nat |}.
Proof.
  induction events as [|event events IH]; intros this.
  - destruct this. simpl. rewrite !app_nil_r. f_equal. lia.
  - rewrite batchTimers_cons. simpl. rewrite IH. simpl.
    rewrite <- !app_assoc. simpl. f_equal. lia.
Qed.

Lemma filter_all_timers (P : Timer → Prop) `{∀ x, Decision (P x)}
    (l : list Timer) :
  Forall P l → filter P l = l.
Proof.
  induction 1 as [|x l Hx Hl IH]; [done|].
  rewrite filter_cons. case_decide; [by rewrite IH|done].
Qed.

(** X22.  [scheduleBatch] creates one timer per event, in the order of
    the events, each set with the event's [timestamp || 0] and recorded
    in [pendingTimeouts]; it sends nothing itself.  With [cancelPrevious]
    the timers pending before are all cancelled, so the new ones are the
    only ones left; without it every earlier timer stays pending next to
    the new ones. *)
Theorem scheduleBatch_timers this (events : list MidiEvent) :
  timersTracked this →
  timers (scheduleBatch this events true)
  = batchTimers (nextId this) events ∧
  pendingTimeouts (scheduleBatch this events true)
  = timerId <$> batchTimers (nextId this) events ∧
  timers (scheduleBatch this events false)
  = timers this ++ batchTimers (nextId this) events ∧
  pendingTimeouts (scheduleBatch this events false)
  = pendingTimeouts this ++ (timerId <$> batchTimers (nextId this) events) ∧
  (∀ cancelPrevious,
     midi (scheduleBatch this events cancelPrevious) = midi this ∧
     timersTracked (scheduleBatch this events cancelPrevious)) ∧
  length (batchTimers (nextId this) events) = length events.
Proof.
  intros Ht. unfold scheduleBatch. rewrite !scheduleBatch_fold.
  pose proof (cancelPending_timers this Ht) as Hnone.
  simpl in Hnone. simpl. rewrite Hnone. simpl.
  repeat (split; [done|]). split.
  - intros cancel. rewrite scheduleBatch_fold.
    split; [by destruct cancel|].
    rewrite <- scheduleBatch_fold.
    assert (∀ l this0,
              timersTracked this0 →
              timersTracked
                (foldl (λ this event,
                          setTimeoutAndPush this (PlayEvent event)
                                            (orZero (timestamp event)))
                       this0 l)) as Hfold.
    { clear. induction l as [|e l IH]; intros this0 H0; simpl; [done|].
      apply IH. destruct H0 as [Htr Hnd]. split; simpl.
      - apply Forall_app. split.
        + eapply Forall_impl; [exact Htr|]. simpl.
          intros timer [Hin Hlt]. split; [apply elem_of_app; by left|lia].
        + constructor; [|constructor]. simpl.
          split; [apply elem_of_app; right; by left|lia].
      - rewrite fmap_app. apply NoDup_app. split; [done|]. split.
        + intros id Hid [->|[]%elem_of_nil]%elem_of_cons.
          apply list_elem_of_fmap in Hid as (timer & Heq & Hin).
          rewrite Forall_forall in Htr. destruct (Htr _ Hin).
          simpl in Heq. lia.
        + apply NoDup_singleton. }
    apply Hfold. destruct cancel; [|done].
    unfold timersTracked. rewrite cancelPending_timers by done.
    split; constructor.
  - unfold batchTimers. by rewrite length_imap.
Qed.

(** The timer that fires for an id is the pending timer with that id. *)
Lemma fire_pending this timer :
  timersTracked this →
  timer ∈ timers this →
  fire this (timerId timer)
  = run {| midi := midi this; pendingTimeouts := pendingTimeouts this;
           timers := clearTimeout (timers this) (timerId timer);
           nextId := nextId this |}
        (callback timer).
Proof.
  intros [_ Hnd] Hin. unfold fire.
  destruct (list_find _ _) as [[i found]|] eqn:Hfind.
  - apply list_find_Some in Hfind as (Hi & Heq & _).
    assert (found = timer) as ->; [|done].
    eapply (NoDup_fmap_inj timerId); [exact Hnd| |done|done].
    apply list_elem_of_lookup. eauto.
  - apply list_find_None in Hfind. rewrite Forall_forall in Hfind.
    by destruct (Hfind _ Hin).
Qed.

(** X23.  [allNotesOff] cancels nothing.  When an output is selected and
    a note-on for a channel is still scheduled, [allNotesOff] on that
    channel empties the registry but leaves the timer pending; when the
    timer fires afterwards the note-on is sent and the note enters the
    emptied registry. *)
Theorem allNotesOff_keeps_scheduled_note_on this (timer : Timer)
    (event : MidiEvent) (port : nat) (active : list Z) :
  timersTracked this →
  timer ∈ timers this →
  callback timer = PlayEvent event →
  type event = "noteOn" →
  OrchardMIDI.output (midi this) = Some port →
  OrchardMIDI.activeNotes (midi this) !! channel event = Some active →
  ∃ stopped fired,
    allNotesOff this (channel event) = Ok stopped ∧
    timers stopped = timers this ∧
    OrchardMIDI.activeNotes (midi stopped) !! channel event = Some [] ∧
    fire stopped (timerId timer) = Ok fired ∧
    OrchardMIDI.activeNotes (midi fired) !! channel event
    = Some [note event] ∧
    OrchardMIDI.sent (midi fired)
    = OrchardMIDI.sent (midi stopped)
      ++ [(port, noteOnMessage (channel event) (note event)
                   (velocity event))].
Proof.
  intros Ht Hin Hcb Htype Hout Hact.
  assert (∃ m, OrchardMIDI.allNotesOff (midi this) (channel event) = Ok m ∧
               OrchardMIDI.output m = Some port ∧
               OrchardMIDI.activeNotes m !! channel event = Some [])
    as (m & Hoff & Hout' & Hact').
  { unfold OrchardMIDI.allNotesOff. rewrite Hact.
    rewrite (forEachNoteOff_output _ port _ _ active Hout Hact).
    eexists. split; [done|]. simpl.
    by rewrite setDelete_all_self, lookup_insert_eq. }
  assert (timersTracked (with_midi this m)) as Ht' by done.
  pose proof (fire_pending (with_midi this m) timer Ht' Hin) as Hfire.
  rewrite Hcb in Hfire. simpl in Hfire. rewrite decide_True in Hfire by done.
  rewrite (noteOn_output m _ (note event) (velocity event) port [] Hout' Hact')
    in Hfire.
  simpl in Hfire.
  destruct (truthy (durationMs event)); simpl in Hfire;
    eexists (with_midi this m), _;
    (split; [unfold allNotesOff; by rewrite Hoff|]);
    (split; [done|]); (split; [done|]);
    (split; [exact Hfire|]); simpl;
    (split; [by rewrite lookup_insert_eq|done]).
Qed.

(** X24.  When the timer of a note-on event that carries a duration
    fires, with an output selected and the note not yet in the registry
    of its channel, the note-on is sent, the note enters the registry,
    and exactly one new timer is set, with the event's duration, for the
    paired note-off; its id is recorded in [pendingTimeouts].  When that
    timer fires in turn the note-off is sent and the registry is back to
    what it was. *)
Theorem note_on_schedules_paired_off this (timer : Timer) (event : MidiEvent)
    (port : nat) (active : list Z) (duration : float) :
  timersTracked this →
  timer ∈ timers this →
  callback timer = PlayEvent event →
  type event = "noteOn" →
  durationMs event = Some duration →
  truthy (Some duration) = true →
  OrchardMIDI.output (midi this) = Some port →
  OrchardMIDI.activeNotes (midi this) !! channel event = Some active →
  note event ∉ active →
  ∃ played released,
    fire this (timerId timer) = Ok played ∧
    OrchardMIDI.activeNotes (midi played) !! channel event
    = Some (active ++ [note event]) ∧
    timers played
    = clearTimeout (timers this) (timerId timer)
      ++ [{| timerId := nextId this; delay := duration;
             callback := PairedOff (channel event) (note event) |}] ∧
    nextId this ∈ pendingTimeouts played ∧
    fire played (nextId this) = Ok released ∧
    timers released = clearTimeout (timers this) (timerId timer) ∧
    OrchardMIDI.activeNotes (midi released) = OrchardMIDI.activeNotes (midi this) ∧
    OrchardMIDI.sent (midi released)
    = OrchardMIDI.sent (midi this)
      ++ [(port, noteOnMessage (channel event) (note event) (velocity event));
          (port, noteOffMessage (channel event) (note event))].
Proof.
  intros Ht Hin Hcb Htype Hdur Htruthy Hout Hact Hfresh.
  pose proof (fire_pending this timer Ht Hin) as Hfire.
  rewrite Hcb in Hfire. simpl in Hfire. rewrite decide_True in Hfire by done.
  rewrite (noteOn_output (midi this) _ (note event) (velocity event) port
             active Hout Hact) in Hfire.
  simpl in Hfire. rewrite Hdur, Htruthy in Hfire. simpl in Hfire.
  set (paired := {| timerId := nextId this; delay := duration;
                    callback := PairedOff (channel event) (note event) |}).
  set (rest := clearTimeout (timers this) (timerId timer)) in *.
  assert (Forall (λ t, timerId t ≠ nextId this) rest) as Hold.
  { apply Forall_forall. intros t [Ht' _]%elem_of_clearTimeout.
    destruct Ht as [Htr _]. rewrite Forall_forall in Htr.
    destruct (Htr _ Ht'). lia. }
  eexists _, _.
  split; [exact Hfire|]. simpl.
  split.
  { rewrite lookup_insert_eq. unfold setAdd. by rewrite decide_False. }
  split; [done|].
  split; [apply elem_of_app; right; by left|].
  assert (list_find (λ t, timerId t = nextId this) (rest ++ [paired])
          = Some (length rest, paired)) as Hfind.
  { apply list_find_Some. split; [by rewrite lookup_app_r, Nat.sub_diag|].
    split; [done|]. intros j y Hj Hlt.
    rewrite lookup_app_l in Hj by done.
    rewrite Forall_forall in Hold. apply Hold.
    apply list_elem_of_lookup. eauto. }
  assert (clearTimeout (rest ++ [paired]) (nextId this) = rest) as Hclear.
  { unfold clearTimeout. rewrite filter_app, filter_cons.
    rewrite decide_False by (simpl; tauto).
    rewrite filter_nil, app_nil_r. by apply filter_all_timers. }
  split.
  { unfold fire. simpl. fold paired. rewrite Hfind, Hclear. simpl.
    erewrite noteOff_output; [|done|simpl; apply lookup_insert_eq].
    reflexivity. }
  simpl. split; [done|].
  split.
  { rewrite insert_insert_eq.
    unfold setAdd. rewrite decide_False by done.
    unfold setDelete. rewrite filter_app, filter_cons.
    rewrite decide_False by tauto. rewrite filter_nil, app_nil_r.
    rewrite filter_all; [by apply insert_id|].
    apply Forall_forall. intros y Hy ->. done. }
  by rewrite <- app_assoc.
Qed.

End SchedulerBatches.

Lemma sampleScheduled_tracked : timersTracked sampleScheduled.
Proof.
  split.
  - repeat constructor; simpl; lia.
  - repeat constructor. by intros []%elem_of_nil.
Qed.

Lemma scheduleBatch_timers_witness :
  Scheduler.timers (Scheduler.scheduleBatch sampleScheduled [sampleEvent] true)
  = batchTimers (Scheduler.nextId sampleScheduled) [sampleEvent] ∧
  Scheduler.pendingTimeouts
    (Scheduler.scheduleBatch sampleScheduled [sampleEvent] true)
  = Scheduler.timerId
    <$> batchTimers (Scheduler.nextId sampleScheduled) [sampleEvent] ∧
  Scheduler.timers (Scheduler.scheduleBatch sampleScheduled [sampleEvent] false)
  = Scheduler.timers sampleScheduled
    ++ batchTimers (Scheduler.nextId sampleScheduled) [sampleEvent] ∧
  Scheduler.pendingTimeouts
    (Scheduler.scheduleBatch sampleScheduled [sampleEvent] false)
  = Scheduler.pendingTimeouts sampleScheduled
    ++ (Scheduler.timerId
        <$> batchTimers (Scheduler.nextId sampleScheduled) [sampleEvent]) ∧
  (∀ cancelPrevious,
     Scheduler.midi
       (Scheduler.scheduleBatch sampleScheduled [sampleEvent] cancelPrevious)
     = Scheduler.midi sampleScheduled ∧
     timersTracked
       (Scheduler.scheduleBatch sampleScheduled [sampleEvent] cancelPrevious)) ∧
  length (batchTimers (Scheduler.nextId sampleScheduled) [sampleEvent])
  = length [sampleEvent].
Proof.
  apply (scheduleBatch_timers sampleScheduled [sampleEvent]).
  apply sampleScheduled_tracked.
Defined.

Lemma allNotesOff_keeps_scheduled_note_on_witness :
  ∃ stopped fired,
    Scheduler.allNotesOff sampleScheduled (Scheduler.channel sampleEvent)
    = Ok stopped ∧
    Scheduler.timers stopped = Scheduler.timers sampleScheduled ∧
    OrchardMIDI.activeNotes (Scheduler.midi stopped)
      !! Scheduler.channel sampleEvent = Some [] ∧
    Scheduler.fire stopped (Scheduler.timerId sampleTimer) = Ok fired ∧
    OrchardMIDI.activeNotes (Scheduler.midi fired)
      !! Scheduler.channel sampleEvent
    = Some [Scheduler.note sampleEvent] ∧
    OrchardMIDI.sent (Scheduler.midi fired)
    = OrchardMIDI.sent (Scheduler.midi stopped)
      ++ [(0%nat, noteOnMessage (Scheduler.channel sampleEvent)
                    (Scheduler.note sampleEvent)
                    (Scheduler.velocity sampleEvent))].
Proof.
  apply (allNotesOff_keeps_scheduled_note_on sampleScheduled sampleTimer
           sampleEvent 0%nat []).
  - apply sampleScheduled_tracked.
  - left.
  - reflexivity.
  - reflexivity.
  - reflexivity.
  - vm_compute. reflexivity.
Defined.

Lemma note_on_schedules_paired_off_witness :
  ∃ played released,
    Scheduler.fire sampleScheduled (Scheduler.timerId sampleTimer) = Ok played ∧
    OrchardMIDI.activeNotes (Scheduler.midi played)
      !! Scheduler.channel sampleEvent
    = Some ([] ++ [Scheduler.note sampleEvent]) ∧
    Scheduler.timers played
    = Scheduler.clearTimeout (Scheduler.timers sampleScheduled)
        (Scheduler.timerId sampleTimer)
      ++ [{| Scheduler.timerId := Scheduler.nextId sampleScheduled;
             Scheduler.delay := 212.5%float;
             Scheduler.callback :=
               Scheduler.PairedOff (Scheduler.channel sampleEvent)
                                   (Scheduler.note sampleEvent) |}] ∧
    Scheduler.nextId sampleScheduled ∈ Scheduler.pendingTimeouts played ∧
    Scheduler.fire played (Scheduler.nextId sampleScheduled) = Ok released ∧
    Scheduler.timers released
    = Scheduler.clearTimeout (Scheduler.timers sampleScheduled)
        (Scheduler.timerId sampleTimer) ∧
    OrchardMIDI.activeNotes (Scheduler.midi released)
    = OrchardMIDI.activeNotes (Scheduler.midi sampleScheduled) ∧
    OrchardMIDI.sent (Scheduler.midi released)
    = OrchardMIDI.sent (Scheduler.midi sampleScheduled)
      ++ [(0%nat, noteOnMessage (Scheduler.channel sampleEvent)
                    (Scheduler.note sampleEvent)
                    (Scheduler.velocity sampleEvent));
          (0%nat, noteOffMessage (Scheduler.channel sampleEvent)
                    (Scheduler.note sampleEvent))].
Proof.
  apply (note_on_schedules_paired_off sampleScheduled sampleTimer sampleEvent
           0%nat [] 212.5%float).
  - apply sampleScheduled_tracked.
  - left.
  - reflexivity.
  - reflexivity.
  - reflexivity.
  - reflexivity.
  - reflexivity.
  - vm_compute. reflexivity.
  - by intros []%elem_of_nil.
Defined.

(** ** Stopping the output *)

Section StopOutput.

Import ChordEngine.

Implicit Types this : ChordEngine.t.

Lemma allNotesOff_output (m : OrchardMIDI.t) channel port :
  OrchardMIDI.output m = Some port →
  ∃ m',
    OrchardMIDI.allNotesOff m channel = Ok m' ∧
    OrchardMIDI.output m' = Some port ∧
    OrchardMIDI.sent m' = OrchardMIDI.sent m ++ noteOffsFor m port channel ∧
    (is_Some (OrchardMIDI.activeNotes m !! channel) →
     OrchardMIDI.activeNotes m' !! channel = Some []) ∧
    (∀ other, other ≠ channel →
       OrchardMIDI.activeNotes m' !! other
       = OrchardMIDI.activeNotes m !! other).
Proof.
  intros Hout. unfold OrchardMIDI.allNotesOff, noteOffsFor.
  destruct (OrchardMIDI.activeNotes m !! channel) as [active|] eqn:Hact.
  - rewrite (forEachNoteOff_output _ port _ _ active Hout Hact).
    eexists. split; [done|]. simpl.
    rewrite setDelete_all_self, lookup_insert_eq.
    split; [done|]. split; [done|]. split; [done|].
    intros other Hne. by rewrite lookup_insert_ne.
  - exists m. simpl. rewrite app_nil_r.
    split; [done|]. split; [done|]. split; [done|]. split; [|done].
    by intros [? ?].
Qed.

Lemma allNotesOff_no_output (m : OrchardMIDI.t) channel :
  OrchardMIDI.output m = None → OrchardMIDI.allNotesOff m channel = Ok m.
Proof.
  intros Hout. unfold OrchardMIDI.allNotesOff.
  destruct (OrchardMIDI.activeNotes m !! channel); [|done].
  by apply forEachNoteOff_no_output.
Qed.

(** X25.  When every pending timer is recorded in [pendingTimeouts],
    [stopOutput] returns without throwing and no timer is pending
    afterwards, so nothing scheduled earlier can still sound.  It empties
    [pendingTimeouts] and [currentChord] and leaves the active key, the
    held note, the modes and the zone settings ([State.t]) as they
    were.  With an output selected it sends one note-off for every note
    registered on the chord, performance and bass channels, in that
    order of channels, and each of the three registries that exists is
    empty afterwards; without an output it sends nothing and the
    registries keep their notes. *)
Theorem stopOutput_silences_everything this :
  timersTracked (sched this) →
  ∃ this',
    stopOutput this = Ok this' ∧
    Scheduler.timers (sched this') = [] ∧
    Scheduler.pendingTimeouts (sched this') = [] ∧
    (∀ id, Scheduler.fire (sched this') id = Ok (sched this')) ∧
    Controls.currentChord (controls this') = [] ∧
    state this' = state this ∧
    match OrchardMIDI.output (Scheduler.midi (sched this)) with
    | Some port =>
        OrchardMIDI.sent (Scheduler.midi (sched this'))
        = OrchardMIDI.sent (Scheduler.midi (sched this))
          ++ noteOffsFor (Scheduler.midi (sched this)) port 0
          ++ noteOffsFor (Scheduler.midi (sched this)) port 1
          ++ noteOffsFor (Scheduler.midi (sched this)) port 2 ∧
        ∀ channel,
          channel ∈ registeredChannels →
          is_Some (OrchardMIDI.activeNotes (Scheduler.midi (sched this))
                     !! channel) →
          OrchardMIDI.activeNotes (Scheduler.midi (sched this')) !! channel
          = Some []
    | None => Scheduler.midi (sched this') = Scheduler.midi (sched this)
    end.
Proof.
  intros Htracked. unfold stopOutput.
  pose proof (cancelPending_timers _ Htracked) as Htimers.
  set (s := Scheduler.cancelPending (sched this)) in *.
  assert (Hmidi : Scheduler.midi s = Scheduler.midi (sched this)) by done.
  assert (Hpending : Scheduler.pendingTimeouts s = []) by done.
  clearbody s.
  unfold Scheduler.allNotesOff, MIDI_CHANNELS.CHORD,
    MIDI_CHANNELS.PERFORMANCE, MIDI_CHANNELS.BASS.
  rewrite Hmidi.
  destruct (OrchardMIDI.output (Scheduler.midi (sched this)))
    as [port|] eqn:Hout.
  - destruct (allNotesOff_output _ 0 port Hout)
      as (m0 & -> & Hout0 & Hsent0 & Hreg0 & Hother0).
    simpl.
    destruct (allNotesOff_output _ 1 port Hout0)
      as (m1 & -> & Hout1 & Hsent1 & Hreg1 & Hother1).
    simpl.
    destruct (allNotesOff_output _ 2 port Hout1)
      as (m2 & -> & Hout2 & Hsent2 & Hreg2 & Hother2).
    simpl. eexists. split; [done|]. simpl.
    split; [done|]. split; [done|].
    split; [intros id; unfold Scheduler.fire; simpl; by rewrite Htimers|].
    split; [done|]. split; [done|]. split.
    + rewrite Hsent2, Hsent1, Hsent0, <- !app_assoc.
      unfold noteOffsFor.
      by rewrite (Hother1 2), (Hother0 2), (Hother0 1) by done.
    + intros channel Hch Hsome. unfold registeredChannels in Hch.
      rewrite !elem_of_cons in Hch.
      destruct Hch as [-> | [-> | [-> | Hch]]].
      * rewrite (Hother2 0), (Hother1 0) by done. by apply Hreg0.
      * rewrite (Hother2 1) by done. apply Hreg1.
        by rewrite (Hother0 1) by done.
      * apply Hreg2. by rewrite (Hother1 2), (Hother0 2) by done.
      * by apply elem_of_nil in Hch.
  - rewrite (allNotesOff_no_output _ 0 Hout). simpl.
    rewrite (allNotesOff_no_output _ 1 Hout). simpl.
    rewrite (allNotesOff_no_output _ 2 Hout). simpl.
    eexists. split; [done|]. simpl.
    split; [done|]. split; [done|].
    split; [intros id; unfold Scheduler.fire; simpl; by rewrite Htimers|].
    done.
Qed.

End StopOutput.

Lemma heldEngine_tracked : timersTracked (ChordEngine.sched heldEngine).
Proof.
  split.
  - repeat constructor; simpl; lia.
  - repeat constructor. by intros []%elem_of_nil.
Qed.

Lemma stopOutput_silences_everything_witness :
  ∃ this',
    ChordEngine.stopOutput heldEngine = Ok this' ∧
    Scheduler.timers (ChordEngine.sched this') = [] ∧
    OrchardMIDI.sent (Scheduler.midi (ChordEngine.sched this'))
    = [(0%nat, [0x80; 72; 0]); (0%nat, [0x80; 75; 0]);
       (0%nat, [0x80; 79; 0]); (0%nat, [0x82; 60; 0])].
Proof.
  destruct (stopOutput_silences_everything heldEngine heldEngine_tracked)
    as (this' & Hstop & Htimers & _ & _ & _ & _ & Hsent & _).
  exists this'. split; [exact Hstop|]. split; [exact Htimers|].
  rewrite Hsent. reflexivity.
Defined.

(** ** The chord of the held key *)

Lemma applyVoicing_sorted notes (position : Z) :
  StronglySorted Z.le (applyVoicing notes position).
Proof.
  unfold applyVoicing. case_decide as Hlen.
  - destruct notes; [constructor|done].
  - apply le_sorted_filter, voicingLoop_sorted, sortAsc_sorted.
Qed.

Lemma applyVoicing_range notes (position : Z) :
  Forall inMidiRange (applyVoicing notes position).
Proof.
  unfold applyVoicing. case_decide as Hlen.
  - destruct notes; [constructor|done].
  - apply Forall_forall. by intros x [? _]%list_elem_of_filter.
Qed.

Lemma mapped_types_truthy :
  map_Forall (λ _ mapping, map_Forall (λ _ chordType, chordType ≠ "") mapping)
             KEY_MODE_MAPPINGS
  ∧ map_Forall (λ _ mapping,
                  map_Forall (λ _ chordType, chordType ≠ "") mapping)
               ADDITIONAL_KEY_MODE_MAPPINGS.
Proof. split; by_computation. Qed.

Lemma getKeyModeChordType_truthy pressedNote keyRoot scaleType chordType :
  getKeyModeChordType pressedNote keyRoot scaleType = Ok chordType →
  chordType ≠ "".
Proof.
  unfold getKeyModeChordType, chordTypeForInterval.
  set (interval := rem _ 12). clearbody interval.
  destruct mapped_types_truthy as [Hkey Hadd].
  assert (Hmap : ∀ mapping,
             match getMapping KEY_MODE_MAPPINGS scaleType with
             | MUndefined => getMapping ADDITIONAL_KEY_MODE_MAPPINGS scaleType
             | found => found
             end = MObject mapping →
             map_Forall (λ _ chordType, chordType ≠ "") mapping).
  { intros mapping. unfold getMapping.
    destruct (KEY_MODE_MAPPINGS !! scaleType) as [m|] eqn:Hk.
    - intros [= <-]. exact (Hkey _ _ Hk).
    - case_decide; [done|].
      destruct (ADDITIONAL_KEY_MODE_MAPPINGS !! scaleType) as [m|] eqn:Ha.
      + intros [= <-]. exact (Hadd _ _ Ha).
      + done. }
  destruct (match getMapping KEY_MODE_MAPPINGS scaleType with
            | MUndefined => _ | found => found end) as [|mapping|].
  - by intros [= <-].
  - specialize (Hmap mapping eq_refl).
    destruct (mapping !! interval) as [ty|] eqn:Hi.
    + intros [= <-]. exact (Hmap _ _ Hi).
    + destruct (quantizeToScaleOf _ _) as [quantized|]; [|done]. simpl.
      intros [= <-].
      destruct (mapping !! quantized) as [ty|] eqn:Hq; [|done].
      exact (Hmap _ _ Hq).
  - destruct (quantizeToScaleOf _ _); [|done]. by intros [= <-].
Qed.

Section ChordOutput.

Import ChordEngine.

Implicit Types this : ChordEngine.t.

Variable sendOutput :
  ChordEngine.t → list Z → Z → Z → Settings.t → result Scheduler.t.

Lemma keyModeType_truthy settings keyNote chordType :
  keyModeType settings keyNote = Ok chordType → truthyType chordType = true.
Proof.
  unfold keyModeType.
  destruct (getKeyModeChordType _ _ _) as [ty|] eqn:Hty; [|done].
  intros [= <-]. simpl. apply bool_decide_eq_true.
  by eapply getKeyModeChordType_truthy.
Qed.

(** The chord type [generateCurrentArpNotes] settles on, and the one
    [updateOutputWithOptions] settles on without a zone chord type. *)
Local Abbreviation manualType this settings keyNote :=
  (if negb (truthyType (Controls.activeChordType (controls this)))
      && KeySettings.enabled (Settings.keyMode settings)
   then keyModeType settings keyNote
   else mret (Controls.activeChordType (controls this))).

Lemma manualType_truthy this settings keyNote chordType :
  manualType this settings keyNote = Ok chordType →
  truthyType chordType = hasChordType this settings.
Proof.
  unfold hasChordType.
  destruct (truthyType (Controls.activeChordType (controls this))) eqn:Hact;
    simpl.
  - by intros [= <-].
  - destruct (KeySettings.enabled (Settings.keyMode settings)).
    + apply keyModeType_truthy.
    + by intros [= <-].
Qed.

(** X26.  While a key is active, the notes [generateCurrentArpNotes]
    returns for the arpeggio loop are these.  With a chord type at hand
    (one selected, or key mode enabled) they are in ascending order and
    within [0,127], and with suppress-root on none of them has the pitch
    class of the (quantised) root.  With no chord type they are the
    single (quantised) root note, also when suppress-root is on. *)
Theorem generateCurrentArpNotes_notes this (keyNote : Z) result :
  State.activeKey (state this) = Some keyNote →
  generateCurrentArpNotes this = Ok result →
  ∃ notes rootNote keyNote',
    result = Some notes ∧
    quantizeRoot
      (settingsFor this keyNote (State.activeMidiNote (state this)))
      (rootFor keyNote (State.activeMidiNote (state this))) keyNote
    = Ok (rootNote, keyNote') ∧
    if hasChordType this
         (settingsFor this keyNote (State.activeMidiNote (state this)))
    then
      StronglySorted Z.le notes ∧
      Forall inMidiRange notes ∧
      (Controls.suppressRoot (controls this) = true →
       Forall (λ n, rem n 12 ≠ rem rootNote 12) notes)
    else notes = [rootNote].
Proof.
  intros Hkey. unfold generateCurrentArpNotes. rewrite Hkey.
  fold (rootFor keyNote (State.activeMidiNote (state this))).
  fold (settingsFor this keyNote (State.activeMidiNote (state this))).
  set (settings := settingsFor _ _ _).
  destruct (quantizeRoot settings _ keyNote) as [[rootNote keyNote']|];
    [|done].
  simpl.
  destruct (manualType this settings keyNote') as [chordType|] eqn:Hty;
    [|done].
  simpl. apply manualType_truthy in Hty. rewrite <- Hty.
  destruct (truthyType chordType); simpl.
  - destruct (generateChord _ _ _) as [baseChord|]; [|done]. simpl.
    destruct (Controls.suppressRoot (controls this)); intros [= <-];
      eexists _, rootNote, keyNote'; (split; [done|]); (split; [done|]).
    + split; [apply le_sorted_filter, applyVoicing_sorted|].
      split.
      * apply Forall_forall. intros n [_ Hn]%list_elem_of_filter.
        revert n Hn. apply Forall_forall, applyVoicing_range.
      * intros _. apply Forall_forall.
        by intros n [Hn _]%list_elem_of_filter.
    + split; [apply applyVoicing_sorted|].
      split; [apply applyVoicing_range|done].
  - intros [= <-]. by eexists _, rootNote, keyNote'.
Qed.

(** [generateCurrentArpNotes] reads neither [currentChord] nor the MIDI
    object. *)
Lemma generateCurrentArpNotes_frame this chord s :
  generateCurrentArpNotes
    (with_sched
       (with_controls this (Controls.set_currentChord (controls this) chord))
       s)
  = generateCurrentArpNotes this.
Proof. reflexivity. Qed.

(** What a call of [updateOutputWithOptions] that returned has done. *)
Lemma updateOutputWithOptions_returned this velocity midiNote zoneChordType
    keyNote this' :
  State.activeKey (state this) = Some keyNote →
  updateOutputWithOptions sendOutput this velocity midiNote zoneChordType
  = Ok this' →
  ∃ rootNote keyNote' chordType output s,
    quantizeRoot (settingsFor this keyNote midiNote)
      (rootFor keyNote midiNote) keyNote
    = Ok (rootNote, keyNote') ∧
    (if decide (zoneChordType = Some "auto") then
       keyModeType (settingsFor this keyNote midiNote) keyNote'
     else if truthyType zoneChordType then mret zoneChordType
     else manualType this (settingsFor this keyNote midiNote) keyNote')
    = Ok chordType ∧
    (if truthyType chordType then
       ∃ baseChord,
         generateChord rootNote (default "" chordType)
           (Controls.activeExtensions (controls this))
         = Ok baseChord ∧
         output
         = applyVoicing baseChord (Controls.voicingPosition (controls this))
     else output = [rootNote]) ∧
    sendOutput
      (with_controls this (Controls.set_currentChord (controls this) output))
      output velocity rootNote (settingsFor this keyNote midiNote)
    = Ok s ∧
    this'
    = with_sched
        (with_controls this
           (Controls.set_currentChord (controls this) output))
        s.
Proof.
  intros Hkey. unfold updateOutputWithOptions. rewrite Hkey.
  fold (rootFor keyNote midiNote). fold (settingsFor this keyNote midiNote).
  set (settings := settingsFor _ _ _).
  destruct (quantizeRoot settings _ keyNote) as [[rootNote keyNote']|];
    [|done].
  simpl.
  destruct (if decide (zoneChordType = Some "auto") then _ else _)
    as [chordType|] eqn:Hty; [|done].
  simpl.
  destruct (truthyType chordType) eqn:Htruthy.
  - destruct (generateChord _ _ _) as [baseChord|] eqn:Hchord; [|done].
    simpl.
    destruct (sendOutput _ _ _ _ _) as [s|] eqn:Hsend; [|done].
    simpl. intros [= <-].
    eexists rootNote, keyNote', chordType, _, s.
    rewrite Htruthy. split; [done|]. split; [done|].
    split; [by eexists|]. done.
  - simpl.
    destruct (sendOutput _ _ _ _ _) as [s|] eqn:Hsend; [|done].
    simpl. intros [= <-].
    eexists rootNote, keyNote', chordType, _, s.
    rewrite Htruthy. done.
Qed.

(** X27.  The arpeggio loop takes its notes from the chord type selected
    on the buttons (or derived by key mode), never from a zone's fixed
    chord type.  After [updateOutputWithOptions] was called for the held
    MIDI note with a zone chord type, [generateCurrentArpNotes] returns
    the notes of the chord that the same call without zone chord type
    stores in [currentChord]: all of them when suppress-root is off, and
    otherwise a selection of them in the same order. *)
Theorem arp_loop_follows_manual_selection this (velocity : Z)
    (zoneChordType : option string) withZone manual :
  State.activeKey (state this) ≠ None →
  updateOutputWithOptions sendOutput this velocity
    (State.activeMidiNote (state this)) zoneChordType = Ok withZone →
  updateOutputWithOptions sendOutput this velocity
    (State.activeMidiNote (state this)) None = Ok manual →
  ∃ notes,
    generateCurrentArpNotes withZone = Ok (Some notes) ∧
    generateCurrentArpNotes manual = Ok (Some notes) ∧
    notes `sublist_of` Controls.currentChord (controls manual) ∧
    (Controls.suppressRoot (controls this) = false →
     notes = Controls.currentChord (controls manual)).
Proof.
  intros Hkey Hzone Hmanual.
  destruct (State.activeKey (state this)) as [keyNote|] eqn:Hactive; [|done].
  apply (updateOutputWithOptions_returned _ _ _ _ keyNote) in Hzone
    as (? & ? & ? & chord & s & _ & _ & _ & _ & ->); [|done].
  apply (updateOutputWithOptions_returned _ _ _ _ keyNote) in Hmanual
    as (rootNote & keyNote' & chordType & output & s'
        & Hroot & Hty & Hout & _ & ->); [|done].
  rewrite !generateCurrentArpNotes_frame. simpl.
  unfold generateCurrentArpNotes. rewrite Hactive.
  fold (rootFor keyNote (State.activeMidiNote (state this))).
  fold (settingsFor this keyNote (State.activeMidiNote (state this))).
  rewrite Hroot. simpl. simpl in Hty. rewrite Hty. simpl.
  destruct (truthyType chordType); simpl.
  - destruct Hout as (baseChord & -> & ->). simpl.
    destruct (Controls.suppressRoot (controls this)); eexists;
      (split; [done|]); (split; [done|]).
    + split; [apply sublist_filter|done].
    + done.
  - subst output. eexists. done.
Qed.

(** X28.  A chord button pressed while a key is active rebuilds the chord
    from the active key in the octave of note 48, through the settings
    in force for that note: the MIDI note that is held
    ([activeMidiNote]) plays no part.  The new chord is that of the
    pressed type on that root, quantised when quantisation is on, with
    the active extensions and the voicing applied. *)
Theorem onChordType_rebuilds_from_active_key this (chordType : string)
    (keyNote : Z) this' :
  State.activeKey (state this) = Some keyNote →
  chordType ≠ "" →
  onChordType sendOutput this chordType true = Ok this' →
  ∃ rootNote keyNote' baseChord,
    quantizeRoot (settingsFor this keyNote None) (keyNote + 48) keyNote
    = Ok (rootNote, keyNote') ∧
    generateChord rootNote chordType
      (Controls.activeExtensions (controls this))
    = Ok baseChord ∧
    Controls.currentChord (controls this')
    = applyVoicing baseChord (Controls.voicingPosition (controls this)) ∧
    Controls.activeChordType (controls this') = Some chordType ∧
    state this' = state this.
Proof.
  intros Hkey Hne. unfold onChordType, updateOutput. simpl.
  rewrite decide_True by (by rewrite Hkey).
  intros Hupdate.
  apply (updateOutputWithOptions_returned _ _ _ _ keyNote) in Hupdate
    as (rootNote & keyNote' & ty & output & s
        & Hroot & Hty & Hout & _ & ->); [|done].
  simpl in Hty.
  rewrite bool_decide_eq_true_2 in Hty by done. simpl in Hty.
  injection Hty as <-. simpl in Hout.
  rewrite bool_decide_eq_true_2 in Hout by done.
  destruct Hout as (baseChord & Hchord & ->).
  by exists rootNote, keyNote', baseChord.
Qed.

(** X29.  [onExtension] keeps [activeExtensions] free of duplicates: a
    press adds the extension unless it is there, a release removes it,
    and the other extensions stay.  When the settings in force for the
    held MIDI note (or for note 60) have an arpeggio performance mode,
    nothing else changes: no chord is rebuilt, nothing is sent or
    cancelled, and [currentChord] keeps the chord built before the
    change. *)
Theorem onExtension_toggles this (extension : string) (isPressed : bool)
    this' :
  NoDup (Controls.activeExtensions (controls this)) →
  onExtension sendOutput this extension isPressed = Ok this' →
  NoDup (Controls.activeExtensions (controls this')) ∧
  (extension ∈ Controls.activeExtensions (controls this')
   ↔ isPressed = true) ∧
  (∀ other, other ≠ extension →
     other ∈ Controls.activeExtensions (controls this')
     ↔ other ∈ Controls.activeExtensions (controls this)) ∧
  state this' = state this ∧
  (Settings.performanceMode
     (OrchardEngine.getEffectiveSettings (asEngine this)
        (default 60 (State.activeMidiNote (state this))))
   ∈ ["arp"; "arp2oct"] →
   sched this' = sched this ∧
   Controls.currentChord (controls this')
   = Controls.currentChord (controls this)).
Proof.
  intros Hnd. unfold onExtension.
  set (extensions :=
         if isPressed then
           if decide (extension ∈ Controls.activeExtensions (controls this))
           then Controls.activeExtensions (controls this)
           else Controls.activeExtensions (controls this) ++ [extension]
         else filter (λ e, e ≠ extension)
                     (Controls.activeExtensions (controls this))).
  assert (Hext : NoDup extensions ∧
                 (extension ∈ extensions ↔ isPressed = true) ∧
                 ∀ other, other ≠ extension →
                   other ∈ extensions
                   ↔ other ∈ Controls.activeExtensions (controls this)).
  { subst extensions. destruct isPressed.
    - case_decide as Hin.
      + split; [done|]. split; done.
      + split; [|split].
        * apply NoDup_app. split; [done|]. split; [|apply NoDup_singleton].
          intros x Hx ->%list_elem_of_singleton. done.
        * rewrite elem_of_app, list_elem_of_singleton. tauto.
        * intros other Hne.
          rewrite elem_of_app, list_elem_of_singleton. tauto.
    - split; [by apply NoDup_filter|]. split.
      + rewrite list_elem_of_filter. split; [tauto|done].
      + intros other Hne. rewrite list_elem_of_filter. tauto. }
  clearbody extensions. destruct Hext as (Hnd' & Hin & Hother).
  set (settings := OrchardEngine.getEffectiveSettings _ _).
  simpl.
  destruct (bool_decide (State.activeKey (state this) ≠ None)
            && negb (bool_decide
                       (Settings.performanceMode settings = "arp"
                        ∨ Settings.performanceMode settings = "arp2oct")))
    eqn:Hcall.
  - unfold updateOutput. intros Hupdate.
    apply andb_true_iff in Hcall as [Hkey Harp].
    apply bool_decide_eq_true in Hkey.
    destruct (State.activeKey (state this)) as [keyNote|] eqn:Hactive;
      [|done].
    apply (updateOutputWithOptions_returned _ _ _ _ keyNote) in Hupdate
      as (? & ? & ? & output & s & _ & _ & _ & _ & ->); [|done].
    simpl. split; [done|]. split; [done|]. split; [done|]. split; [done|].
    intros Hmode. apply negb_true_iff, bool_decide_eq_false in Harp.
    exfalso. apply Harp.
    rewrite !elem_of_cons in Hmode.
    destruct Hmode as [? | [? | []%elem_of_nil]]; auto.
  - intros [= <-]. simpl. done.
Qed.

End ChordOutput.

Lemma generateCurrentArpNotes_notes_witness :
  ∃ notes rootNote keyNote',
    Some [72; 75; 79] = Some notes ∧
    ChordEngine.quantizeRoot (settingsFor heldEngine 0 (Some 72)) 72 0
    = Ok (rootNote, keyNote') ∧
    StronglySorted Z.le notes ∧
    Forall inMidiRange notes ∧
    (false = true → Forall (λ n, rem n 12 ≠ rem rootNote 12) notes).
Proof.
  apply (generateCurrentArpNotes_notes heldEngine 0 (Some [72; 75; 79]));
    reflexivity.
Defined.

Lemma arp_loop_follows_manual_selection_witness :
  ∃ withZone manual notes,
    ChordEngine.updateOutputWithOptions sendNothing heldEngine 100
      (Some 72) (Some "Maj") = Ok withZone ∧
    ChordEngine.updateOutputWithOptions sendNothing heldEngine 100
      (Some 72) None = Ok manual ∧
    Controls.currentChord (ChordEngine.controls withZone) = [72; 76; 79] ∧
    Controls.currentChord (ChordEngine.controls manual) = [72; 75; 79] ∧
    ChordEngine.generateCurrentArpNotes withZone = Ok (Some notes) ∧
    notes = Controls.currentChord (ChordEngine.controls manual).
Proof.
  eexists _, _.
  destruct (arp_loop_follows_manual_selection sendNothing heldEngine 100
              (Some "Maj") _ _ ltac:(done) eq_refl eq_refl)
    as (notes & Hzone & _ & _ & Hall).
  exists notes. split; [reflexivity|]. split; [reflexivity|].
  split; [reflexivity|]. split; [reflexivity|].
  split; [exact Hzone|]. apply Hall. reflexivity.
Defined.

Lemma onChordType_rebuilds_from_active_key_witness :
  ∃ this' rootNote keyNote' baseChord,
    State.activeMidiNote (ChordEngine.state heldEngine) = Some 72 ∧
    ChordEngine.onChordType sendNothing heldEngine "Maj" true = Ok this' ∧
    ChordEngine.quantizeRoot (settingsFor heldEngine 0 None) 48 0
    = Ok (rootNote, keyNote') ∧
    generateChord rootNote "Maj" [] = Ok baseChord ∧
    Controls.currentChord (ChordEngine.controls this') = [48; 52; 55].
Proof.
  eexists.
  destruct (onChordType_rebuilds_from_active_key sendNothing heldEngine
              "Maj" 0 _ eq_refl ltac:(done) eq_refl)
    as (rootNote & keyNote' & baseChord & Hroot & Hchord & _).
  exists rootNote, keyNote', baseChord.
  split; [reflexivity|]. split; [reflexivity|].
  split; [exact Hroot|]. split; [exact Hchord|]. reflexivity.
Defined.

Lemma onExtension_toggles_witness :
  ∃ this',
    ChordEngine.onExtension sendNothing heldEngine "m7" true = Ok this' ∧
    Controls.activeExtensions (ChordEngine.controls this') = ["m7"] ∧
    NoDup (Controls.activeExtensions (ChordEngine.controls this')) ∧
    ("m7" ∈ Controls.activeExtensions (ChordEngine.controls this')
     ↔ true = true).
Proof.
  eexists. split; [reflexivity|]. split; [reflexivity|].
  destruct (onExtension_toggles sendNothing heldEngine "m7" true _
              (NoDup_nil_2 : NoDup []) eq_refl)
    as (Hnd & Hin & _).
  split; [exact Hnd|exact Hin].
Defined.

(** ** Key-mode chords and the scale *)

Lemma keyMode_chords_on_scale_all :
  Forall (λ scaleType,
    Forall (λ keyRoot,
      Forall (λ rootNote,
        onScale rootNote keyRoot scaleType →
        returned (getKeyModeChordType rootNote keyRoot scaleType)
          (λ chordType,
             returned (generateChord rootNote chordType [])
               (λ notes,
                  Forall (λ note, onScale note keyRoot scaleType) notes)))
      (seqZ 0 128))
    (seqZ 0 12))
  diatonicScales.
Proof. by_computation. Qed.

(** In harmonic minor the third degree gets a major chord whose fifth is
    off the scale. *)
Lemma harmonic_minor_chord_off_scale :
  onScale 63 0 "harmonic_minor" ∧
  getKeyModeChordType 63 0 "harmonic_minor" = Ok "Maj" ∧
  generateChord 63 "Maj" [] = Ok [63; 67; 70] ∧
  (onScale 70 0 "harmonic_minor" → False).
Proof. repeat split; by_computation. Qed.

(** X30.  In major, natural minor, dorian and mixolydian the chord that
    key mode derives for a root on the scale stays on the scale: for
    every key root of [0,11] and every root note of [0,127] on a scale
    degree, [getKeyModeChordType] returns a type, [generateChord] returns
    the chord of that type, and each of its notes lies on a scale
    degree. *)
Theorem keyMode_chords_stay_on_scale (rootNote keyRoot : Z)
    (scaleType : string) :
  scaleType ∈ diatonicScales →
  0 ≤ keyRoot ≤ 11 →
  0 ≤ rootNote ≤ 127 →
  onScale rootNote keyRoot scaleType →
  ∃ chordType notes,
    getKeyModeChordType rootNote keyRoot scaleType = Ok chordType ∧
    generateChord rootNote chordType [] = Ok notes ∧
    Forall (λ note, onScale note keyRoot scaleType) notes.
Proof.
  intros Hs Hr Hn Hon.
  assert (Hr' : keyRoot ∈ seqZ 0 12) by (apply elem_of_seqZ; lia).
  assert (Hn' : rootNote ∈ seqZ 0 128) by (apply elem_of_seqZ; lia).
  pose proof keyMode_chords_on_scale_all as H.
  rewrite Forall_forall in H. specialize (H _ Hs).
  rewrite Forall_forall in H. specialize (H _ Hr').
  rewrite Forall_forall in H. specialize (H _ Hn' Hon).
  destruct (getKeyModeChordType rootNote keyRoot scaleType) as [chordType|];
    [|done].
  simpl in H.
  destruct (generateChord rootNote chordType []) as [notes|] eqn:Hchord;
    [|done].
  exists chordType, notes. split; [done|]. split; [exact Hchord|exact H].
Qed.

Lemma keyMode_chords_stay_on_scale_witness :
  ∃ chordType notes,
    getKeyModeChordType 62 0 "major" = Ok chordType ∧
    generateChord 62 chordType [] = Ok notes ∧
    Forall (λ note, onScale note 0 "major") notes.
Proof.
  apply (keyMode_chords_stay_on_scale 62 0 "major");
    [by_computation|lia|lia|by_computation].
Defined.
